(** * Mern-Movie: recommendation engine, feed composer, batch insert queue
      and the interaction-tracking endpoint, embedded in Rocq.

    The development follows the JavaScript sources:
    - [utils/recommendationEngine.js]  -> modules [JS], [Engine], [Feed]
    - [utils/queue.js]                 -> module [Queue]
    - [controller/movieController.js]  -> module [Controller]
    - [model/UserInteraction.js]       -> [Controller.schemaInteractionTypes]
    - [controller/movieController.js]  -> also [Batch] (createMoviesBatch),
                                          [Preferences] (getMovieById and the
                                          updates of the user document),
                                          [FeedHandlers] (getMovieFeed,
                                          getTrending)
    - [route/movieRoutes.js]           -> module [Routes]
    - [middleware/auth.js]             -> module [Auth]
    - [middleware/cors.js]             -> module [Cors]

    Numbers.  The scoring code is written once, over the arithmetic it uses
    ([JS.Arith]), and read twice: over exact numbers ([JS.number]: a rational,
    or one of the IEEE special values [NaN], [+Infinity], [-Infinity]; no
    rounding, no signed zero), where the general theorems are proved, and
    over binary64 ([spec_float] with precision 53, round to nearest even),
    where the code is evaluated on the examples and on the failing inputs.
    A theorem stated for any [JS.Arith] holds of both readings.

    What is not the program's is a parameter.  The clock ([new Date()],
    [Date.now()]) is an explicit argument [now], in milliseconds since the
    epoch.  The calendar of the host, which [setDate(getDate() - 7)] goes
    by, is [Engine.Calendar]; the theorems hold for every calendar.  The
    store, that is how each call of Mongoose settles, is [Controller.Store];
    the theorems about the handlers hold for every store. *)

From Stdlib Require Import List Bool Arith ZArith QArith Qminmax Lia Lqa.
From Stdlib Require Import Floats.SpecFloat.
From Stdlib Require Import String Ascii DecimalString Permutation Sorted Morphisms.
From AAC_tactics Require Import AAC.
Import ListNotations.

Open Scope Q_scope.

(* ===================================================================== *)
(** ** JavaScript numbers *)
(* ===================================================================== *)

Module JS.

(** What the code does with numbers: [lit] is a numeric literal of the
    source or a number read from a document, [ofNat] the length of an array,
    [ofZ] the time value of a date, the rest are [+], [-], [*], [/],
    [Math.min], [<=] and [<]. *)
Class Arith (num : Type) : Type := {
  lit : Q -> num;
  ofNat : nat -> num;
  ofZ : Z -> num;
  add : num -> num -> num;
  sub : num -> num -> num;
  mul : num -> num -> num;
  div : num -> num -> num;
  min : num -> num -> num;
  leb : num -> num -> bool;
  ltb : num -> num -> bool
}.

(** *** Exact numbers: rationals with the special values *)

Inductive number : Type :=
| Fin (q : Q)
| PosInf
| NegInf
| NaN.

Module Exact.

(** Sign of a finite value: [Lt] negative, [Eq] zero, [Gt] positive. *)
Definition sgn (q : Q) : comparison := q ?= 0.

Definition inf_of (c : comparison) : number :=
  match c with
  | Gt => PosInf
  | Lt => NegInf
  | Eq => NaN
  end.

(** [a + b] *)
Definition add (a b : number) : number :=
  match a, b with
  | NaN, _ | _, NaN => NaN
  | PosInf, NegInf | NegInf, PosInf => NaN
  | PosInf, _ | _, PosInf => PosInf
  | NegInf, _ | _, NegInf => NegInf
  | Fin p, Fin q => Fin (p + q)
  end.

Definition neg (a : number) : number :=
  match a with
  | Fin p => Fin (- p)
  | PosInf => NegInf
  | NegInf => PosInf
  | NaN => NaN
  end.

(** [a - b] *)
Definition sub (a b : number) : number := add a (neg b).

(** [a * b]; zero times an infinity is [NaN]. *)
Definition mul (a b : number) : number :=
  match a, b with
  | NaN, _ | _, NaN => NaN
  | Fin p, Fin q => Fin (p * q)
  | Fin p, PosInf | PosInf, Fin p => inf_of (sgn p)
  | Fin p, NegInf | NegInf, Fin p => inf_of (CompOpp (sgn p))
  | PosInf, PosInf | NegInf, NegInf => PosInf
  | PosInf, NegInf | NegInf, PosInf => NegInf
  end.

(** [a / b]; [0 / 0] is [NaN], [x / 0] is an infinity with the sign of [x]. *)
Definition div (a b : number) : number :=
  match a, b with
  | NaN, _ | _, NaN => NaN
  | Fin p, Fin q =>
      match sgn q with
      | Eq => inf_of (sgn p)
      | _ => Fin (p / q)
      end
  | Fin _, PosInf | Fin _, NegInf => Fin 0
  | PosInf, Fin q => match sgn q with Lt => NegInf | _ => PosInf end
  | NegInf, Fin q => match sgn q with Lt => PosInf | _ => NegInf end
  | _, _ => NaN
  end.

(** [Math.min(a, b)]: [NaN] as soon as one argument is [NaN]. *)
Definition min (a b : number) : number :=
  match a, b with
  | NaN, _ | _, NaN => NaN
  | NegInf, _ | _, NegInf => NegInf
  | PosInf, x | x, PosInf => x
  | Fin p, Fin q => if Qle_bool p q then Fin p else Fin q
  end.

(** [a <= b]; every comparison with [NaN] is false. *)
Definition leb (a b : number) : bool :=
  match a, b with
  | NaN, _ | _, NaN => false
  | NegInf, _ | _, PosInf => true
  | PosInf, _ | _, NegInf => false
  | Fin p, Fin q => Qle_bool p q
  end.

(** [a < b] *)
Definition ltb (a b : number) : bool :=
  match a, b with
  | NaN, _ | _, NaN => false
  | PosInf, _ | _, NegInf => false
  | NegInf, _ | _, PosInf => true
  | Fin p, Fin q => match p ?= q with Lt => true | _ => false end
  end.

End Exact.

#[export] Instance exact : Arith number := {|
  lit := Fin;
  ofNat := fun n => Fin (inject_Z (Z.of_nat n));
  ofZ := fun z => Fin (inject_Z z);
  add := Exact.add;
  sub := Exact.sub;
  mul := Exact.mul;
  div := Exact.div;
  min := Exact.min;
  leb := Exact.leb;
  ltb := Exact.ltb
|}.

(** *** binary64: the numbers of the language, bit for bit *)

Module Binary64.

Definition prec : Z := 53.
Definition emax : Z := 1024.

(** The double nearest to an integer (the integer itself below 2^53). *)
Definition ofZ (z : Z) : spec_float := binary_normalize prec emax z 0 false.

(** The double nearest to a decimal literal [p / q]: the correctly rounded
    quotient of two integers below 2^53. *)
Definition lit (q : Q) : spec_float :=
  SFdiv prec emax (ofZ (Qnum q)) (ofZ (Zpos (Qden q))).

Definition isNaN (a : spec_float) : bool :=
  match a with
  | S754_nan => true
  | _ => false
  end.

(** [Math.min(a, b)]; of two zeros the negative one. *)
Definition min (a b : spec_float) : spec_float :=
  if isNaN a || isNaN b then S754_nan
  else
    match a, b with
    | S754_zero sa, S754_zero sb => S754_zero (sa || sb)
    | _, _ => if SFltb a b then a else b
    end.

End Binary64.

#[export] Instance binary64 : Arith spec_float := {|
  lit := Binary64.lit;
  ofNat := fun n => Binary64.ofZ (Z.of_nat n);
  ofZ := Binary64.ofZ;
  add := SFadd Binary64.prec Binary64.emax;
  sub := SFsub Binary64.prec Binary64.emax;
  mul := SFmul Binary64.prec Binary64.emax;
  div := SFdiv Binary64.prec Binary64.emax;
  min := Binary64.min;
  leb := SFleb;
  ltb := SFltb
|}.

(** Same value, up to the representation of the rational. *)
Definition eqn (a b : number) : Prop :=
  match a, b with
  | Fin p, Fin q => p == q
  | PosInf, PosInf | NegInf, NegInf | NaN, NaN => True
  | _, _ => False
  end.

(** A number of the closed interval [0, 1]. *)
Definition in_unit_interval (a : number) : Prop :=
  match a with
  | Fin q => 0 <= q <= 1
  | _ => False
  end.

(** [String.prototype.toLowerCase] on ASCII strings: the letters A-Z are
    lowered and every other character is kept.  The function of the language
    also lowers letters outside ASCII, which this one leaves as they are. *)
Definition lower_ascii (c : ascii) : ascii :=
  let n := nat_of_ascii c in
  if ((65 <=? n) && (n <=? 90))%nat then ascii_of_nat (n + 32) else c.

Fixpoint toLowerCase (s : string) : string :=
  match s with
  | EmptyString => EmptyString
  | String c s' => String (lower_ascii c) (toLowerCase s')
  end.

End JS.

Infix "=n" := JS.eqn (at level 70, no associativity).

(* ===================================================================== *)
(** ** Data model *)
(* ===================================================================== *)

(** An [ObjectId] is represented by its [toString()]. *)
Definition ObjectId := string.

(** Dates are milliseconds since the epoch. *)
Definition Date := Z.

Record Movie : Type := mkMovie {
  _id : ObjectId;
  title : string;
  genre : list string;
  director : string;
  rating : Q;
  releaseDate : Date
}.

Record ViewedMovie : Type := mkViewed {
  viewedMovieId : ObjectId;
  viewedAt : Date
}.

(** [user.interactionHistory]; a field that is [undefined] is [None]. *)
Record UserInteractions : Type := mkPrefs {
  preferredGenres : option (list string);
  preferredDirectors : option (list string);
  viewedMovies : option (list ViewedMovie)
}.

Record Metadata : Type := mkMetadata {
  timestamp : option Date
}.

Record Interaction : Type := mkInteraction {
  userId : ObjectId;
  movieId : ObjectId;
  interactionType : string;
  metadata : option Metadata
}.

(* ===================================================================== *)
(** ** utils/recommendationEngine.js : the scoring engine *)
(* ===================================================================== *)

Module Engine.
Import JS.

Definition msPerDay : Z := (1000 * 60 * 60 * 24)%Z.

(** [d = new Date(); d.setDate(d.getDate() - 7)]: the date of the calendar
    seven days earlier at the same wall-clock time, in the time zone of the
    host: 168 hours before [now], or 167 or 169 hours across a change of the
    clock.  The rules of the time zone are the host's, not the program's;
    [sevenDaysAgo now] is the instant they give. *)
Class Calendar : Type := {
  sevenDaysAgo : Date -> Date
}.

(** [interaction.metadata?.timestamp >= sevenDaysAgo] *)
Definition timestampSince (since : Date) (i : Interaction) : bool :=
  match metadata i with
  | Some md =>
      match timestamp md with
      | Some t => (since <=? t)%Z
      | None => false
      end
  | None => false
  end.

(** The filter of [calculatePopularity] and of [getTrendingMovies]. *)
Definition isRecentFor {calendar : Calendar}
    (now : Date) (movie : Movie) (i : Interaction) : bool :=
  String.eqb (movieId i) (_id movie) && timestampSince (sevenDaysAgo now) i.

Section Scoring.

Context {num : Type} `{Arith num} {calendar : Calendar}.

Definition calculateGenreWeight
    (movieGenres : list string) (userInteractions : UserInteractions) : num :=
  match preferredGenres userInteractions with
  | None => lit 0.5
  | Some prefs =>
      if (List.length prefs =? 0)%nat then lit 0.5
      else
        let matchingGenres :=
          List.length
            (filter (fun genre =>
                       existsb (fun pref =>
                                  String.eqb (toLowerCase pref) (toLowerCase genre))
                               prefs)
                    movieGenres) in
        min (div (ofNat matchingGenres) (ofNat (List.length movieGenres))) (lit 1)
  end.

Definition calculateDirectorWeight
    (movieDirector : string) (userInteractions : UserInteractions) : num :=
  match preferredDirectors userInteractions with
  | None => lit 0.5
  | Some prefs =>
      if (List.length prefs =? 0)%nat then lit 0.5
      else
        let likedDirectors := map toLowerCase prefs in
        if existsb (String.eqb (toLowerCase movieDirector)) likedDirectors
        then lit 1 else lit 0.3
  end.

Definition calculatePopularity
    (now : Date) (movie : Movie) (allInteractions : list Interaction) : num :=
  let recentInteractions :=
    List.length (filter (isRecentFor now movie) allInteractions) in
  min (div (ofNat recentInteractions) (lit 100)) (lit 1).

Definition calculateRecency (now : Date) (release : Date) : num :=
  let yearsDiff :=
    div (sub (ofZ now) (ofZ release)) (ofZ (1000 * 60 * 60 * 24 * 365)) in
  if leb yearsDiff (lit 5) then lit 1
  else if leb yearsDiff (lit 10) then lit 0.7
  else if leb yearsDiff (lit 20) then lit 0.5
  else lit 0.3.

Definition calculateInteractionWeight
    (id : ObjectId) (userInteractions : UserInteractions) : num :=
  let viewed :=
    match viewedMovies userInteractions with
    | Some vs => existsb (fun v => String.eqb (viewedMovieId v) id) vs
    | None => false
    end in
  if viewed then lit 0.1 else lit 0.8.

Definition calculateRecommendationScore
    (now : Date) (movie : Movie) (userInteractions : UserInteractions)
    (allInteractions : list Interaction) : num :=
  let score := lit 0 in
  let genreWeight := calculateGenreWeight (genre movie) userInteractions in
  let score := add score (mul genreWeight (lit 0.4)) in
  let directorWeight := calculateDirectorWeight (director movie) userInteractions in
  let score := add score (mul directorWeight (lit 0.2)) in
  let ratingWeight := mul (div (lit (rating movie)) (lit 10)) (lit 0.15) in
  let score := add score ratingWeight in
  let popularityWeight := calculatePopularity now movie allInteractions in
  let score := add score (mul popularityWeight (lit 0.1)) in
  let recencyWeight := calculateRecency now (releaseDate movie) in
  let score := add score (mul recencyWeight (lit 0.1)) in
  let interactionWeight := calculateInteractionWeight (_id movie) userInteractions in
  let score := add score (mul interactionWeight (lit 0.05)) in
  min score (lit 1).

End Scoring.

(** *** Specification side *)

(** The number of movie genres that are, letter case aside, in the
    preferred-genre set. *)
Definition matchCount (prefs : list string) (movieGenres : list string) : nat :=
  fold_right
    (fun g n =>
       if in_dec string_dec (toLowerCase g) (map toLowerCase prefs) then S n else n)
    0%nat movieGenres.

(** Matching genres over all genres of the movie. *)
Definition genreFraction (prefs : list string) (movieGenres : list string) : Q :=
  inject_Z (Z.of_nat (matchCount prefs movieGenres))
  / inject_Z (Z.of_nat (List.length movieGenres)).

(** A valid movie rating. *)
Definition validRating (m : Movie) : Prop := 0 <= rating m <= 10.

(** The user has no preference history. *)
Definition noHistory (o : option (list string)) : Prop :=
  o = None \/ o = Some [].

(** The same movie with other genres. *)
Definition withGenre (m : Movie) (genres : list string) : Movie :=
  {| _id := _id m;
     title := title m;
     genre := genres;
     director := director m;
     rating := rating m;
     releaseDate := releaseDate m |}.

End Engine.

(* ===================================================================== *)
(** ** utils/recommendationEngine.js : the feed composer *)
(* ===================================================================== *)

Module Feed.
Import JS Engine.

(** [Array.prototype.sort(comparefn)].  ECMAScript (2019 and later) makes the
    sort stable, and for a consistent comparator the result is the same in
    every implementation; the model is the stable insertion sort.  A
    comparator result [v] is read as the language does: [v > 0] puts the
    second argument first, anything else ([v < 0], [0], [NaN]) leaves the
    two in their order.  For a comparator that is not consistent (some
    result is [NaN]) the language leaves the order to the implementation:
    the model then gives one of the orders allowed, which need not be the
    order of the engine the program runs on. *)
Section Sort.

Context {num : Type} `{Arith num} {A : Type}.

Variable comparefn : A -> A -> num.

Fixpoint insert (x : A) (l : list A) : list A :=
  match l with
  | [] => [x]
  | y :: l' =>
      if ltb (lit 0) (comparefn x y) then y :: insert x l'
      else x :: y :: l'
  end.

Fixpoint sort (l : list A) : list A :=
  match l with
  | [] => []
  | x :: l' => insert x (sort l')
  end.

End Sort.

(** [Array.prototype.slice(0, end)] for an integer [end]: a negative [end]
    counts from the end of the array. *)
Definition slice0 {A : Type} (l : list A) (finish : Z) : list A :=
  let len := Z.of_nat (List.length l) in
  let final := if (finish <? 0)%Z then Z.max (len + finish) 0
               else Z.min finish len in
  firstn (Z.to_nat final) l.

(** The default value of the parameter [limit]. *)
Definition defaultLimit (limit : option Z) : Z :=
  match limit with
  | Some n => n
  | None => 20%Z
  end.

Record MovieWithScore (num : Type) : Type := mkScored {
  movie : Movie;
  score : num
}.

Arguments mkScored {num} movie score.
Arguments movie {num} m.
Arguments score {num} m.

Section Ranking.

Context {num : Type} `{Arith num} {calendar : Calendar}.

(** The comparator [(a, b) => b.score - a.score]. *)
Definition byScoreDesc (a b : MovieWithScore num) : num :=
  sub (score b) (score a).

Definition getPersonalizedFeed
    (now : Date) (movies : list Movie) (userInteractions : UserInteractions)
    (allInteractions : list Interaction) (limit : option Z) : list Movie :=
  let limit := defaultLimit limit in
  let moviesWithScores :=
    map (fun m =>
           mkScored m
             (calculateRecommendationScore now m userInteractions allInteractions))
        movies in
  map movie (slice0 (sort byScoreDesc moviesWithScores) limit).

(** The body of the callback of [movies.map] in [getTrendingMovies]. *)
Definition trendingScore
    (now : Date) (allInteractions : list Interaction) (m : Movie) : num :=
  let recentInteractions :=
    List.length (filter (isRecentFor now m) allInteractions) in
  add (mul (div (lit (rating m)) (lit 10)) (lit 0.5))
      (mul (min (div (ofNat recentInteractions) (lit 50)) (lit 1)) (lit 0.5)).

Definition getTrendingMovies
    (now : Date) (movies : list Movie) (allInteractions : list Interaction)
    (limit : option Z) : list Movie :=
  let limit := defaultLimit limit in
  let moviesWithTrendingScore :=
    map (fun m => mkScored m (trendingScore now allInteractions m)) movies in
  map movie (slice0 (sort byScoreDesc moviesWithTrendingScore) limit).

End Ranking.

(** *** Specification side: what the feed contract says *)

(** The number of interactions on [m] with a timestamp not before [since]. *)
Definition recentInteractionCount
    (since : Date) (allInteractions : list Interaction) (m : Movie) : nat :=
  count_occ Bool.bool_dec
    (map (fun i =>
            match metadata i with
            | Some md =>
                match timestamp md with
                | Some t =>
                    String.eqb (movieId i) (_id m) && (since <=? t)%Z
                | None => false
                end
            | None => false
            end) allInteractions)
    true.


(** No element is followed, anywhere later, by one of a strictly larger
    score. *)
Definition sortedDescBy {A : Type} (f : A -> number) (l : list A) : Prop :=
  StronglySorted (fun a b => ltb (f a) (f b) = false) l.

(** The comparator [(a, b) => f(b) - f(a)] for any score [f]. *)
Definition descending {A : Type} (f : A -> number) (a b : A) : number :=
  sub (f b) (f a).

End Feed.

(* ===================================================================== *)
(** ** utils/queue.js : the batch insert queue *)
(* ===================================================================== *)

Module Queue.

Local Open Scope nat_scope.
#[local] Set Implicit Arguments.
#[local] Set Contextual Implicit.

Section WithData.

(** The payload [movieData]. *)
Variable Data : Type.

Definition Error := string.

(** How the promise returned by an insert operation settles. *)
Inductive Outcome : Type :=
| Fulfilled
| Rejected (error : Error).

(** An insert operation is known by its outcomes: [f d k] is how the promise
    of [f(d)] settles when the item has been re-queued [k] times before. *)
Definition InsertFunction : Type := Data -> nat -> Outcome.

Record QueueItem : Type := mkItem {
  data : Data;
  insertFunction : InsertFunction;
  retries : nat;
  timestamp : nat
}.

Record MovieQueue : Type := mkQueue {
  queue : list QueueItem;
  processing : bool;
  batchSize : nat;
  processingInterval : nat;
  maxRetries : nat
}.

(** [constructor()] *)
Definition new_MovieQueue : MovieQueue :=
  {| queue := [];
     processing := false;
     batchSize := 10;
     processingInterval := 5000;
     maxRetries := 3 |}.

(** Where an invocation of the asynchronous [processQueue] is suspended. *)
Inductive Continuation : Type :=
| AwaitAllSettled (pending : list QueueItem)
    (** at [await Promise.allSettled(promises)]; [pending] are the items of
        the batch whose insert promise has not settled yet *)
| AwaitDelay.
    (** at [await new Promise(resolve => setTimeout(resolve, 100))] *)

(** [console.error] of the terminal failure. *)
Inductive LogEntry : Type :=
| FailedAfterRetries (n : nat) (d : Data) (error : Error).

(** The queue object together with the part of the event loop it lives in. *)
Record World : Type := mkWorld {
  mq : MovieQueue;
  passes : list Continuation;      (** suspended invocations of [processQueue] *)
  timers : nat;                    (** pending timers of the [finally] block *)
  console : list LogEntry;         (** what was logged, oldest first *)
  inserts : list (Data * nat)      (** the calls of insert operations made so
                                       far: payload and [retries] at the call *)
}.

Definition initial : World :=
  {| mq := new_MovieQueue; passes := []; timers := 0; console := []; inserts := [] |}.

Definition with_queue (q : MovieQueue) (l : list QueueItem) : MovieQueue :=
  {| queue := l;
     processing := processing q;
     batchSize := batchSize q;
     processingInterval := processingInterval q;
     maxRetries := maxRetries q |}.

Definition with_processing (q : MovieQueue) (b : bool) : MovieQueue :=
  {| queue := queue q;
     processing := b;
     batchSize := batchSize q;
     processingInterval := processingInterval q;
     maxRetries := maxRetries q |}.

(** The [finally] block: the flag is cleared, and a timer is armed when items
    are left. *)
Definition finallyBlock (w : World) : World :=
  let q := with_processing (mq w) false in
  {| mq := q;
     passes := passes w;
     timers := if (0 <? List.length (queue q))%nat then S (timers w) else timers w;
     console := console w;
     inserts := inserts w |}.

(** An invocation at the head of [while (this.queue.length > 0)]: it either
    splices a batch off the queue, calls the insert operation of each of its
    items and suspends on the batch, or leaves the loop and runs the
    [finally] block.  The world and, when it suspends, the continuation. *)
Definition loopHead (w : World) : World * option Continuation :=
  let q := mq w in
  if (0 <? List.length (queue q))%nat then
    let batch := firstn (batchSize q) (queue q) in
    let w' :=
      {| mq := with_queue q (skipn (batchSize q) (queue q));
         passes := passes w;
         timers := timers w;
         console := console w;
         inserts := inserts w ++ map (fun item => (data item, retries item)) batch |} in
    (w', Some (AwaitAllSettled batch))
  else (finallyBlock w, None).

Definition addPass (wc : World * option Continuation) : World :=
  match snd wc with
  | Some c =>
      {| mq := mq (fst wc);
         passes := passes (fst wc) ++ [c];
         timers := timers (fst wc);
         console := console (fst wc);
         inserts := inserts (fst wc) |}
  | None => fst wc
  end.

(** A call of [processQueue()], up to its first suspension. *)
Definition processQueue (w : World) : World :=
  if processing (mq w) || (List.length (queue (mq w)) =? 0)%nat then w
  else
    let w1 :=
      {| mq := with_processing (mq w) true;
         passes := passes w;
         timers := timers w;
         console := console w;
         inserts := inserts w |} in
    addPass (loopHead w1).

(** [enqueue(movieData, insertFunction)] at time [now]. *)
Definition enqueue (movieData : Data) (f : InsertFunction) (now : nat)
    (w : World) : World :=
  let queueItem :=
    {| data := movieData; insertFunction := f; retries := 0; timestamp := now |} in
  let w1 :=
    {| mq := with_queue (mq w) (queue (mq w) ++ [queueItem]);
       passes := passes w;
       timers := timers w;
       console := console w;
       inserts := inserts w |} in
  if negb (processing (mq w1)) then processQueue w1 else w1.

(** [clear()] *)
Definition clear (w : World) : World :=
  {| mq := with_queue (mq w) [];
     passes := passes w;
     timers := timers w;
     console := console w;
     inserts := inserts w |}.

(** [getStatus()] *)
Definition getStatus (w : World) : nat * bool * nat :=
  (List.length (queue (mq w)), processing (mq w), batchSize (mq w)).

(** The callback of [batch.map] resumes for [item] after the promise of its
    insert operation has settled: nothing more on success, the [catch] block
    on failure. *)
Definition settleItem (item : QueueItem) (w : World) : World :=
  match insertFunction item (data item) (retries item) with
  | Fulfilled => w
  | Rejected error =>
      if (retries item <? maxRetries (mq w))%nat then
        let item' :=
          {| data := data item;
             insertFunction := insertFunction item;
             retries := S (retries item);
             timestamp := timestamp item |} in
        {| mq := with_queue (mq w) (queue (mq w) ++ [item']);
           passes := passes w;
           timers := timers w;
           console := console w;
           inserts := inserts w |}
      else
        {| mq := mq w;
           passes := passes w;
           timers := timers w;
           console :=
             console w ++ [FailedAfterRetries (maxRetries (mq w)) (data item) error];
           inserts := inserts w |}
  end.

Fixpoint removeAt {A : Type} (i : nat) (l : list A) : list A :=
  match i, l with
  | _, [] => []
  | O, _ :: l' => l'
  | S i', x :: l' => x :: removeAt i' l'
  end.

Fixpoint replaceAt {A : Type} (i : nat) (x : A) (l : list A) : list A :=
  match i, l with
  | _, [] => []
  | O, _ :: l' => x :: l'
  | S i', y :: l' => y :: replaceAt i' x l'
  end.

Definition with_passes (w : World) (ps : list Continuation) : World :=
  {| mq := mq w;
     passes := ps;
     timers := timers w;
     console := console w;
     inserts := inserts w |}.

(** The invocation [p] continues after its [await] to its next suspension or
    to its end. *)
Definition resume (p : nat) (w : World) : option World :=
  match nth_error (passes w) p with
  | Some (AwaitAllSettled []) =>
      if (0 <? List.length (queue (mq w)))%nat
      then Some (with_passes w (replaceAt p AwaitDelay (passes w)))
      else
        let w0 := with_passes w (removeAt p (passes w)) in
        Some (addPass (loopHead w0))
  | Some (AwaitAllSettled (_ :: _)) => None
  | Some AwaitDelay =>
      let w0 := with_passes w (removeAt p (passes w)) in
      Some (addPass (loopHead w0))
  | None => None
  end.

(** The promise of the [i]-th pending item of the invocation [p] settles. *)
Definition settle (p i : nat) (w : World) : option World :=
  match nth_error (passes w) p with
  | Some (AwaitAllSettled pending) =>
      match nth_error pending i with
      | Some item =>
          let w0 :=
            with_passes w
              (replaceAt p (AwaitAllSettled (removeAt i pending)) (passes w)) in
          Some (settleItem item w0)
      | None => None
      end
  | _ => None
  end.

(** What can happen to the queue. *)
Inductive Event : Type :=
| Enqueue (movieData : Data) (f : InsertFunction) (now : nat)
| CallProcessQueue
| Clear
| TimerFires
| Settles (p i : nat)
| Resumes (p : nat).

Definition step (e : Event) (w : World) : option World :=
  match e with
  | Enqueue d f now => Some (enqueue d f now w)
  | CallProcessQueue => Some (processQueue w)
  | Clear => Some (clear w)
  | TimerFires =>
      match timers w with
      | O => None
      | S n =>
          Some (processQueue
                  {| mq := mq w;
                     passes := passes w;
                     timers := n;
                     console := console w;
                     inserts := inserts w |})
      end
  | Settles p i => settle p i w
  | Resumes p => resume p w
  end.

Fixpoint exec (tr : list Event) (w : World) : option World :=
  match tr with
  | [] => Some w
  | e :: tr' =>
      match step e w with
      | Some w' => exec tr' w'
      | None => None
      end
  end.

(** Events of the event loop, as opposed to calls from outside. *)
Definition internal (e : Event) : bool :=
  match e with
  | TimerFires | Settles _ _ | Resumes _ => true
  | _ => false
  end.

(** Nothing is left to run. *)
Definition quiescent (w : World) : bool :=
  match passes w, timers w with
  | [], O => true
  | _, _ => false
  end.

(** One schedule: promises settle in the order of the batch. *)
Definition nextEvent (w : World) : option Event :=
  match passes w with
  | AwaitAllSettled (_ :: _) :: _ => Some (Settles 0 0)
  | _ :: _ => Some (Resumes 0)
  | [] =>
      match timers w with
      | O => None
      | S _ => Some TimerFires
      end
  end.

(** Run the event loop under that schedule until nothing is left to run. *)
Fixpoint drain (fuel : nat) (w : World) : option World :=
  match nextEvent w with
  | None => Some w
  | Some e =>
      match fuel with
      | O => None
      | S fuel' =>
          match step e w with
          | Some w' => drain fuel' w'
          | None => None
          end
      end
  end.

(** *** Specification side *)

(** The payloads and insert operations enqueued along a trace. *)
Fixpoint enqueued (tr : list Event) : list (Data * InsertFunction) :=
  match tr with
  | [] => []
  | Enqueue d f _ :: tr' => (d, f) :: enqueued tr'
  | _ :: tr' => enqueued tr'
  end.

Definition alwaysSucceeds (d : Data) (f : InsertFunction) : Prop :=
  forall k, f d k = Fulfilled.

Definition alwaysFails (d : Data) (f : InsertFunction) : Prop :=
  forall k, f d k <> Fulfilled.

(** The attempts of one item from [retries = k] on, with [budget] retries
    left: it is tried, and tried again after a failure while the budget
    lasts. *)
Fixpoint attemptsFrom (d : Data) (f : InsertFunction) (budget k : nat)
    : list (Data * nat) :=
  (d, k) ::
  match f d k, budget with
  | Rejected _, S budget' => attemptsFrom d f budget' (S k)
  | _, _ => []
  end.

(** The terminal failure of one item, if any. *)
Fixpoint failureFrom (n : nat) (d : Data) (f : InsertFunction) (budget k : nat)
    : list LogEntry :=
  match f d k, budget with
  | Fulfilled, _ => []
  | Rejected _, S budget' => failureFrom n d f budget' (S k)
  | Rejected error, O => [FailedAfterRetries n d error]
  end.

(** The error of a rejected promise. *)
Definition errorOf (o : Outcome) : Error :=
  match o with
  | Rejected error => error
  | Fulfilled => EmptyString
  end.

(** The initial attempt followed by [n] retries. *)
Definition initialPlusRetries (d : Data) (n : nat) : list (Data * nat) :=
  map (fun k => (d, k)) (seq 0 (S n)).

(** Work left, an upper bound of the number of internal events to come. *)
Definition itemWeight (mr : nat) (item : QueueItem) : nat :=
  3 * S (mr - retries item).

Definition pendingWeight (mr : nat) (item : QueueItem) : nat :=
  1 + 3 * (mr - retries item).

Definition sumOf {A : Type} (f : A -> nat) (l : list A) : nat :=
  fold_right (fun x acc => f x + acc) 0%nat l.

Definition passWeight (mr : nat) (c : Continuation) : nat :=
  match c with
  | AwaitAllSettled pending => 2 + sumOf (pendingWeight mr) pending
  | AwaitDelay => 1
  end.

Definition workLeft (w : World) : nat :=
  sumOf (itemWeight (maxRetries (mq w))) (queue (mq w))
  + sumOf (passWeight (maxRetries (mq w))) (passes w)
  + timers w.

(** The items of the batch an invocation waits for. *)
Definition pendingOf (c : Continuation) : list QueueItem :=
  match c with
  | AwaitAllSettled pending => pending
  | AwaitDelay => []
  end.

(** The items whose insert operation was called and has not settled. *)
Definition inFlight (w : World) : list QueueItem :=
  flat_map pendingOf (passes w).

(** The attempts still to come for an item of the queue. *)
Definition attemptsLeft (mr : nat) (item : QueueItem) : list (Data * nat) :=
  attemptsFrom (data item) (insertFunction item) (mr - retries item) (retries item).

(** The attempts still to come for an item in flight: those after the one
    being made. *)
Definition attemptsAfter (mr : nat) (item : QueueItem) : list (Data * nat) :=
  tl (attemptsLeft mr item).

(** The terminal failure still to come for an item, queued or in flight. *)
Definition failureLeft (mr : nat) (item : QueueItem) : list LogEntry :=
  failureFrom mr (data item) (insertFunction item) (mr - retries item) (retries item).

(** All the calls of insert operations a list of enqueued items leads to, and
    all the terminal failures. *)
Definition expectedInserts (mr : nat) (items : list (Data * InsertFunction))
    : list (Data * nat) :=
  flat_map (fun x => attemptsFrom (fst x) (snd x) mr 0) items.

Definition expectedFailures (mr : nat) (items : list (Data * InsertFunction))
    : list LogEntry :=
  flat_map (fun x => failureFrom mr (fst x) (snd x) mr 0) items.

(** The calls of insert operations made so far together with those still to
    come, and the same for the terminal failures. *)
Definition insertsTotal (w : World) : list (Data * nat) :=
  inserts w
  ++ flat_map (attemptsLeft (maxRetries (mq w))) (queue (mq w))
  ++ flat_map (attemptsAfter (maxRetries (mq w))) (inFlight w).

Definition failuresTotal (w : World) : list LogEntry :=
  console w
  ++ flat_map (failureLeft (maxRetries (mq w))) (queue (mq w) ++ inFlight w).

(** At most one invocation of [processQueue] is under way, and the flag says
    whether one is. *)
Definition singlePass (w : World) : Prop :=
  match passes w with
  | [] => processing (mq w) = false
  | [_] => processing (mq w) = true
  | _ :: _ :: _ => False
  end.

(** When no invocation is under way the queue is empty and no timer is
    armed. *)
Definition idle (w : World) : Prop :=
  singlePass w
  /\ (processing (mq w) = false -> queue (mq w) = [])
  /\ timers w = 0.

(** The steps of the queue from a world that satisfies [idle], case by case.
    [pushed] is the world after [this.queue.push(queueItem)], [dispatched]
    after a batch was spliced off and its insert operations were called,
    [finished] after the [finally] block with an empty queue. *)
Definition pushed (item : QueueItem) (w : World) : World :=
  {| mq := with_queue (mq w) (queue (mq w) ++ [item]);
     passes := passes w;
     timers := timers w;
     console := console w;
     inserts := inserts w |}.

Definition flagged (b : bool) (w : World) : World :=
  {| mq := with_processing (mq w) b;
     passes := passes w;
     timers := timers w;
     console := console w;
     inserts := inserts w |}.

Definition dispatched (w : World) : World :=
  {| mq := with_queue (mq w) (skipn (batchSize (mq w)) (queue (mq w)));
     passes := passes w
               ++ [AwaitAllSettled (firstn (batchSize (mq w)) (queue (mq w)))];
     timers := timers w;
     console := console w;
     inserts := inserts w
                ++ map (fun item => (data item, retries item))
                       (firstn (batchSize (mq w)) (queue (mq w))) |}.

Inductive Transition : World -> Event -> World -> Prop :=
| EnqueueStarts (w : World) (d : Data) (f : InsertFunction) (now : nat) :
    passes w = [] -> processing (mq w) = false -> queue (mq w) = [] ->
    Transition w (Enqueue d f now)
      (dispatched (flagged true (pushed (mkItem d f 0 now) w)))
| EnqueueWhileBusy (w : World) (d : Data) (f : InsertFunction) (now : nat) :
    processing (mq w) = true ->
    Transition w (Enqueue d f now) (pushed (mkItem d f 0 now) w)
| CallIgnored (w : World) :
    Transition w CallProcessQueue w
| Cleared (w : World) :
    Transition w Clear (clear w)
| PromiseSettles (w : World) (pending : list QueueItem) (i : nat) (item : QueueItem) :
    passes w = [AwaitAllSettled pending] ->
    nth_error pending i = Some item ->
    Transition w (Settles 0 i)
      (settleItem item (with_passes w [AwaitAllSettled (removeAt i pending)]))
| BatchDoneDelay (w : World) :
    passes w = [AwaitAllSettled []] -> queue (mq w) <> [] ->
    Transition w (Resumes 0) (with_passes w [AwaitDelay])
| NextBatch (w : World) :
    passes w = [AwaitDelay] -> queue (mq w) <> [] ->
    Transition w (Resumes 0) (dispatched (with_passes w []))
| PassEnds (w : World) (c : Continuation) :
    passes w = [c] -> pendingOf c = [] -> queue (mq w) = [] ->
    Transition w (Resumes 0) (flagged false (with_passes w [])).

Definition isClear (e : Event) : bool :=
  match e with
  | Clear => true
  | _ => false
  end.

(** A trace in which [clear()] is never called: calls of [enqueue] and of
    [processQueue] and events of the event loop. *)
Definition withoutClear (tr : list Event) : Prop :=
  Forall (fun e => isClear e = false) tr.

End WithData.

(** Two insert operations on numbered payloads: one whose promise is always
    fulfilled, one whose promise is always rejected. *)
Definition accepts : InsertFunction nat := fun _ _ => Fulfilled.
Definition refuses : InsertFunction nat := fun _ _ => Rejected "timeout"%string.

End Queue.

(* ===================================================================== *)
(** ** controller/movieController.js : trackInteraction *)
(* ===================================================================== *)

Module Controller.

Local Open Scope string_scope.

(** The [enum] of [interactionType] in model/UserInteraction.js. *)
Definition schemaInteractionTypes : list string :=
  ["view"; "like"; "share"; "search"; "click"].

(** A value of the request body, as [express.json()] parsed it. *)
#[local] Unset Elimination Schemes.
Inductive JsonValue : Type :=
| JNull
| JBool (b : bool)
| JNumber (q : Q)
| JString (s : string)
| JArray (items : list JsonValue)
| JObject (fields : list (string * JsonValue)).
#[local] Set Elimination Schemes.

(** The part of the request the handler reads.  [body_interactionType] is
    [None] when the body has no string under that name, [body_metadata] is
    [None] when it has nothing under [metadata]; [params_id] is any string of
    the path, an ObjectId or not. *)
Record Request : Type := mkRequest {
  params_id : string;
  body_interactionType : option string;
  body_metadata : option JsonValue;
  user_id : ObjectId
}.

(** The own enumerable properties of a value, which the spread
    [{ ...metadata }] copies: the fields of an object, the elements of an
    array and the characters of a string (an ASCII string, as everywhere in
    this development) under their indices, nothing for the other values. *)
Fixpoint indexed {A : Type} (i : nat) (l : list A) : list (string * A) :=
  match l with
  | [] => []
  | x :: l' => (NilZero.string_of_uint (Nat.to_uint i), x) :: indexed (S i) l'
  end.

Definition spread (v : option JsonValue) : list (string * JsonValue) :=
  match v with
  | Some (JObject fields) => fields
  | Some (JArray items) => indexed 0 items
  | Some (JString s) =>
      indexed 0 (map (fun c => JString (String c EmptyString)) (list_ascii_of_string s))
  | _ => []
  end.

(** The argument of [UserInteraction.create]:
    [{ userId, movieId, interactionType, metadata: { ...metadata, timestamp } }].
    [doc_metadata] holds the properties spread from the request other than
    [timestamp], which the literal sets last. *)
Record InteractionDoc : Type := mkDoc {
  doc_userId : ObjectId;
  doc_movieId : string;
  doc_interactionType : string;
  doc_metadata : list (string * JsonValue);
  doc_timestamp : Date
}.

(** The [$addToSet] updates of the user document. *)
Inductive UserUpdate : Type :=
| LikeUpdate (likedMovie : string) (genres : list string) (dir : string)
    (** of [trackInteraction]: [likedMovies], [preferredGenres] with
        [$each], [preferredDirectors] *)
| ViewUpdate (movieId : ObjectId) (viewedAt : Date) (genres : list string)
    (dir : string).
    (** of [getMovieById]: [viewedMovies], [preferredGenres] with [$each],
        [preferredDirectors] *)

(** The calls of store operations, in the order they are made. *)
Inductive StoreAccess : Type :=
| MovieFindById (id : string)
| UserInteractionCreate (doc : InteractionDoc)
| UserFindByIdAndUpdate (uid : ObjectId) (update : UserUpdate).

(** How the promise of a store operation settles.  Mongoose and the
    database are not the program's: an operation may reject (a CastError for
    an id that is no ObjectId, a ValidationError for a document the schema
    does not take, a lost connection). *)
Definition StoreError : Type := string.

Inductive Settled (A : Type) : Type :=
| Resolves (value : A)
| Rejects (error : StoreError).

Arguments Resolves {A} value.
Arguments Rejects {A} error.

(** The store as the handlers meet it in one request: how each operation
    they call settles.  [Stored] is the document a creation resolves with. *)
Record Store (Stored : Type) : Type := mkStore {
  Movie_findById : string -> Settled (option Movie);
  UserInteraction_create : InteractionDoc -> Settled Stored;
  User_findByIdAndUpdate : ObjectId -> UserUpdate -> Settled unit
}.

Arguments mkStore {Stored} _ _ _.
Arguments Movie_findById {Stored} _ _.
Arguments UserInteraction_create {Stored} _ _.
Arguments User_findByIdAndUpdate {Stored} _ _ _.

(** How a handler ends.  utils/errorHandler.js is not among the sources:
    [ApiError] is the error its call sites build with a status code and a
    message and throw, and [asyncHandler] passes a rejection on as it is. *)
Inductive Result (Data : Type) : Type :=
| ApiError (statusCode : nat) (message : string)
| StoreRejection (error : StoreError)
| Json (status : nat) (data : Data).

Arguments ApiError {Data} statusCode message.
Arguments StoreRejection {Data} error.
Arguments Json {Data} status data.

(** [Array.prototype.includes] on an array of strings. *)
Definition includes (l : list string) (x : option string) : bool :=
  match x with
  | Some s => existsb (String.eqb s) l
  | None => false
  end.

Definition validTypes : list string := ["view"; "like"; "share"; "click"].

(** [throw new ApiError(400, ...)] of the type check; nothing was read or
    written yet. *)
Definition invalidInteractionType {Data : Type} : Result Data * list StoreAccess :=
  (ApiError 400
     ("Invalid interaction type. Allowed: " ++ String.concat ", " validTypes),
   []).

Definition trackInteraction {Stored : Type}
    (store : Store Stored) (now : Date) (req : Request)
    : Result Stored * list StoreAccess :=
  let id := params_id req in
  match body_interactionType req with
  | None => invalidInteractionType
  | Some t =>
      if negb (includes validTypes (Some t)) then invalidInteractionType
      else
        match Movie_findById store id with
        | Rejects error => (StoreRejection error, [MovieFindById id])
        | Resolves None => (ApiError 404 "Movie not found", [MovieFindById id])
        | Resolves (Some movie) =>
            let doc :=
              {| doc_userId := user_id req;
                 doc_movieId := id;
                 doc_interactionType := t;
                 doc_metadata :=
                   filter (fun p => negb (String.eqb (fst p) "timestamp"))
                          (spread (body_metadata req));
                 doc_timestamp := now |} in
            let accesses := [MovieFindById id; UserInteractionCreate doc] in
            match UserInteraction_create store doc with
            | Rejects error => (StoreRejection error, accesses)
            | Resolves interaction =>
                if String.eqb t "like" then
                  let update := LikeUpdate id (genre movie) (director movie) in
                  let accesses :=
                    (accesses ++ [UserFindByIdAndUpdate (user_id req) update])%list in
                  match User_findByIdAndUpdate store (user_id req) update with
                  | Rejects error => (StoreRejection error, accesses)
                  | Resolves _ => (Json 201 interaction, accesses)
                  end
                else (Json 201 interaction, accesses)
            end
        end
  end.

(** *** Specification side *)

(** The validation error of the handler. *)
Definition rejectedBeforeStore {Data : Type} (r : Result Data * list StoreAccess)
    : Prop :=
  (exists msg, fst r = ApiError 400 msg) /\ snd r = [].

(** The handler proceeds to create the record: it is past the type check,
    looks the movie up, and for a movie found it calls the creation of the
    record with the type of the request. *)
Definition proceedsToCreate {Stored : Type}
    (store : Store Stored) (req : Request)
    (r : Result Stored * list StoreAccess) : Prop :=
  ~ rejectedBeforeStore r
  /\ (exists rest, snd r = MovieFindById (params_id req) :: rest)
  /\ forall m, Movie_findById store (params_id req) = Resolves (Some m) ->
       exists doc, In (UserInteractionCreate doc) (snd r)
                   /\ body_interactionType req = Some (doc_interactionType doc).

(** The handler accepts exactly the interaction types of [types]. *)
Definition acceptsExactly (types : list string) : Prop :=
  forall (Stored : Type) (store : Store Stored) (now : Date) (req : Request),
    (forall t, body_interactionType req = Some t -> In t types ->
               proceedsToCreate store req (trackInteraction store now req))
    /\
    ((forall t, body_interactionType req = Some t -> ~ In t types) ->
     rejectedBeforeStore (trackInteraction store now req)).

(** A store for the examples: it holds the movies of [catalog] under their
    ids, and every write succeeds in it. *)
Definition catalogStore (catalog : list Movie) : Store InteractionDoc :=
  {| Movie_findById :=
       fun id => Resolves (find (fun m => String.eqb (_id m) id) catalog);
     UserInteraction_create := fun doc => Resolves doc;
     User_findByIdAndUpdate := fun _ _ => Resolves tt |}.

End Controller.

(* ===================================================================== *)
(** ** Reading the scoring engine: specification side *)
(* ===================================================================== *)

Module EngineSpec.
Import JS Engine.

(** The year of [calculateRecency]: 365 days. *)
Definition msPerYear : Z := (365 * msPerDay)%Z.

(** The recency weight by the age of the release in milliseconds. *)
Definition recencyByAge (age : Z) : Q :=
  if (age <=? 5 * msPerYear)%Z then 1
  else if (age <=? 10 * msPerYear)%Z then 0.7
  else if (age <=? 20 * msPerYear)%Z then 0.5
  else 0.3.

(** The user has viewed the movie [id]. *)
Definition hasViewed (u : UserInteractions) (id : ObjectId) : Prop :=
  exists vs, viewedMovies u = Some vs /\ In id (map viewedMovieId vs).

(** Two preference lists are the same, letter case aside. *)
Definition sameLowered (a b : option (list string)) : Prop :=
  option_map (map toLowerCase) a = option_map (map toLowerCase) b.

(** The timestamp of an interaction, if it has one. *)
Definition interactionTime (i : Interaction) : option Date :=
  match metadata i with
  | Some md => timestamp md
  | None => None
  end.

(** The interaction is on the movie and its timestamp is not before
    [since]. *)
Definition countsFor (since : Date) (m : Movie) (i : Interaction) : Prop :=
  movieId i = _id m
  /\ exists t, interactionTime i = Some t /\ (since <= t)%Z.

(** The calendar of a time zone without changes of the clock (UTC): seven
    days are 168 hours. *)
Definition noClockChange : Calendar :=
  {| sevenDaysAgo := fun now => (now - 7 * msPerDay)%Z |}.

End EngineSpec.

(* ===================================================================== *)
(** ** controller/movieController.js : createMoviesBatch *)
(* ===================================================================== *)

Module Batch.
Import Queue.

Local Open Scope nat_scope.
#[local] Set Implicit Arguments.
#[local] Set Contextual Implicit.

Section WithData.

(** A movie of the request body. *)
Variable Data : Type.

(** [{ ...movieData, createdBy: req.user.id }] *)
Definition Payload : Type := (Data * ObjectId)%type.

Inductive Response : Type :=
| ApiError (statusCode : nat) (message : string)
| Accepted (status : nat) (count : nat) (queueStatus : nat * bool * nat).
    (** [res.status(202).json(...)]: [count] is the [movies.length] of the
        message *)

(** [movies.forEach(movieData => movieQueue.enqueue(...))] *)
Definition enqueueAll
    (movies : list Data) (createdBy : ObjectId) (create : InsertFunction Payload)
    (now : nat) (w : World Payload) : World Payload :=
  fold_left (fun w movieData => enqueue (movieData, createdBy) create now w) movies w.

(** The handler on the shared queue.  [movies] is [None] when the body has
    no array under that name; [create] is how [Movie.create(data)] settles. *)
Definition createMoviesBatch
    (movies : option (list Data)) (createdBy : ObjectId)
    (create : InsertFunction Payload) (now : nat) (w : World Payload)
    : Response * World Payload :=
  match movies with
  | None | Some [] => (ApiError 400 "Please provide an array of movies", w)
  | Some ms =>
      let w' := enqueueAll ms createdBy create now w in
      (Accepted 202 (List.length ms) (getStatus w'), w')
  end.

(** The calls of [enqueue] the handler makes. *)
Definition enqueueEvents
    (movies : list Data) (createdBy : ObjectId) (create : InsertFunction Payload)
    (now : nat) : list (Event Payload) :=
  map (fun movieData => Enqueue (movieData, createdBy) create now) movies.

End WithData.

End Batch.

(* ===================================================================== *)
(** ** Reading the queue: specification side *)
(* ===================================================================== *)

Module QueueSpec.
Import Queue.

Local Open Scope nat_scope.

(** The insert operation fails for [d] on the first [j] attempts and
    succeeds on the next. *)
Definition succeedsAfter {Data : Type}
    (d : Data) (f : InsertFunction Data) (j : nat) : Prop :=
  (forall k, k < j -> f d k <> Fulfilled) /\ f d j = Fulfilled.

(** An insert operation that fails twice and then succeeds. *)
Definition flaky : InsertFunction nat :=
  fun _ k => if k <? 2 then Rejected "busy"%string else Fulfilled.

(** The payloads of the first attempts among the calls of insert
    operations, in the order of the calls. *)
Definition firstAttempts {Data : Type} (calls : list (Data * nat)) : list Data :=
  map fst (filter (fun x => snd x =? 0) calls).

(** The payloads of the items of the queue that were not tried yet. *)
Definition untried {Data : Type} (q : list (QueueItem Data)) : list Data :=
  map (fun item => data item) (filter (fun item => retries item =? 0) q).

(** The payloads tried so far followed by those not tried yet. *)
Definition inOrder {Data : Type} (w : World Data) : list Data :=
  firstAttempts (inserts w) ++ untried (queue (mq w)).

End QueueSpec.

(* ===================================================================== *)
(** ** controller/movieController.js : getMovieById, and what the handlers
       write to the interaction history of the user *)
(* ===================================================================== *)

Module Preferences.
Import JS Engine Controller.

Local Open Scope string_scope.

(** [getMovieById]: the response and the calls of store operations.  [user]
    is the id of [req.user], which [optionalAuth] sets or leaves unset.  The
    handler reads the clock twice: for the timestamp of the view record
    ([now]) and, after the record is created, for [viewedAt]. *)
Definition getMovieById {Stored : Type}
    (store : Store Stored) (now viewedAt : Date) (id : string)
    (user : option ObjectId)
    : Result Movie * list StoreAccess :=
  match Movie_findById store id with
  | Rejects error => (StoreRejection error, [MovieFindById id])
  | Resolves None => (ApiError 404 "Movie not found", [MovieFindById id])
  | Resolves (Some movie) =>
      match user with
      | Some uid =>
          let doc :=
            {| doc_userId := uid;
               doc_movieId := _id movie;
               doc_interactionType := "view";
               doc_metadata := [];
               doc_timestamp := now |} in
          let accesses := [MovieFindById id; UserInteractionCreate doc] in
          match UserInteraction_create store doc with
          | Rejects error => (StoreRejection error, accesses)
          | Resolves _ =>
              let update :=
                ViewUpdate (_id movie) viewedAt (genre movie) (director movie) in
              let accesses := (accesses ++ [UserFindByIdAndUpdate uid update])%list in
              match User_findByIdAndUpdate store uid update with
              | Rejects error => (StoreRejection error, accesses)
              | Resolves _ => (Json 200 movie, accesses)
              end
          end
      | None => (Json 200 movie, [MovieFindById id])
      end
  end.

(** *** What the updates do to the interaction history *)

(** MongoDB's [$addToSet] on an array of strings: the value is appended
    unless the array holds it already. *)
Definition addToSet (l : list string) (x : string) : list string :=
  if existsb (String.eqb x) l then l else (l ++ [x])%list.

(** [$addToSet] with [$each]. *)
Definition addEachToSet (l xs : list string) : list string :=
  fold_left addToSet xs l.

(** An array field of the user document; [$addToSet] creates a missing one. *)
Definition arrayOf {A : Type} (o : option (list A)) : list A :=
  match o with
  | Some l => l
  | None => []
  end.

Definition addPreferences
    (genres : list string) (dir : string) (u : UserInteractions)
    (viewed : option (list ViewedMovie)) : UserInteractions :=
  {| preferredGenres := Some (addEachToSet (arrayOf (preferredGenres u)) genres);
     preferredDirectors := Some (addToSet (arrayOf (preferredDirectors u)) dir);
     viewedMovies := viewed |}.

(** The interaction history, as far as the scoring engine reads it, after an
    update that the store has carried out.  The entries of [viewedMovies]
    are subdocuments with an [_id] of their own, so [$addToSet] always
    appends the new one; [likedMovies] is not read by the engine. *)
Definition applyUpdate (upd : UserUpdate) (u : UserInteractions) : UserInteractions :=
  match upd with
  | ViewUpdate id viewedAt genres dir =>
      addPreferences genres dir u
        (Some (arrayOf (viewedMovies u) ++ [mkViewed id viewedAt])%list)
  | LikeUpdate _ genres dir =>
      addPreferences genres dir u (viewedMovies u)
  end.

(** The interaction history of the user [uid] after the store accesses of a
    handler that has come to its end. *)
Definition applyAccess (uid : ObjectId) (u : UserInteractions) (a : StoreAccess)
    : UserInteractions :=
  match a with
  | UserFindByIdAndUpdate uid' upd =>
      if String.eqb uid' uid then applyUpdate upd u else u
  | _ => u
  end.

Definition applyAccesses (uid : ObjectId) (l : list StoreAccess) (u : UserInteractions)
    : UserInteractions :=
  fold_left (applyAccess uid) l u.

(** *** Specification side *)

(** No genre of [genres] is, letter case aside, one of [others]. *)
Definition noCommonGenre (genres others : list string) : Prop :=
  forall g, In g genres -> ~ In (toLowerCase g) (map toLowerCase others).

End Preferences.

(* ===================================================================== *)
(** ** route/movieRoutes.js : the route table *)
(* ===================================================================== *)

Module Routes.
Import JS.

Local Open Scope string_scope.

Inductive Method : Type := GET | POST | PUT | DELETE.

(** A segment of a route path: a literal or a parameter [:name]. *)
Inductive Segment : Type :=
| Lit (s : string)
| Param (name : string).

(** The middlewares and the handlers the routes name. *)
Inductive Handler : Type :=
| optionalAuth
| protect
| authorize (roles : list string)
| getMovies
| getMovieFeed
| getTrending
| getSortedMovies
| searchMovies
| getMovieById
| createMovie
| createMoviesBatch
| updateMovie
| deleteMovie
| trackInteraction.

Record Route : Type := mkRoute {
  method : Method;
  path : list Segment;
  handlers : list Handler
}.

(** The calls of [router.get], [router.post], [router.put] and
    [router.delete], in the order they are made. *)
Definition movieRoutes : list Route :=
  [ mkRoute GET [] [getMovies];
    mkRoute GET [Lit "trending"] [getTrending];
    mkRoute GET [Lit "sorted"] [getSortedMovies];
    mkRoute GET [Lit "search"] [optionalAuth; searchMovies];
    mkRoute GET [Param "id"] [optionalAuth; getMovieById];
    mkRoute GET [Lit "feed"] [protect; getMovieFeed];
    mkRoute POST [Param "id"; Lit "interaction"] [protect; trackInteraction];
    mkRoute POST [] [protect; authorize ["admin"]; createMovie];
    mkRoute POST [Lit "batch"] [protect; authorize ["admin"]; createMoviesBatch];
    mkRoute PUT [Param "id"] [protect; authorize ["admin"]; updateMovie];
    mkRoute DELETE [Param "id"] [protect; authorize ["admin"]; deleteMovie] ].

Definition method_eqb (a b : Method) : bool :=
  match a, b with
  | GET, GET | POST, POST | PUT, PUT | DELETE, DELETE => true
  | _, _ => false
  end.

(** Express matches a route path against the whole request path, segment by
    segment: a literal without regard to letter case, a parameter against
    any non-empty segment.  The request path is given by its segments, the
    mount point [/api/movies] and a trailing slash taken off. *)
Definition matchSegment (p : Segment) (seg : string) : bool :=
  match p with
  | Lit s => String.eqb (toLowerCase seg) (toLowerCase s)
  | Param _ => negb (String.eqb seg "")
  end.

Fixpoint matchPath (p : list Segment) (segs : list string) : bool :=
  match p, segs with
  | [], [] => true
  | x :: p', seg :: segs' => matchSegment x seg && matchPath p' segs'
  | _, _ => false
  end.

(** The router runs the first route, in the order of registration, whose
    method and path match; none of the handlers passes a request on to a
    later route. *)
Definition dispatch (m : Method) (segs : list string) : option Route :=
  find (fun r => method_eqb (method r) m && matchPath (path r) segs) movieRoutes.

End Routes.

(* ===================================================================== *)
(** ** middleware/auth.js : protect, authorize, optionalAuth *)
(* ===================================================================== *)

Module Auth.

Local Open Scope string_scope.

(** [String.prototype.split] with a separator of one character. *)
Fixpoint split (sep : ascii) (s : string) : list string :=
  match s with
  | EmptyString => [EmptyString]
  | String c s' =>
      if Ascii.eqb c sep then EmptyString :: split sep s'
      else
        match split sep s' with
        | cur :: rest => String c cur :: rest
        | [] => [String c EmptyString]
        end
  end.

(** The token of the header [authorization], when the header starts with
    [Bearer]: the second of the parts separated by spaces.  [None] is the
    falsy [token]: no header, another scheme, no second part or an empty one. *)
Definition bearerToken (authorization : option string) : option string :=
  match authorization with
  | Some header =>
      if String.prefix "Bearer" header then
        match nth_error (split " "%char header) 1 with
        | Some EmptyString => None
        | Some token => Some token
        | None => None
        end
      else None
  | None => None
  end.

Record User : Type := mkUser {
  id : ObjectId;
  role : string
}.

(** How a middleware ends: with [next(new ApiError(...))] or with [next()],
    after it has set [req.user]. *)
Inductive Outcome : Type :=
| Fails (statusCode : nat) (message : string)
| Next (user : option User).

Section WithStore.

(** [jwt.verify(token, process.env.JWT_SECRET)] and the [id] of what it
    decodes; [None] when it throws. *)
Variable verify : string -> option ObjectId.

(** [User.findById(id).select("-password")] *)
Variable findById : ObjectId -> option User.

Definition protect (authorization : option string) : Outcome :=
  match bearerToken authorization with
  | None => Fails 401 "Not authorized to access this route"
  | Some token =>
      match verify token with
      | Some uid =>
          match findById uid with
          | Some user => Next (Some user)
          | None => Fails 401 "User not found"
          end
      | None => Fails 401 "Not authorized to access this route"
      end
  end.

Definition optionalAuth (authorization : option string) : Outcome :=
  match bearerToken authorization with
  | Some token =>
      match verify token with
      | Some uid => Next (findById uid)
      | None => Next None
      end
  | None => Next None
  end.

End WithStore.

(** [authorize(...roles)], after [protect] has set [req.user]. *)
Definition authorize (roles : list string) (user : User) : Outcome :=
  if existsb (String.eqb (role user)) roles then Next (Some user)
  else Fails 403 ("User role '" ++ role user
                  ++ "' is not authorized to access this route").

(** The chain [protect, authorize("admin")] of the admin routes. *)
Definition adminOnly
    (verify : string -> option ObjectId) (findById : ObjectId -> option User)
    (authorization : option string) : Outcome :=
  match protect verify findById authorization with
  | Next (Some user) => authorize ["admin"] user
  | other => other
  end.

(** *** Specification side *)

(** No space in the string. *)
Fixpoint noSpace (s : string) : bool :=
  match s with
  | EmptyString => true
  | String c s' => negb (Ascii.eqb c " "%char) && noSpace s'
  end.

End Auth.

(* ===================================================================== *)
(** ** middleware/cors.js : the origin check *)
(* ===================================================================== *)

Module Cors.

Local Open Scope string_scope.

(** The literal entries of [allowedOrigins]. *)
Definition localOrigins : list string :=
  [ "http://localhost:3000"; "http://localhost:3001";
    "http://localhost:5173"; "http://localhost:5174";
    "http://127.0.0.1:3000"; "http://127.0.0.1:3001";
    "http://127.0.0.1:5173"; "http://127.0.0.1:5174" ].

(** A string that is set and not empty. *)
Definition truthy (s : option string) : bool :=
  match s with
  | Some EmptyString | None => false
  | Some _ => true
  end.

(** [allowedOrigins.indexOf(origin) !== -1] for a string [origin]. *)
Definition listed (frontendUrl : option string) (origin : string) : bool :=
  match frontendUrl with
  | Some url => String.eqb url origin
  | None => false
  end
  || existsb (String.eqb origin) localOrigins.

(** [corsOptions.origin]: [true] for [callback(null, true)], [false] for
    [callback(new Error("Not allowed by CORS"))].  [frontendUrl] is
    [process.env.FRONTEND_URL]. *)
Definition origin (frontendUrl : option string) (origin : option string) : bool :=
  if negb (truthy origin) then true
  else
    match origin with
    | Some o => listed frontendUrl o || negb (truthy frontendUrl)
    | None => true
    end.

End Cors.

(* ===================================================================== *)
(** ** controller/movieController.js : getMovieFeed, getTrending *)
(* ===================================================================== *)

Module FeedHandlers.
Import JS Engine Feed.

(** [parseInt(req.query.limit) || d]; [parsed] is the result of [parseInt],
    [None] for [NaN]. *)
Definition orDefault (parsed : option Z) (d : Z) : Z :=
  match parsed with
  | None | Some 0%Z => d
  | Some n => n
  end.

(** [UserInteraction.find({ "metadata.timestamp": { $gte: since } })] *)
Definition findSince (store : list Interaction) (since : Date) : list Interaction :=
  filter (timestampSince since) store.

(** The value the handler takes for a user document without
    [interactionHistory]. *)
Definition emptyHistory : UserInteractions :=
  {| preferredGenres := Some []; preferredDirectors := Some [];
     viewedMovies := Some [] |}.

Section Handlers.

Context {num : Type} `{Arith num} {calendar : Calendar}.

(** The handlers read the clock for the store query ([queryTime]); the
    scoring reads it again later ([now]).  [catalog] is [Movie.find()],
    [store] the collection of interaction records. *)
Definition getMovieFeed
    (queryTime now : Date) (catalog : list Movie) (store : list Interaction)
    (interactionHistory : option UserInteractions) (queryLimit : option Z)
    : nat * list Movie :=
  let limit := orDefault queryLimit 20 in
  let userInteractions :=
    match interactionHistory with
    | Some h => h
    | None => emptyHistory
    end in
  let allInteractions := findSince store (queryTime - 30 * 24 * 60 * 60 * 1000)%Z in
  let personalizedMovies :=
    getPersonalizedFeed now catalog userInteractions allInteractions (Some limit) in
  (List.length personalizedMovies, personalizedMovies).

Definition getTrending
    (queryTime now : Date) (catalog : list Movie) (store : list Interaction)
    (queryLimit : option Z) : nat * list Movie :=
  let limit := orDefault queryLimit 20 in
  let allInteractions := findSince store (queryTime - 7 * 24 * 60 * 60 * 1000)%Z in
  let trendingMovies := getTrendingMovies now catalog allInteractions (Some limit) in
  (List.length trendingMovies, trendingMovies).

End Handlers.

End FeedHandlers.

(* ===================================================================== *)
(** * Properties of the scoring engine *)
(* ===================================================================== *)

Module EngineProofs.
Import JS Engine.

(** Read the literals and the conversions of the code as exact numbers. *)
Ltac exact_values := cbn [lit ofNat ofZ exact] in *.

(** Evaluate sums and products of exact finite numbers. *)
Ltac exact_sums := cbn [add mul exact Exact.add Exact.mul] in *.

Section AnyCalendar.

Context {calendar : Calendar}.

Lemma eqn_refl (a : number) : a =n a.
Proof. destruct a; simpl; auto with qarith. Qed.

Lemma add_NaN_l (b : number) : add NaN b = NaN.
Proof. destruct b; reflexivity. Qed.

Lemma min_NaN_l (b : number) : min NaN b = NaN.
Proof. destruct b; reflexivity. Qed.

Lemma div_pos (p q : Q) : 0 < q -> div (Fin p) (Fin q) = Fin (p / q).
Proof.
  intros Hq. cbn [div exact]. unfold Exact.div, Exact.sgn.
  rewrite Qlt_alt in Hq.
  destruct (q ?= 0) eqn:E; try reflexivity.
  rewrite <- Qeq_alt in E. rewrite E in Hq. discriminate.
Qed.

Lemma min_Fin_le (p q : Q) : p <= q -> min (Fin p) (Fin q) = Fin p.
Proof.
  intros H. simpl. rewrite <- Qle_bool_iff in H. now rewrite H.
Qed.

Lemma min_Fin_cases (p q : Q) :
  (p <= q /\ min (Fin p) (Fin q) = Fin p) \/ (q < p /\ min (Fin p) (Fin q) = Fin q).
Proof.
  simpl. destruct (Qle_bool p q) eqn:E.
  - left. split; [now apply Qle_bool_iff | reflexivity].
  - right. split; [| reflexivity].
    apply Qnot_le_lt. intros H. apply Qle_bool_iff in H. congruence.
Qed.

Lemma inject_nat_nonneg (n : nat) : 0 <= inject_Z (Z.of_nat n).
Proof. change 0 with (inject_Z 0). rewrite <- Zle_Qle. lia. Qed.

Lemma inject_nat_pos (n : nat) : (0 < n)%nat -> 0 < inject_Z (Z.of_nat n).
Proof. intros H. change 0 with (inject_Z 0). rewrite <- Zlt_Qlt. lia. Qed.

Lemma inject_nat_le (k n : nat) :
  (k <= n)%nat -> inject_Z (Z.of_nat k) <= inject_Z (Z.of_nat n).
Proof. intros H. rewrite <- Zle_Qle. lia. Qed.

(** The code's test of a genre against the preferences is membership of the
    lower-cased genre in the lower-cased preferences. *)
Lemma existsb_lower_In (prefs : list string) (g : string) :
  existsb (fun pref => String.eqb (toLowerCase pref) (toLowerCase g)) prefs = true
  <-> In (toLowerCase g) (map toLowerCase prefs).
Proof.
  rewrite existsb_exists, in_map_iff. split.
  - intros [p [Hin He]]. apply String.eqb_eq in He. eauto.
  - intros [p [He Hin]]. exists p. split; [assumption |]. now apply String.eqb_eq.
Qed.

Lemma matching_length_matchCount (prefs genres : list string) :
  List.length
    (filter (fun g =>
               existsb (fun pref => String.eqb (toLowerCase pref) (toLowerCase g)) prefs)
            genres)
  = matchCount prefs genres.
Proof.
  induction genres as [| g genres IH]; simpl; [reflexivity |].
  destruct (in_dec string_dec (toLowerCase g) (map toLowerCase prefs)) as [Hin | Hnin].
  - apply existsb_lower_In in Hin. rewrite Hin. simpl. now rewrite IH.
  - destruct (existsb _ prefs) eqn:E.
    + apply existsb_lower_In in E. contradiction.
    + assumption.
Qed.

Lemma matchCount_le (prefs genres : list string) :
  (matchCount prefs genres <= List.length genres)%nat.
Proof.
  induction genres as [| g genres IH]; simpl; [lia |].
  destruct (in_dec _ _ _); lia.
Qed.

Lemma genreFraction_range (prefs genres : list string) :
  genres <> [] -> 0 <= genreFraction prefs genres <= 1.
Proof.
  intros Hne. unfold genreFraction.
  assert (Hlen : (0 < List.length genres)%nat)
    by (destruct genres; [congruence | simpl; lia]).
  pose proof (inject_nat_pos _ Hlen) as Hpos.
  pose proof (inject_nat_nonneg (matchCount prefs genres)) as Hk.
  pose proof (inject_nat_le _ _ (matchCount_le prefs genres)) as Hle.
  split.
  - apply Qle_shift_div_l; [assumption | lra].
  - apply Qle_shift_div_r; [assumption | lra].
Qed.

(** With preferences and at least one movie genre the weight is the
    fraction, as a number. *)
Lemma genreWeight_fraction (genres prefs : list string) (u : UserInteractions) :
  preferredGenres u = Some prefs -> prefs <> [] -> genres <> [] ->
  calculateGenreWeight genres u = Fin (genreFraction prefs genres).
Proof.
  intros Hp Hne Hg. unfold calculateGenreWeight. rewrite Hp.
  destruct prefs as [| p prefs]; [congruence |]. cbn [List.length Nat.eqb].
  rewrite matching_length_matchCount.
  exact_values. rewrite div_pos.
  - apply min_Fin_le. apply (genreFraction_range (p :: prefs) genres Hg).
  - apply inject_nat_pos. destruct genres; [congruence | simpl; lia].
Qed.

(** With preferences and no movie genre the weight is [0 / 0]. *)
Lemma genreWeight_no_genre (prefs : list string) (u : UserInteractions) :
  preferredGenres u = Some prefs -> prefs <> [] ->
  calculateGenreWeight [] u = NaN.
Proof.
  intros Hp Hne. unfold calculateGenreWeight. rewrite Hp.
  destruct prefs as [| p prefs]; [congruence | reflexivity].
Qed.

(** Without history the weights are the literal 0.5, whatever the
    arithmetic. *)
Lemma genreWeight_no_history {num : Type} `{Arith num}
    (genres : list string) (u : UserInteractions) :
  noHistory (preferredGenres u) -> calculateGenreWeight genres u = lit 0.5.
Proof.
  intros [E | E]; unfold calculateGenreWeight; rewrite E; reflexivity.
Qed.

Lemma directorWeight_no_history {num : Type} `{Arith num}
    (d : string) (u : UserInteractions) :
  noHistory (preferredDirectors u) -> calculateDirectorWeight d u = lit 0.5.
Proof.
  intros [E | E]; unfold calculateDirectorWeight; rewrite E; reflexivity.
Qed.

(** *** The same in binary64 *)

Lemma genreWeight_no_genre_binary64 (prefs : list string) (u : UserInteractions) :
  preferredGenres u = Some prefs -> prefs <> [] ->
  calculateGenreWeight (num := spec_float) [] u = S754_nan.
Proof.
  intros Hp Hne. unfold calculateGenreWeight. rewrite Hp.
  destruct prefs as [| p prefs]; [congruence |]. vm_compute. reflexivity.
Qed.

Lemma binary64_add_nan_l (b : spec_float) : add S754_nan b = S754_nan.
Proof. destruct b; reflexivity. Qed.

Lemma score_NaN_binary64
    (now : Date) (m : Movie) (u : UserInteractions) (l : list Interaction) :
  calculateGenreWeight (num := spec_float) (genre m) u = S754_nan ->
  calculateRecommendationScore (num := spec_float) now m u l = S754_nan.
Proof.
  intros Hg. unfold calculateRecommendationScore. rewrite Hg.
  change (add (lit 0) (mul S754_nan (lit 0.4))) with S754_nan.
  rewrite !binary64_add_nan_l. reflexivity.
Qed.

Lemma directorWeight_fin (d : string) (u : UserInteractions) :
  exists q, calculateDirectorWeight d u = Fin q /\ 0.3 <= q <= 1.
Proof.
  unfold calculateDirectorWeight.
  destruct (preferredDirectors u) as [prefs |].
  - destruct (List.length prefs =? 0)%nat.
    + exists 0.5. split; [reflexivity | lra].
    + destruct (existsb _ _).
      * exists 1. split; [reflexivity | lra].
      * exists 0.3. split; [reflexivity | lra].
  - exists 0.5. split; [reflexivity | lra].
Qed.

Lemma capped_ratio_fin (n : nat) (d : Q) :
  0 < d ->
  exists q, min (div (ofNat n) (Fin d)) (Fin 1) = Fin q /\ 0 <= q <= 1
            /\ q == Qmin (inject_Z (Z.of_nat n) / d) 1.
Proof.
  intros Hd. exact_values. rewrite div_pos by assumption.
  pose proof (inject_nat_nonneg n) as Hn.
  assert (H0 : 0 <= inject_Z (Z.of_nat n) / d)
    by (apply Qle_shift_div_l; [assumption | lra]).
  destruct (min_Fin_cases (inject_Z (Z.of_nat n) / d) 1) as [[Hle E] | [Hlt E]];
    rewrite E.
  - eexists. split; [reflexivity |]. split; [lra |].
    symmetry. now apply Q.min_l.
  - eexists. split; [reflexivity |]. split; [lra |].
    symmetry. apply Q.min_r. lra.
Qed.

Lemma popularity_fin (now : Date) (m : Movie) (l : list Interaction) :
  exists q, calculatePopularity now m l = Fin q /\ 0 <= q <= 1.
Proof.
  unfold calculatePopularity.
  destruct (capped_ratio_fin (List.length (filter (isRecentFor now m) l)) 100)
    as [q [E [H _]]]; [lra |].
  exists q. split; assumption.
Qed.

Lemma recency_fin (now release : Date) :
  exists q, calculateRecency now release = Fin q /\ 0.3 <= q <= 1.
Proof.
  unfold calculateRecency. exact_values.
  destruct (leb _ (Fin 5)); [exists 1; split; [reflexivity | lra] |].
  destruct (leb _ (Fin 10)); [exists 0.7; split; [reflexivity | lra] |].
  destruct (leb _ (Fin 20)); [exists 0.5; split; [reflexivity | lra] |].
  exists 0.3; split; [reflexivity | lra].
Qed.

Lemma interactionWeight_fin (id : ObjectId) (u : UserInteractions) :
  exists q, calculateInteractionWeight id u = Fin q /\ 0.1 <= q <= 0.8.
Proof.
  unfold calculateInteractionWeight.
  destruct (match viewedMovies u with Some _ => _ | None => _ end).
  - exists 0.1. split; [reflexivity | lra].
  - exists 0.8. split; [reflexivity | lra].
Qed.

(** The score when the genre weight is a number of [0, 1]. *)
Lemma score_in_range
    (now : Date) (m : Movie) (u : UserInteractions) (l : list Interaction) (g : Q) :
  validRating m ->
  calculateGenreWeight (genre m) u = Fin g -> 0 <= g <= 1 ->
  in_unit_interval (calculateRecommendationScore now m u l).
Proof.
  intros [Hr0 Hr10] Hg Hgr. unfold calculateRecommendationScore. exact_values.
  rewrite Hg.
  destruct (directorWeight_fin (director m) u) as [d [Ed Hd]]. rewrite Ed.
  destruct (popularity_fin now m l) as [p [Ep Hp]]. rewrite Ep.
  destruct (recency_fin now (releaseDate m)) as [c [Ec Hc]]. rewrite Ec.
  destruct (interactionWeight_fin (_id m) u) as [i [Ei Hi]]. rewrite Ei.
  rewrite (div_pos (rating m) 10) by lra.
  exact_sums.
  match goal with
  | |- in_unit_interval (min (Fin ?s) (Fin 1)) =>
      assert (Hs : 0 <= s <= 1); [| rewrite (min_Fin_le s 1) by apply Hs; exact Hs]
  end.
  assert (Hq : 0 <= rating m / 10 <= 1).
  { split; [apply Qle_shift_div_l | apply Qle_shift_div_r]; lra. }
  generalize dependent (rating m / 10). intros q Hq. lra.
Qed.

(** The score when the genre weight is not a number. *)
Lemma score_NaN
    (now : Date) (m : Movie) (u : UserInteractions) (l : list Interaction) :
  calculateGenreWeight (genre m) u = NaN ->
  calculateRecommendationScore now m u l = NaN.
Proof.
  intros Hg. unfold calculateRecommendationScore. exact_values. rewrite Hg.
  change (add (Fin 0) (mul NaN (Fin 0.4))) with NaN.
  now rewrite !add_NaN_l, min_NaN_l.
Qed.

(** The sub-scores other than the genre weight do not read the genres:
    changing the genres changes the score by 0.4 times the change of the
    genre weight. *)
Lemma score_contribution
    (now : Date) (m : Movie) (u : UserInteractions) (l : list Interaction)
    (gs gs' : list string) (g g' : Q) :
  validRating m ->
  calculateGenreWeight gs u = Fin g -> 0 <= g <= 1 ->
  calculateGenreWeight gs' u = Fin g' -> 0 <= g' <= 1 ->
  exists q q' : Q,
    calculateRecommendationScore now (withGenre m gs) u l = Fin q
    /\ calculateRecommendationScore now (withGenre m gs') u l = Fin q'
    /\ q == q' + (g - g') * 0.4.
Proof.
  intros [Hr0 Hr10] Hg Hgr Hg' Hgr'.
  destruct (directorWeight_fin (director m) u) as [d [Ed Hd]].
  destruct (popularity_fin now m l) as [p [Ep Hp]].
  destruct (recency_fin now (releaseDate m)) as [c [Ec Hc]].
  destruct (interactionWeight_fin (_id m) u) as [i [Ei Hi]].
  assert (Hq : 0 <= rating m / 10 <= 1).
  { split; [apply Qle_shift_div_l | apply Qle_shift_div_r]; lra. }
  assert (Hgen : forall xs x, calculateGenreWeight xs u = Fin x -> 0 <= x <= 1 ->
            calculateRecommendationScore now (withGenre m xs) u l
            = Fin (0 + x * 0.4 + d * 0.2 + rating m / 10 * 0.15
                   + p * 0.1 + c * 0.1 + i * 0.05)).
  { intros xs x Hx Hxr. unfold calculateRecommendationScore. exact_values.
    cbn [withGenre genre director rating releaseDate _id].
    change (calculatePopularity (num := number) now (withGenre m xs) l)
      with (calculatePopularity (num := number) now m l).
    rewrite Hx, Ed, Ep, Ec, Ei, (div_pos (rating m) 10) by lra.
    exact_sums. apply min_Fin_le.
    generalize dependent (rating m / 10). intros q Hq. lra. }
  rewrite (Hgen gs g Hg Hgr), (Hgen gs' g' Hg' Hgr').
  do 2 eexists. split; [reflexivity |]. split; [reflexivity |]. ring.
Qed.

(** C9: for every movie, a user without preference history (no preferred
    genres, no preferred directors: the lists are missing or empty) gets the
    neutral genre sub-score 0.5 and the neutral director sub-score 0.5, in
    exact arithmetic and in binary64 alike. *)
Theorem C9_no_history_neutral_weights
    {num : Type} `{Arith num} (m : Movie) (u : UserInteractions) :
  noHistory (preferredGenres u) ->
  noHistory (preferredDirectors u) ->
  calculateGenreWeight (genre m) u = lit 0.5
  /\ calculateDirectorWeight (director m) u = lit 0.5.
Proof.
  intros Hg Hd. split.
  - now apply genreWeight_no_history.
  - now apply directorWeight_no_history.
Qed.

(** C5: for a movie with at least one genre and a user with at least one
    preferred genre, the genre sub-score is the number of movie genres that
    are in the preferred-genre set, letter case aside, divided by the number
    of movie genres.  Genres [Action, Drama] against the preference [action]
    give 1/2, and this weight puts 0.5 x 0.40 = 0.20 into the total score:
    for a rating in [0, 10] the score is a number, and so is the score of
    the same movie with a genre list that matches nothing, and the first is
    the second plus 0.20.  In binary64 the weight is the double 0.5 and its
    term in the score the double 0.2. *)
Theorem C5_genre_weight_is_match_fraction
    (m : Movie) (u : UserInteractions) (prefs : list string) :
  preferredGenres u = Some prefs -> prefs <> [] -> genre m <> [] ->
  calculateGenreWeight (genre m) u = Fin (genreFraction prefs (genre m))
  /\ (forall (now : Date) (l : list Interaction),
        prefs = ["action"%string] -> genre m = ["Action"%string; "Drama"%string] ->
        validRating m ->
        calculateGenreWeight (genre m) u =n Fin 0.5
        /\ mul (calculateGenreWeight (genre m) u) (Fin 0.4) =n Fin 0.2
        /\ (exists q q' : Q,
              calculateRecommendationScore now m u l = Fin q
              /\ calculateRecommendationScore now
                   (withGenre m ["Drama"%string]) u l = Fin q'
              /\ q == q' + 0.2)
        /\ calculateGenreWeight (num := spec_float) (genre m) u = lit 0.5
        /\ mul (calculateGenreWeight (num := spec_float) (genre m) u) (lit 0.4)
           = lit 0.2).
Proof.
  intros Hp Hne Hg. split.
  - now apply genreWeight_fraction.
  - intros now l Hprefs Hgenre Hr. subst prefs.
    assert (E1 : calculateGenreWeight (genre m) u = Fin (1 # 2)).
    { unfold calculateGenreWeight. rewrite Hp, Hgenre. reflexivity. }
    assert (E0 : calculateGenreWeight ["Drama"%string] u = Fin (0 # 1)).
    { unfold calculateGenreWeight. rewrite Hp. reflexivity. }
    assert (EB : calculateGenreWeight (num := spec_float) (genre m) u = lit 0.5).
    { unfold calculateGenreWeight. rewrite Hp, Hgenre. vm_compute. reflexivity. }
    rewrite E1, EB.
    split; [reflexivity |]. split; [reflexivity |].
    split; [| split; [reflexivity | vm_compute; reflexivity]].
    assert (Em : m = withGenre m (genre m)) by (destruct m; reflexivity).
    destruct (score_contribution now m u l (genre m) ["Drama"%string]
                (1 # 2) (0 # 1) Hr E1 ltac:(lra) E0 ltac:(lra))
      as (q & q' & Eq & Eq' & Hc).
    rewrite <- Em in Eq. exists q, q'. split; [exact Eq |]. split; [exact Eq' |].
    rewrite Hc. lra.
Qed.

(** C10: for a movie without genres and a user with at least one preferred
    genre the genre sub-score is 0 / 0: the count of matching genres and the
    number of genres are both 0, their quotient is not a number, and neither
    is the total score, which is therefore not in [0, 1]; in binary64 both
    are NaN as well.  With at least one genre (and a rating in [0, 10]) the
    score is in [0, 1]. *)
Theorem C10_no_genre_score_is_NaN
    (now : Date) (m : Movie) (u : UserInteractions) (l : list Interaction)
    (prefs : list string) :
  preferredGenres u = Some prefs -> prefs <> [] ->
  (genre m = [] ->
     matchCount prefs (genre m) = 0%nat
     /\ List.length (genre m) = 0%nat
     /\ div (ofNat 0) (ofNat 0) = NaN
     /\ calculateGenreWeight (genre m) u = NaN
     /\ calculateRecommendationScore now m u l = NaN
     /\ ~ in_unit_interval (calculateRecommendationScore now m u l)
     /\ calculateGenreWeight (num := spec_float) (genre m) u = S754_nan
     /\ calculateRecommendationScore (num := spec_float) now m u l = S754_nan)
  /\ (genre m <> [] -> validRating m ->
      in_unit_interval (calculateRecommendationScore now m u l)).
Proof.
  intros Hp Hne. split.
  - intros Hg.
    assert (HN : calculateGenreWeight (genre m) u = NaN)
      by (rewrite Hg; now apply (genreWeight_no_genre prefs)).
    assert (HB : calculateGenreWeight (num := spec_float) (genre m) u = S754_nan)
      by (rewrite Hg; now apply (genreWeight_no_genre_binary64 prefs)).
    rewrite (score_NaN now m u l HN), (score_NaN_binary64 now m u l HB), HB, Hg.
    repeat split; try reflexivity.
    + now rewrite <- Hg.
    + intros Hin. exact Hin.
  - intros Hg Hr.
    apply (score_in_range now m u l (genreFraction prefs (genre m)) Hr).
    + now apply genreWeight_fraction.
    + now apply genreFraction_range.
Qed.

(** C1 (fails on the code): a movie with a rating in [0, 10] and an empty
    genre list, scored for a user who has a preferred genre, gets the score
    NaN, which is not in [0, 1]; the final [Math.min(score, 1.0)] does not
    change it.  The same in binary64. *)
Theorem C1_score_outside_unit_interval :
  let m := mkMovie "m1"%string "Untitled"%string [] "Michael Mann"%string 8 0%Z in
  let u := mkPrefs (Some ["action"%string]) (Some []) (Some []) in
  validRating m
  /\ calculateGenreWeight (genre m) u = NaN
  /\ calculateRecommendationScore 1000%Z m u [] = NaN
  /\ ~ in_unit_interval (calculateRecommendationScore 1000%Z m u [])
  /\ calculateRecommendationScore (num := spec_float) 1000%Z m u [] = S754_nan.
Proof.
  intros m u. split; [| split; [| split; [| split]]].
  - unfold validRating. simpl. lra.
  - reflexivity.
  - reflexivity.
  - intros Hin. exact Hin.
  - vm_compute. reflexivity.
Qed.

End AnyCalendar.

(** The examples are evaluated in a time zone without changes of the clock. *)
#[local] Existing Instance EngineSpec.noClockChange.

Lemma C9_no_history_neutral_weights_witness :
  let m := mkMovie "m1"%string "Heat"%string ["Crime"%string; "Drama"%string]
             "Michael Mann"%string 8.3 0%Z in
  let u := mkPrefs (Some []) None None in
  (calculateGenreWeight (genre m) u = Fin 0.5
   /\ calculateDirectorWeight (director m) u = Fin 0.5)
  /\ (calculateGenreWeight (genre m) u = S754_finite false 4503599627370496 (-53)
      /\ calculateDirectorWeight (director m) u
         = S754_finite false 4503599627370496 (-53)).
Proof.
  intros m u. split.
  - exact (C9_no_history_neutral_weights (num := number) m u
             (or_intror eq_refl) (or_introl eq_refl)).
  - exact (C9_no_history_neutral_weights (num := spec_float) m u
             (or_intror eq_refl) (or_introl eq_refl)).
Defined.

Lemma C5_genre_weight_is_match_fraction_witness :
  let m := mkMovie "m1"%string "Heat"%string ["Action"%string; "Drama"%string]
             "Michael Mann"%string 8 0%Z in
  let u := mkPrefs (Some ["action"%string]) None None in
  calculateGenreWeight (genre m) u =n Fin 0.5
  /\ mul (calculateGenreWeight (genre m) u) (Fin 0.4) =n Fin 0.2
  /\ (exists q q' : Q,
        calculateRecommendationScore 1000%Z m u [] = Fin q
        /\ calculateRecommendationScore 1000%Z
             (withGenre m ["Drama"%string]) u [] = Fin q'
        /\ q == q' + 0.2)
  /\ calculateGenreWeight (num := spec_float) (genre m) u = lit 0.5
  /\ mul (calculateGenreWeight (num := spec_float) (genre m) u) (lit 0.4) = lit 0.2.
Proof.
  intros m u.
  refine (proj2 (C5_genre_weight_is_match_fraction m u ["action"%string]
                   eq_refl _ _) 1000%Z [] eq_refl eq_refl _).
  - discriminate.
  - discriminate.
  - unfold validRating. simpl. lra.
Defined.

Lemma C10_no_genre_score_is_NaN_witness :
  let m := mkMovie "m1"%string "Untitled"%string [] "Michael Mann"%string 8 0%Z in
  let u := mkPrefs (Some ["action"%string]) None None in
  calculateRecommendationScore 1000%Z m u [] = NaN
  /\ ~ in_unit_interval (calculateRecommendationScore 1000%Z m u [])
  /\ calculateRecommendationScore (num := spec_float) 1000%Z m u [] = S754_nan.
Proof.
  intros m u.
  pose proof (proj1 (C10_no_genre_score_is_NaN 1000%Z m u [] ["action"%string]
                       eq_refl ltac:(discriminate)) eq_refl) as Hw.
  repeat split; apply Hw.
Defined.

End EngineProofs.

(* ===================================================================== *)
(** * Properties of the feed composer *)
(* ===================================================================== *)

Module FeedProofs.
Import JS Engine Feed EngineProofs.

(** *** The comparator *)

Section AnyCalendar.

Context {calendar : Calendar}.

Lemma ltb_Fin (p q : Q) : ltb (Fin p) (Fin q) = true <-> p < q.
Proof. cbn [ltb exact Exact.ltb]. rewrite Qlt_alt. destruct (p ?= q); split; congruence. Qed.

(** [b - a > 0] says that [a] is strictly below [b]; with a [NaN] on either
    side both are false. *)
Lemma sub_positive_ltb (a b : number) : ltb (Fin 0) (sub b a) = ltb a b.
Proof.
  destruct a as [p | | |], b as [q | | |]; try reflexivity.
  cbn [lit sub add exact Exact.sub Exact.neg Exact.add]. apply eq_true_iff_eq. rewrite !ltb_Fin. split; lra.
Qed.

(** *** The sort *)

Section SortBy.
Context {A : Type}.
Variable f : A -> number.

Lemma insert_unfold (x y : A) (l : list A) :
  insert (descending f) x (y :: l)
  = if ltb (f x) (f y) then y :: insert (descending f) x l else x :: y :: l.
Proof. cbn [insert]. unfold descending. now rewrite sub_positive_ltb. Qed.

Lemma insert_perm (x : A) (l : list A) :
  Permutation (insert (descending f) x l) (x :: l).
Proof.
  induction l as [| y l IH]; [reflexivity |].
  rewrite insert_unfold. destruct (ltb (f x) (f y)); [| reflexivity].
  rewrite IH. apply perm_swap.
Qed.

Lemma sort_perm (l : list A) : Permutation (sort (descending f) l) l.
Proof.
  induction l as [| x l IH]; [reflexivity |].
  cbn [sort]. rewrite insert_perm. now constructor.
Qed.

(** *** The slice *)

Lemma slice0_firstn (l : list A) (limit : Z) :
  (0 <= limit)%Z -> slice0 l limit = firstn (Z.to_nat limit) l.
Proof.
  intros H. unfold slice0.
  destruct (limit <? 0)%Z eqn:E; [apply Z.ltb_lt in E; lia |].
  destruct (Z.min_spec limit (Z.of_nat (List.length l))) as [[Hlt ->] | [Hge ->]].
  - reflexivity.
  - rewrite Nat2Z.id, firstn_all. symmetry. apply firstn_all2. lia.
Qed.

Lemma slice0_prefix (l : list A) (limit : Z) :
  exists n, slice0 l limit = firstn n l.
Proof. unfold slice0. eexists. reflexivity. Qed.

End SortBy.

(** Sorting the scored pairs is sorting the movies. *)
Lemma insert_map {A B : Type} (g : A -> B) (cmp : A -> A -> number)
    (cmp' : B -> B -> number) (x : A) (l : list A) :
  (forall a b, cmp' (g a) (g b) = cmp a b) ->
  insert cmp' (g x) (map g l) = map g (insert cmp x l).
Proof.
  intros H. induction l as [| y l IH]; [reflexivity |].
  cbn [map insert]. rewrite H. destruct (ltb _ _); [| reflexivity].
  cbn [map]. now rewrite IH.
Qed.

Lemma sort_map {A B : Type} (g : A -> B) (cmp : A -> A -> number)
    (cmp' : B -> B -> number) (l : list A) :
  (forall a b, cmp' (g a) (g b) = cmp a b) ->
  sort cmp' (map g l) = map g (sort cmp l).
Proof.
  intros H. induction l as [| x l IH]; [reflexivity |].
  cbn [map sort]. rewrite IH. now apply insert_map.
Qed.

Lemma slice0_map {A B : Type} (g : A -> B) (l : list A) (limit : Z) :
  slice0 (map g l) limit = map g (slice0 l limit).
Proof. unfold slice0. now rewrite length_map, firstn_map. Qed.

(** Both feeds are the movies ranked by their score and cut at the limit. *)
Lemma scored_feed (f : Movie -> number) (movies : list Movie) (limit : Z) :
  map movie (slice0 (sort byScoreDesc (map (fun m => mkScored m (f m)) movies)) limit)
  = slice0 (sort (descending f) movies) limit.
Proof.
  rewrite (sort_map (fun m => mkScored m (f m)) (descending f) byScoreDesc)
    by reflexivity.
  rewrite slice0_map, map_map. cbn [movie]. apply map_id.
Qed.

Lemma getPersonalizedFeed_ranked
    (now : Date) (movies : list Movie) (u : UserInteractions)
    (l : list Interaction) (limit : option Z) :
  getPersonalizedFeed (num := number) now movies u l limit
  = slice0 (sort (descending (fun m => calculateRecommendationScore now m u l)) movies)
           (defaultLimit limit).
Proof. unfold getPersonalizedFeed. apply scored_feed. Qed.

Lemma getTrendingMovies_ranked
    (now : Date) (movies : list Movie) (l : list Interaction) (limit : option Z) :
  getTrendingMovies (num := number) now movies l limit
  = slice0 (sort (descending (trendingScore now l)) movies) (defaultLimit limit).
Proof. unfold getTrendingMovies. apply scored_feed. Qed.

(** *** The trending score *)

(** The filter of the code counts the interactions from [sevenDaysAgo now]
    on. *)
Lemma recent_length_count (now : Date) (l : list Interaction) (m : Movie) :
  List.length (filter (isRecentFor now m) l) = recentInteractionCount (sevenDaysAgo now) l m.
Proof.
  unfold recentInteractionCount.
  induction l as [| i l IH]; [reflexivity |].
  cbn [filter map count_occ].
  assert (E : isRecentFor now m i
              = match metadata i with
                | Some md =>
                    match timestamp md with
                    | Some t => String.eqb (movieId i) (_id m)
                                && (sevenDaysAgo now <=? t)%Z
                    | None => false
                    end
                | None => false
                end).
  { unfold isRecentFor, timestampSince.
    destruct (metadata i) as [md |]; [| apply andb_false_r].
    destruct (timestamp md); [reflexivity | apply andb_false_r]. }
  rewrite <- E.
  destruct (isRecentFor now m i); destruct (bool_dec _ true) as [H | H];
    try discriminate; try congruence; cbn [List.length]; now rewrite IH.
Qed.



(** C2 (fails on the code): a movie without genres gets the score NaN, the
    comparator [b.score - a.score] is NaN against it, and the sort leaves
    the three movies in their input order although the third has a strictly
    larger score than the first: the personalized feed is not in descending
    order of score.  The same feed comes out in binary64. *)
Theorem C2_personalized_feed_not_descending :
  let a := mkMovie "a"%string "A"%string ["Drama"%string] "X"%string 5 0%Z in
  let b := mkMovie "b"%string "B"%string [] "X"%string 5 0%Z in
  let c := mkMovie "c"%string "C"%string ["Action"%string] "X"%string 5 0%Z in
  let u := mkPrefs (Some ["action"%string]) (Some []) (Some []) in
  let f := fun m => calculateRecommendationScore 1790000000000%Z m u [] in
  let g := fun m => calculateRecommendationScore (num := spec_float) 1790000000000%Z m u [] in
  getPersonalizedFeed (num := number) 1790000000000%Z [a; b; c] u [] None = [a; b; c]
  /\ f b = NaN
  /\ f a =n Fin 0.245 /\ f c =n Fin 0.645
  /\ ltb (f a) (f c) = true
  /\ ~ sortedDescBy f (getPersonalizedFeed (num := number) 1790000000000%Z [a; b; c] u [] None)
  /\ getPersonalizedFeed (num := spec_float) 1790000000000%Z [a; b; c] u [] None = [a; b; c]
  /\ g b = S754_nan
  /\ ltb (g a) (g c) = true.
Proof.
  intros a b c u f g.
  assert (E : getPersonalizedFeed (num := number) 1790000000000%Z [a; b; c] u [] None
              = [a; b; c]) by (vm_compute; reflexivity).
  assert (Hlt : ltb (f a) (f c) = true) by (vm_compute; reflexivity).
  split; [assumption |]. split; [reflexivity |].
  split; [vm_compute; reflexivity |]. split; [vm_compute; reflexivity |].
  split; [assumption |].
  split; [| repeat split; vm_compute; reflexivity].
  rewrite E. intros Hs. inversion Hs as [| ? ? _ Hall]; subst.
  inversion Hall as [| ? ? _ Hall']; subst. inversion Hall' as [| ? ? Hac _]; subst.
  congruence.
Qed.

End AnyCalendar.

(** The examples are evaluated in a time zone without changes of the clock. *)
#[local] Existing Instance EngineSpec.noClockChange.


End FeedProofs.

(* ===================================================================== *)
(** * Properties of the batch insert queue *)
(* ===================================================================== *)

Module QueueProofs.
Import Queue.

Local Open Scope nat_scope.

Section WithData.

Variable Data : Type.

(** *** Lists *)

Lemma removeAt_length {A : Type} (i : nat) (l : list A) (x : A) :
  nth_error l i = Some x -> S (List.length (removeAt i l)) = List.length l.
Proof.
  revert i. induction l as [| y l IH]; intros [| i] H; try discriminate.
  - reflexivity.
  - cbn [removeAt List.length]. f_equal. now apply IH.
Qed.

Lemma replaceAt_length {A : Type} (i : nat) (x : A) (l : list A) :
  List.length (replaceAt i x l) = List.length l.
Proof.
  revert i. induction l as [| y l IH]; intros [| i]; cbn [replaceAt List.length];
    try reflexivity.
  f_equal. apply IH.
Qed.

Lemma removeAt_perm {A : Type} (i : nat) (l : list A) (x : A) :
  nth_error l i = Some x -> Permutation l (x :: removeAt i l).
Proof.
  revert i. induction l as [| y l IH]; intros [| i] H; try discriminate.
  - injection H as ->. reflexivity.
  - cbn [removeAt]. rewrite (IH i H) at 1. apply perm_swap.
Qed.

Lemma replaceAt_perm {A : Type} (i : nat) (l : list A) (x y : A) :
  nth_error l i = Some x -> Permutation (replaceAt i y l) (y :: removeAt i l).
Proof.
  revert i. induction l as [| z l IH]; intros [| i] H; try discriminate.
  - reflexivity.
  - cbn [removeAt replaceAt]. rewrite (IH i H). apply perm_swap.
Qed.

Lemma sumOf_cons {A : Type} (f : A -> nat) (x : A) (l : list A) :
  sumOf f (x :: l) = f x + sumOf f l.
Proof. reflexivity. Qed.

Lemma sumOf_app {A : Type} (f : A -> nat) (l l' : list A) :
  sumOf f (l ++ l') = sumOf f l + sumOf f l'.
Proof.
  induction l as [| x l IH]; [reflexivity |].
  cbn [app]. rewrite !sumOf_cons, IH. lia.
Qed.

Lemma sumOf_perm {A : Type} (f : A -> nat) (l l' : list A) :
  Permutation l l' -> sumOf f l = sumOf f l'.
Proof.
  induction 1; rewrite ?sumOf_cons; lia.
Qed.

(** *** The operations, field by field *)

Lemma app_length_pos {A : Type} (l : list A) (x : A) :
  (0 <? List.length (l ++ [x])) = true.
Proof. rewrite length_app. cbn [List.length]. apply Nat.ltb_lt. lia. Qed.

Lemma length_zero_iff {A : Type} (l : list A) :
  (List.length l =? 0) = true <-> l = [].
Proof. destruct l; cbn; split; congruence. Qed.

Lemma length_pos_iff {A : Type} (l : list A) :
  (0 <? List.length l) = true <-> l <> [].
Proof. destruct l; cbn; split; congruence. Qed.

(** The head of the loop with items in the queue: a batch is dispatched. *)
Lemma loopHead_batch (w : World Data) :
  queue (mq w) <> [] ->
  addPass (loopHead w)
  = {| mq := with_queue (mq w) (skipn (batchSize (mq w)) (queue (mq w)));
       passes := passes w
                 ++ [AwaitAllSettled (firstn (batchSize (mq w)) (queue (mq w)))];
       timers := timers w;
       console := console w;
       inserts := inserts w
                  ++ map (fun item => (data item, retries item))
                         (firstn (batchSize (mq w)) (queue (mq w))) |}.
Proof.
  intros H. unfold loopHead. apply length_pos_iff in H. rewrite H. reflexivity.
Qed.

(** The head of the loop with an empty queue: the invocation ends, and no
    timer is armed. *)
Lemma loopHead_done (w : World Data) :
  queue (mq w) = [] ->
  addPass (loopHead w)
  = {| mq := with_processing (mq w) false;
       passes := passes w;
       timers := timers w;
       console := console w;
       inserts := inserts w |}.
Proof.
  intros H. unfold loopHead, finallyBlock. cbn [with_processing queue].
  rewrite H. reflexivity.
Qed.

Lemma processQueue_guarded (w : World Data) :
  processing (mq w) = true \/ queue (mq w) = [] -> processQueue w = w.
Proof.
  intros [H | H]; unfold processQueue; rewrite H; [reflexivity |].
  cbn [List.length Nat.eqb]. now rewrite orb_true_r.
Qed.

Lemma processQueue_starts (w : World Data) :
  processing (mq w) = false -> queue (mq w) <> [] ->
  processQueue w
  = {| mq := with_queue (with_processing (mq w) true)
               (skipn (batchSize (mq w)) (queue (mq w)));
       passes := passes w
                 ++ [AwaitAllSettled (firstn (batchSize (mq w)) (queue (mq w)))];
       timers := timers w;
       console := console w;
       inserts := inserts w
                  ++ map (fun item => (data item, retries item))
                         (firstn (batchSize (mq w)) (queue (mq w))) |}.
Proof.
  intros Hp Hq. unfold processQueue. rewrite Hp.
  destruct (List.length (queue (mq w)) =? 0) eqn:E.
  - apply length_zero_iff in E. contradiction.
  - cbn [orb]. now rewrite loopHead_batch.
Qed.

(** *** One invocation at a time *)

Lemma idle_initial : idle (@initial Data).
Proof. repeat split. Qed.

Lemma singlePass_cases (w : World Data) :
  singlePass w ->
  (passes w = [] /\ processing (mq w) = false)
  \/ (exists c, passes w = [c] /\ processing (mq w) = true).
Proof.
  unfold singlePass. destruct (passes w) as [| c [| c' ps]]; intros H.
  - now left.
  - right. now exists c.
  - contradiction.
Qed.

Lemma processQueue_idle (w : World Data) : idle w -> processQueue w = w.
Proof.
  intros [_ [Hq _]]. apply processQueue_guarded.
  destruct (processing (mq w)); [now left | right; now apply Hq].
Qed.

Lemma step_idle (e : Event Data) (w w' : World Data) :
  idle w -> step e w = Some w' -> idle w'.
Proof.
  intros Hi Hs. pose proof Hi as [Hsp [Hq Ht]].
  destruct e as [d f now | | | | p i | p]; cbn [step] in Hs.
  - (* enqueue *)
    injection Hs as <-. unfold enqueue. cbn [mq processing with_queue].
    destruct (singlePass_cases w Hsp) as [[Hps Hpr] | [c [Hps Hpr]]]; rewrite Hpr;
      cbn [negb].
    + rewrite processQueue_starts.
      * unfold idle, singlePass. cbn. rewrite Hps. cbn. repeat split; congruence.
      * assumption.
      * cbn. intros E. now apply app_eq_nil in E as [_ E].
    + unfold idle, singlePass. cbn. rewrite Hps, Hpr. repeat split; congruence.
  - (* processQueue() from outside *)
    injection Hs as <-. now rewrite processQueue_idle.
  - (* clear() *)
    injection Hs as <-. unfold idle, singlePass, clear. cbn.
    repeat split; try assumption.
  - (* a timer *)
    rewrite Ht in Hs. discriminate.
  - (* a promise settles *)
    unfold settle in Hs.
    destruct (singlePass_cases w Hsp) as [[Hps Hpr] | [c [Hps Hpr]]]; rewrite Hps in Hs.
    + destruct p; discriminate.
    + destruct p as [| p]; [| destruct p; discriminate]. cbn in Hs.
      destruct c as [pending |]; [| discriminate].
      destruct (nth_error pending i) as [item |]; [| discriminate].
      injection Hs as <-. unfold settleItem.
      destruct (insertFunction item (data item) (retries item));
        [| destruct (retries item <? _)];
        unfold idle, singlePass; cbn; rewrite Hpr; repeat split; congruence.
  - (* an invocation resumes *)
    unfold resume in Hs.
    destruct (singlePass_cases w Hsp) as [[Hps Hpr] | [c [Hps Hpr]]]; rewrite Hps in Hs.
    + destruct p; discriminate.
    + destruct p as [| p]; [| destruct p; discriminate].
      cbn [nth_error replaceAt removeAt] in Hs.
      assert (Hend : forall w0 : World Data,
                 mq w0 = mq w -> passes w0 = [] -> timers w0 = 0 ->
                 idle (addPass (loopHead w0))).
      { intros w0 Em Ep Et. destruct (queue (mq w0)) as [| x q] eqn:Eq.
        - rewrite loopHead_done by assumption.
          unfold idle, singlePass. cbn. rewrite Ep, Eq. repeat split; assumption.
        - rewrite loopHead_batch by congruence.
          unfold idle, singlePass. cbn. rewrite Ep, Em, Hpr. cbn.
          repeat split; [congruence | assumption]. }
      destruct c as [[| item pending] |]; try discriminate.
      * destruct (0 <? List.length (queue (mq w))) eqn:E; injection Hs as <-.
        -- unfold idle, singlePass. cbn. rewrite Hpr. repeat split; congruence.
        -- now apply Hend.
      * injection Hs as <-. now apply Hend.
Qed.

Lemma exec_idle (tr : list (Event Data)) (w w' : World Data) :
  idle w -> exec tr w = Some w' -> idle w'.
Proof.
  revert w. induction tr as [| e tr IH]; intros w Hi He; cbn [exec] in He.
  - now injection He as <-.
  - destruct (step e w) as [w1 |] eqn:Es; [| discriminate].
    apply (IH w1); [now apply (step_idle e w) | assumption].
Qed.

(** From a world that satisfies [idle] every step is one of the cases of
    [Transition]. *)
Lemma step_transition (e : Event Data) (w w' : World Data) :
  idle w -> step e w = Some w' -> Transition w e w'.
Proof.
  intros [Hsp [Hq Ht]] Hs.
  destruct e as [d f now | | | | p i | p]; cbn [step] in Hs.
  - injection Hs as <-. unfold enqueue. cbn [mq processing with_queue].
    destruct (singlePass_cases w Hsp) as [[Hps Hpr] | [c [Hps Hpr]]]; rewrite Hpr;
      cbn [negb].
    + rewrite processQueue_starts.
      * apply EnqueueStarts; [assumption | assumption | now apply Hq].
      * assumption.
      * cbn. intros E. now apply app_eq_nil in E as [_ E].
    + now apply EnqueueWhileBusy.
  - injection Hs as <-. rewrite processQueue_idle by (repeat split; assumption).
    constructor.
  - injection Hs as <-. constructor.
  - rewrite Ht in Hs. discriminate.
  - unfold settle in Hs.
    destruct (singlePass_cases w Hsp) as [[Hps Hpr] | [c [Hps Hpr]]]; rewrite Hps in Hs.
    + destruct p; discriminate.
    + destruct p as [| p]; [| destruct p; discriminate].
      cbn [nth_error replaceAt] in Hs.
      destruct c as [pending |]; [| discriminate].
      destruct (nth_error pending i) as [item |] eqn:Ei; [| discriminate].
      injection Hs as <-. now apply PromiseSettles.
  - unfold resume in Hs.
    destruct (singlePass_cases w Hsp) as [[Hps Hpr] | [c [Hps Hpr]]]; rewrite Hps in Hs.
    + destruct p; discriminate.
    + destruct p as [| p]; [| destruct p; discriminate].
      cbn [nth_error replaceAt removeAt] in Hs.
      destruct (queue (mq w)) as [| x q] eqn:Eq.
      * assert (E : w' = flagged false (with_passes w [])).
        { destruct c as [[| item pending] |]; try discriminate;
            cbn [List.length Nat.ltb Nat.leb] in Hs; injection Hs as <-;
            now rewrite loopHead_done. }
        subst w'. apply PassEnds with (c := c); try assumption.
        destruct c as [[| item pending] |]; try discriminate; reflexivity.
      * destruct c as [[| item pending] |]; try discriminate;
          cbn [List.length Nat.ltb Nat.leb] in Hs; injection Hs as <-.
        -- apply BatchDoneDelay; [assumption | congruence].
        -- rewrite loopHead_batch by (cbn; congruence).
           apply NextBatch; [assumption | congruence].
Qed.

(** *** Accounting: every call of an insert operation, made or to come *)

(** Concatenation of lists up to the order of the elements, for rewriting
    modulo associativity and commutativity. *)
#[local] Instance app_perm_assoc {A : Type} : Associative (@Permutation A) (@app A).
Proof. intros x y z. now rewrite app_assoc. Qed.

#[local] Instance app_perm_comm {A : Type} : Commutative (@Permutation A) (@app A).
Proof. intros x y. apply Permutation_app_comm. Qed.

#[local] Instance app_perm_unit {A : Type} : Unit (@Permutation A) (@app A) (@nil A).
Proof. split; intros x; [reflexivity | now rewrite app_nil_r]. Qed.

Lemma attemptsLeft_head (mr : nat) (item : QueueItem Data) :
  attemptsLeft mr item = (data item, retries item) :: attemptsAfter mr item.
Proof.
  unfold attemptsAfter, attemptsLeft.
  destruct (mr - retries item); reflexivity.
Qed.

Lemma flat_map_attemptsLeft (mr : nat) (l : list (QueueItem Data)) :
  Permutation (flat_map (attemptsLeft mr) l)
              (map (fun item => (data item, retries item)) l
               ++ flat_map (attemptsAfter mr) l).
Proof.
  induction l as [| item l IH]; [reflexivity |].
  cbn [flat_map map]. rewrite IH, attemptsLeft_head. cbn [app].
  constructor. aac_reflexivity.
Qed.

Lemma flat_map_split {A B : Type} (g : A -> list B) (n : nat) (l : list A) :
  flat_map g l = flat_map g (firstn n l) ++ flat_map g (skipn n l).
Proof. now rewrite <- flat_map_app, firstn_skipn. Qed.

Lemma insertsTotal_dispatched (w : World Data) :
  Permutation (insertsTotal (dispatched w)) (insertsTotal w).
Proof.
  unfold insertsTotal, inFlight, dispatched. cbn.
  rewrite !flat_map_app. cbn [flat_map pendingOf]. rewrite app_nil_r.
  rewrite (flat_map_split (attemptsLeft _) (batchSize (mq w)) (queue (mq w))).
  rewrite (flat_map_attemptsLeft _ (firstn _ _)).
  aac_reflexivity.
Qed.

Lemma failuresTotal_dispatched (w : World Data) :
  Permutation (failuresTotal (dispatched w)) (failuresTotal w).
Proof.
  unfold failuresTotal, inFlight, dispatched. cbn.
  rewrite !flat_map_app. cbn [flat_map pendingOf]. rewrite app_nil_r.
  rewrite (flat_map_split (failureLeft _) (batchSize (mq w)) (queue (mq w))).
  aac_reflexivity.
Qed.

Lemma insertsTotal_pushed (item : QueueItem Data) (w : World Data) :
  Permutation (insertsTotal (pushed item w))
              (insertsTotal w ++ attemptsLeft (maxRetries (mq w)) item).
Proof.
  unfold insertsTotal, inFlight, pushed. cbn.
  rewrite flat_map_app. cbn [flat_map]. rewrite app_nil_r.
  aac_reflexivity.
Qed.

Lemma failuresTotal_pushed (item : QueueItem Data) (w : World Data) :
  Permutation (failuresTotal (pushed item w))
              (failuresTotal w ++ failureLeft (maxRetries (mq w)) item).
Proof.
  unfold failuresTotal, inFlight, pushed. cbn.
  rewrite !flat_map_app. cbn [flat_map]. rewrite app_nil_r.
  aac_reflexivity.
Qed.

(** What is left for an item in flight, by the outcome of its call. *)
Lemma left_fulfilled (mr : nat) (item : QueueItem Data) :
  insertFunction item (data item) (retries item) = Fulfilled ->
  attemptsAfter mr item = [] /\ failureLeft mr item = [].
Proof.
  intros H. unfold attemptsAfter, attemptsLeft, failureLeft.
  destruct (mr - retries item); cbn; rewrite H; split; reflexivity.
Qed.

Lemma left_retry (mr : nat) (item : QueueItem Data) (error : Error) :
  insertFunction item (data item) (retries item) = Rejected error ->
  retries item < mr ->
  let item' := mkItem (data item) (insertFunction item) (S (retries item))
                 (timestamp item) in
  attemptsAfter mr item = attemptsLeft mr item'
  /\ failureLeft mr item = failureLeft mr item'.
Proof.
  intros H Hlt item'. unfold attemptsAfter, attemptsLeft, failureLeft.
  cbn [data insertFunction retries item'].
  replace (mr - retries item) with (S (mr - S (retries item))) by lia.
  cbn. rewrite H. split; reflexivity.
Qed.

Lemma left_exhausted (mr : nat) (item : QueueItem Data) (error : Error) :
  insertFunction item (data item) (retries item) = Rejected error ->
  ~ retries item < mr ->
  attemptsAfter mr item = []
  /\ failureLeft mr item = [FailedAfterRetries mr (data item) error].
Proof.
  intros H Hge. unfold attemptsAfter, attemptsLeft, failureLeft.
  replace (mr - retries item) with 0 by lia.
  cbn. rewrite H. split; reflexivity.
Qed.

Lemma totals_settled
    (w : World Data) (pending : list (QueueItem Data)) (i : nat)
    (item : QueueItem Data) :
  passes w = [AwaitAllSettled pending] ->
  nth_error pending i = Some item ->
  let w' := settleItem item (with_passes w [AwaitAllSettled (removeAt i pending)]) in
  Permutation (insertsTotal w') (insertsTotal w)
  /\ Permutation (failuresTotal w') (failuresTotal w).
Proof.
  intros Hps Hi w'. subst w'.
  pose proof (removeAt_perm i pending item Hi) as Hperm.
  assert (Ew : insertsTotal w
               = inserts w
                 ++ flat_map (attemptsLeft (maxRetries (mq w))) (queue (mq w))
                 ++ flat_map (attemptsAfter (maxRetries (mq w))) pending).
  { unfold insertsTotal, inFlight. rewrite Hps. cbn. now rewrite app_nil_r. }
  assert (Fw : failuresTotal w
               = console w
                 ++ flat_map (failureLeft (maxRetries (mq w)))
                      (queue (mq w) ++ pending)).
  { unfold failuresTotal, inFlight. rewrite Hps. cbn. now rewrite app_nil_r. }
  rewrite Ew, Fw.
  rewrite !flat_map_app.
  rewrite (Permutation_flat_map (attemptsAfter _) Hperm).
  rewrite (Permutation_flat_map (failureLeft _) Hperm).
  cbn [flat_map].
  unfold settleItem. cbn [mq with_passes].
  destruct (insertFunction item (data item) (retries item)) as [| error] eqn:Eo.
  - destruct (left_fulfilled (maxRetries (mq w)) item Eo) as [-> ->].
    unfold insertsTotal, failuresTotal, inFlight. cbn.
    rewrite !flat_map_app, !app_nil_r. split; reflexivity.
  - destruct (retries item <? maxRetries (mq w)) eqn:El.
    + apply Nat.ltb_lt in El.
      destruct (left_retry (maxRetries (mq w)) item error Eo El) as [-> ->].
      unfold insertsTotal, failuresTotal, inFlight. cbn.
      rewrite !flat_map_app. cbn [flat_map]. rewrite !app_nil_r.
      split; aac_reflexivity.
    + apply Nat.ltb_ge in El.
      destruct (left_exhausted (maxRetries (mq w)) item error Eo) as [-> ->]; [lia |].
      unfold insertsTotal, failuresTotal, inFlight. cbn -[app].
      rewrite !flat_map_app, !app_nil_r. split; aac_reflexivity.
Qed.

(** The items a step enqueues. *)
Lemma enqueued_one (e : Event Data) (tr : list (Event Data)) :
  enqueued (e :: tr) = enqueued [e] ++ enqueued tr.
Proof. destruct e; reflexivity. Qed.

Lemma transition_config (w w' : World Data) (e : Event Data) :
  Transition w e w' ->
  batchSize (mq w') = batchSize (mq w) /\ maxRetries (mq w') = maxRetries (mq w).
Proof.
  intros H. destruct H; try (split; reflexivity).
  unfold settleItem. destruct (insertFunction _ _ _); [split; reflexivity |].
  destruct (_ <? _); split; reflexivity.
Qed.

(** A step other than [clear()] keeps the accounts: what is enqueued is
    added to them, nothing else changes them. *)
Lemma transition_totals (w w' : World Data) (e : Event Data) :
  Transition w e w' -> e <> Clear ->
  let mr := maxRetries (mq w) in
  Permutation (insertsTotal w') (insertsTotal w ++ expectedInserts mr (enqueued [e]))
  /\ Permutation (failuresTotal w')
                 (failuresTotal w ++ expectedFailures mr (enqueued [e])).
Proof.
  intros H Hc mr. subst mr.
  assert (Hnew : forall (d : Data) (f : InsertFunction Data) (now : nat),
             attemptsLeft (maxRetries (mq w)) (mkItem d f 0 now)
             = expectedInserts (maxRetries (mq w)) [(d, f)]
             /\ failureLeft (maxRetries (mq w)) (mkItem d f 0 now)
                = expectedFailures (maxRetries (mq w)) [(d, f)]).
  { intros d f now. unfold attemptsLeft, failureLeft, expectedInserts, expectedFailures.
    cbn. now rewrite Nat.sub_0_r, !app_nil_r. }
  destruct H as [w d f now Hps Hpr Hq | w d f now Hpr | w | w
                 | w pending i item Hps Hi | w Hps Hq | w Hps Hq | w c Hps Hc' Hq];
    cbn [enqueued expectedInserts expectedFailures flat_map];
    rewrite ?app_nil_r.
  - destruct (Hnew d f now) as [E1 E2]. cbn in E1, E2. rewrite app_nil_r in E1, E2.
    rewrite insertsTotal_dispatched, failuresTotal_dispatched.
    change (insertsTotal (flagged true (pushed (mkItem d f 0 now) w)))
      with (insertsTotal (pushed (mkItem d f 0 now) w)).
    change (failuresTotal (flagged true (pushed (mkItem d f 0 now) w)))
      with (failuresTotal (pushed (mkItem d f 0 now) w)).
    rewrite insertsTotal_pushed, failuresTotal_pushed, E1, E2. split; reflexivity.
  - destruct (Hnew d f now) as [E1 E2]. cbn in E1, E2. rewrite app_nil_r in E1, E2.
    rewrite insertsTotal_pushed, failuresTotal_pushed, E1, E2. split; reflexivity.
  - split; reflexivity.
  - congruence.
  - now apply totals_settled.
  - unfold insertsTotal, failuresTotal, inFlight. cbn. rewrite Hps. split; reflexivity.
  - rewrite insertsTotal_dispatched, failuresTotal_dispatched.
    unfold insertsTotal, failuresTotal, inFlight. cbn. rewrite Hps. split; reflexivity.
  - unfold insertsTotal, failuresTotal, inFlight. cbn. rewrite Hps. cbn.
    rewrite Hc'. split; reflexivity.
Qed.

(** *** Work left: every event of the event loop uses some up *)

Arguments sumOf : simpl never.

Lemma sumOf_nil {A : Type} (g : A -> nat) : sumOf g [] = 0.
Proof. reflexivity. Qed.

(** Reduce the projections of the worlds the operations build, and the sums
    over the lists they hold. *)
Ltac projections :=
  cbn [mq passes timers console inserts queue processing batchSize maxRetries
       processingInterval with_queue with_processing with_passes
       pushed flagged dispatched clear retries passWeight pendingOf] in *.

Ltac fields :=
  projections; rewrite ?sumOf_app, ?sumOf_cons, ?sumOf_nil in *; projections.

Lemma itemWeight_pendingWeight (mr : nat) (l : list (QueueItem Data)) :
  sumOf (itemWeight mr) l = sumOf (pendingWeight mr) l + 2 * List.length l.
Proof.
  induction l as [| item l IH]; [reflexivity |].
  rewrite !sumOf_cons, IH. unfold itemWeight, pendingWeight. cbn [List.length]. lia.
Qed.

Lemma sumOf_split {A : Type} (g : A -> nat) (n : nat) (l : list A) :
  sumOf g l = sumOf g (firstn n l) + sumOf g (skipn n l).
Proof. now rewrite <- sumOf_app, firstn_skipn. Qed.

Lemma workLeft_dispatched (w : World Data) :
  workLeft (dispatched w)
  + 2 * List.length (firstn (batchSize (mq w)) (queue (mq w)))
  = workLeft w + 2.
Proof.
  unfold workLeft. fields.
  rewrite (sumOf_split (itemWeight _) (batchSize (mq w)) (queue (mq w))).
  rewrite (itemWeight_pendingWeight _ (firstn _ _)). lia.
Qed.

Lemma firstn_nonempty {A : Type} (n : nat) (l : list A) :
  0 < n -> l <> [] -> 1 <= List.length (firstn n l).
Proof.
  intros Hn Hl. destruct l as [| x l]; [congruence |].
  destruct n as [| n]; [lia |]. cbn. lia.
Qed.

Lemma workLeft_dispatched_le (w : World Data) :
  0 < batchSize (mq w) -> queue (mq w) <> [] ->
  workLeft (dispatched w) <= workLeft w.
Proof.
  intros Hb Hq. pose proof (workLeft_dispatched w) as H.
  pose proof (firstn_nonempty _ _ Hb Hq). lia.
Qed.

Lemma workLeft_pushed (item : QueueItem Data) (w : World Data) :
  workLeft (pushed item w) = workLeft w + itemWeight (maxRetries (mq w)) item.
Proof. unfold workLeft. fields. lia. Qed.

Lemma transition_work (w w' : World Data) (e : Event Data) :
  Transition w e w' -> 0 < batchSize (mq w) ->
  workLeft w' + (if internal e then 1 else 0)
  <= workLeft w + 3 * S (maxRetries (mq w)) * List.length (enqueued [e]).
Proof.
  intros H Hb.
  destruct H as [w d f now Hps Hpr Hq | w d f now Hpr | w | w
                 | w pending i item Hps Hi | w Hps Hq | w Hps Hq | w c Hps Hc' Hq];
    cbn [internal enqueued List.length].
  - pose proof (workLeft_dispatched_le (flagged true (pushed (mkItem d f 0 now) w)))
      as H.
    assert (Hne : queue (mq w) ++ [mkItem d f 0 now] <> [])
      by (intros E; now apply app_eq_nil in E as [_ E]).
    specialize (H Hb Hne).
    change (workLeft (flagged true (pushed (mkItem d f 0 now) w)))
      with (workLeft (pushed (mkItem d f 0 now) w)) in H.
    rewrite workLeft_pushed in H. unfold itemWeight in H. fields. lia.
  - rewrite workLeft_pushed. unfold itemWeight. fields. lia.
  - lia.
  - unfold workLeft. fields. lia.
  - pose proof (sumOf_perm (pendingWeight (maxRetries (mq w))) _ _
                  (removeAt_perm i pending item Hi)) as Hsum.
    unfold settleItem.
    destruct (insertFunction item (data item) (retries item)) as [| error];
      [| destruct (retries item <? _) eqn:El;
         [apply Nat.ltb_lt in El | apply Nat.ltb_ge in El]];
      unfold workLeft; rewrite Hps; fields;
      unfold itemWeight, pendingWeight in *; fields; lia.
  - unfold workLeft. rewrite Hps. fields. lia.
  - pose proof (workLeft_dispatched_le (with_passes w [])) as H.
    specialize (H Hb Hq).
    assert (workLeft (with_passes w []) + 1 = workLeft w)
      by (unfold workLeft; rewrite Hps; fields; lia).
    lia.
  - unfold workLeft. rewrite Hps. fields. destruct c; fields; lia.
Qed.

(** *** Batches and the length of the queue *)

Lemma transition_batches (w w' : World Data) (e : Event Data) :
  Transition w e w' ->
  Forall (fun c => List.length (pendingOf c) <= batchSize (mq w)) (passes w) ->
  Forall (fun c => List.length (pendingOf c) <= batchSize (mq w')) (passes w').
Proof.
  intros H Hall.
  destruct (transition_config _ _ _ H) as [Eb _]. rewrite Eb. clear Eb.
  destruct H as [w d f now Hps Hpr Hq | w d f now Hpr | w | w
                 | w pending i item Hps Hi | w Hps Hq | w Hps Hq | w c Hps Hc' Hq];
    try assumption.
  - cbn. rewrite Hps. cbn. repeat constructor. cbn. apply firstn_le_length.
  - assert (Ep : passes (settleItem item
                   (with_passes w [AwaitAllSettled (removeAt i pending)]))
                 = [AwaitAllSettled (removeAt i pending)]).
    { unfold settleItem. destruct (insertFunction _ _ _); [reflexivity |].
      destruct (_ <? _); reflexivity. }
    rewrite Ep. rewrite Hps in Hall. inversion Hall as [| ? ? Hc _]; subst.
    repeat constructor. cbn in *.
    pose proof (removeAt_length i pending item Hi). lia.
  - cbn. repeat constructor. cbn. lia.
  - cbn. repeat constructor. cbn. apply firstn_le_length.
  - cbn. constructor.
Qed.

Lemma transition_count (w w' : World Data) (e : Event Data) :
  Transition w e w' ->
  List.length (queue (mq w')) + List.length (inFlight w')
  <= List.length (queue (mq w)) + List.length (inFlight w)
     + List.length (enqueued [e]).
Proof.
  intros H.
  assert (Hd : forall x : World Data,
             List.length (queue (mq (dispatched x)))
             + List.length (inFlight (dispatched x))
             = List.length (queue (mq x)) + List.length (inFlight x)).
  { intros x. unfold inFlight, dispatched. cbn.
    rewrite flat_map_app, length_app. cbn. rewrite app_nil_r.
    rewrite <- (firstn_skipn (batchSize (mq x)) (queue (mq x))) at 3.
    rewrite length_app. lia. }
  destruct H as [w d f now Hps Hpr Hq | w d f now Hpr | w | w
                 | w pending i item Hps Hi | w Hps Hq | w Hps Hq | w c Hps Hc' Hq];
    cbn [enqueued List.length].
  - rewrite Hd. unfold inFlight. cbn. rewrite length_app. cbn. lia.
  - unfold inFlight. cbn. rewrite length_app. cbn. lia.
  - lia.
  - unfold inFlight. cbn. lia.
  - pose proof (removeAt_length i pending item Hi) as Hl.
    unfold inFlight. rewrite Hps. unfold settleItem.
    destruct (insertFunction _ _ _); [| destruct (_ <? _)]; cbn;
      rewrite ?length_app, ?app_nil_r; cbn; lia.
  - unfold inFlight. rewrite Hps. cbn. lia.
  - rewrite Hd. unfold inFlight. rewrite Hps. cbn. lia.
  - unfold inFlight. rewrite Hps. cbn. lia.
Qed.

(** *** Runs *)

Lemma expectedInserts_app (mr : nat) (l l' : list (Data * InsertFunction Data)) :
  expectedInserts mr (l ++ l') = expectedInserts mr l ++ expectedInserts mr l'.
Proof. apply flat_map_app. Qed.

Lemma expectedFailures_app (mr : nat) (l l' : list (Data * InsertFunction Data)) :
  expectedFailures mr (l ++ l') = expectedFailures mr l ++ expectedFailures mr l'.
Proof. apply flat_map_app. Qed.

Lemma withoutClear_cons (e : Event Data) (tr : list (Event Data)) :
  withoutClear (e :: tr) -> e <> Clear /\ withoutClear tr.
Proof.
  intros H. inversion H as [| ? ? He Htr]; subst. split; [| assumption].
  intros ->. discriminate.
Qed.

Lemma loop_only (tr : list (Event Data)) :
  Forall (fun e => internal e = true) tr ->
  withoutClear tr /\ enqueued tr = [] /\ List.length (filter (@internal Data) tr) = List.length tr.
Proof.
  induction 1 as [| e tr He Htr [IH1 [IH2 IH3]]].
  - repeat split. constructor.
  - repeat split.
    + constructor; [destruct e; try discriminate; reflexivity | assumption].
    + destruct e; try discriminate; assumption.
    + cbn [filter]. rewrite He. cbn [List.length]. now rewrite IH3.
Qed.

(** Along a run from a world that satisfies [idle]: the parameters stay, the
    work left pays for every event of the event loop, batches stay within
    the batch size, and the queue holds no more than was enqueued. *)
Lemma exec_bounds (tr : list (Event Data)) (w w' : World Data) :
  idle w -> 0 < batchSize (mq w) -> exec tr w = Some w' ->
  batchSize (mq w') = batchSize (mq w)
  /\ maxRetries (mq w') = maxRetries (mq w)
  /\ workLeft w' + List.length (filter (@internal Data) tr)
     <= workLeft w + 3 * S (maxRetries (mq w)) * List.length (enqueued tr)
  /\ (Forall (fun c => List.length (pendingOf c) <= batchSize (mq w)) (passes w) ->
      Forall (fun c => List.length (pendingOf c) <= batchSize (mq w')) (passes w'))
  /\ List.length (queue (mq w')) + List.length (inFlight w')
     <= List.length (queue (mq w)) + List.length (inFlight w)
        + List.length (enqueued tr).
Proof.
  revert w. induction tr as [| e tr IH]; intros w Hi Hb He; cbn [exec] in He.
  - injection He as <-. cbn. repeat split; try lia. auto.
  - destruct (step e w) as [w1 |] eqn:Es; [| discriminate].
    pose proof (step_transition e w w1 Hi Es) as Ht.
    pose proof (step_idle e w w1 Hi Es) as Hi1.
    destruct (transition_config _ _ _ Ht) as [Eb Em].
    pose proof (transition_work _ _ _ Ht Hb) as Hw.
    pose proof (transition_batches _ _ _ Ht) as Hbat.
    pose proof (transition_count _ _ _ Ht) as Hcnt.
    assert (Hb1 : 0 < batchSize (mq w1)) by lia.
    destruct (IH w1 Hi1 Hb1 He) as [Eb' [Em' [Hw' [Hbat' Hcnt']]]].
    rewrite Eb, Em in *.
    rewrite (enqueued_one e tr), length_app.
    repeat split; try assumption.
    + cbn [filter]. destruct (internal e); cbn [List.length]; nia.
    + intros Hall. apply Hbat'. now apply Hbat.
    + lia.
Qed.

(** Along a run without [clear()] the accounts grow by what is enqueued. *)
Lemma exec_totals (tr : list (Event Data)) (w w' : World Data) :
  idle w -> withoutClear tr -> exec tr w = Some w' ->
  let mr := maxRetries (mq w) in
  Permutation (insertsTotal w') (insertsTotal w ++ expectedInserts mr (enqueued tr))
  /\ Permutation (failuresTotal w')
                 (failuresTotal w ++ expectedFailures mr (enqueued tr)).
Proof.
  revert w. induction tr as [| e tr IH]; intros w Hi Htr He mr; subst mr;
    cbn [exec] in He.
  - injection He as <-. cbn. rewrite !app_nil_r. split; reflexivity.
  - destruct (step e w) as [w1 |] eqn:Es; [| discriminate].
    apply withoutClear_cons in Htr as [Hc Htr].
    pose proof (step_transition e w w1 Hi Es) as Ht.
    pose proof (step_idle e w w1 Hi Es) as Hi1.
    destruct (transition_config _ _ _ Ht) as [_ Em].
    destruct (transition_totals _ _ _ Ht Hc) as [H1 H2].
    destruct (IH w1 Hi1 Htr He) as [H1' H2'].
    rewrite Em in H1', H2'.
    rewrite (enqueued_one e tr), expectedInserts_app, expectedFailures_app.
    rewrite H1', H2', H1, H2. split; aac_reflexivity.
Qed.

(** When nothing is left to run the queue is empty and the accounts are
    closed. *)
Lemma quiescent_totals (w : World Data) :
  idle w -> quiescent w = true ->
  queue (mq w) = [] /\ processing (mq w) = false /\ passes w = []
  /\ insertsTotal w = inserts w /\ failuresTotal w = console w.
Proof.
  intros [Hsp [Hq _]] Hqu. unfold quiescent in Hqu.
  destruct (passes w) as [| c ps] eqn:Ep; [| discriminate].
  unfold singlePass in Hsp. rewrite Ep in Hsp.
  unfold insertsTotal, failuresTotal, inFlight. rewrite Ep, (Hq Hsp).
  cbn. rewrite !app_nil_r. repeat split; auto.
Qed.

(** The schedule of [drain] always has an event to run until nothing is
    left. *)
Lemma nextEvent_enabled (w : World Data) (e : Event Data) :
  nextEvent w = Some e -> internal e = true /\ exists w1, step e w = Some w1.
Proof.
  unfold nextEvent. intros H.
  destruct (passes w) as [| [[| item pending] |] ps] eqn:Ep.
  - destruct (timers w) as [| n] eqn:Et; [discriminate |].
    injection H as <-. split; [reflexivity |]. cbn [step]. rewrite Et. eauto.
  - injection H as <-. split; [reflexivity |]. cbn [step]. unfold resume.
    rewrite Ep. cbn [nth_error]. destruct (0 <? _); eauto.
  - injection H as <-. split; [reflexivity |]. cbn [step]. unfold settle.
    rewrite Ep. cbn [nth_error]. eauto.
  - injection H as <-. split; [reflexivity |]. cbn [step]. unfold resume.
    rewrite Ep. cbn [nth_error]. eauto.
Qed.

Lemma nextEvent_none (w : World Data) :
  nextEvent w = None -> quiescent w = true.
Proof.
  unfold nextEvent, quiescent.
  destruct (passes w) as [| [[| item pending] |] ps]; try discriminate.
  destruct (timers w); [reflexivity | discriminate].
Qed.

(** With fuel for the work left, [drain] runs the event loop to the end. *)
Lemma drain_completes (fuel : nat) (w : World Data) :
  idle w -> 0 < batchSize (mq w) -> workLeft w <= fuel ->
  exists tr w',
    drain fuel w = Some w'
    /\ exec tr w = Some w'
    /\ Forall (fun e => internal e = true) tr
    /\ quiescent w' = true.
Proof.
  revert w. induction fuel as [| fuel IH]; intros w Hi Hb Hw.
  - destruct (nextEvent w) as [e |] eqn:En.
    + destruct (nextEvent_enabled w e En) as [Hint [w1 Es]].
      pose proof (transition_work _ _ _ (step_transition e w w1 Hi Es) Hb) as H.
      rewrite Hint in H. destruct e; try discriminate; cbn in H; lia.
    + exists [], w. cbn [drain]. rewrite En. repeat split.
      * constructor.
      * now apply nextEvent_none.
  - destruct (nextEvent w) as [e |] eqn:En.
    + destruct (nextEvent_enabled w e En) as [Hint [w1 Es]].
      pose proof (step_transition e w w1 Hi Es) as Ht.
      pose proof (transition_work _ _ _ Ht Hb) as H.
      destruct (transition_config _ _ _ Ht) as [Eb _].
      rewrite Hint in H.
      assert (He : enqueued [e] = []) by (destruct e; try discriminate; reflexivity).
      rewrite He in H. cbn [List.length] in H.
      assert (Hb1 : 0 < batchSize (mq w1)) by lia.
      assert (Hw1 : workLeft w1 <= fuel) by lia.
      destruct (IH w1 (step_idle e w w1 Hi Es) Hb1 Hw1)
        as [tr [w' [Hd [Hx [Hall Hq]]]]].
      exists (e :: tr), w'. cbn [drain exec]. rewrite En, Es.
      repeat split; try assumption. now constructor.
    + exists [], w. cbn [drain]. rewrite En. repeat split.
      * constructor.
      * now apply nextEvent_none.
Qed.

Lemma exec_app (tr tr' : list (Event Data)) (w w1 w2 : World Data) :
  exec tr w = Some w1 -> exec tr' w1 = Some w2 -> exec (tr ++ tr') w = Some w2.
Proof.
  revert w. induction tr as [| e tr IH]; intros w H1 H2; cbn [exec app] in *.
  - now injection H1 as ->.
  - destruct (step e w) as [w0 |]; [| discriminate]. now apply IH.
Qed.

Lemma enqueued_app (tr tr' : list (Event Data)) :
  enqueued (tr ++ tr') = enqueued tr ++ enqueued tr'.
Proof.
  induction tr as [| e tr IH]; [reflexivity |].
  cbn [app]. rewrite (enqueued_one e (tr ++ tr')), (enqueued_one e tr), IH.
  now rewrite app_assoc.
Qed.

(** A run from the initial world, followed by events of the event loop
    until nothing is left to run. *)
Lemma run_to_quiescence
    (tr tr' : list (Event Data)) (w w' : World Data) :
  withoutClear tr -> exec tr initial = Some w ->
  Forall (fun e => internal e = true) tr' -> exec tr' w = Some w' ->
  idle w'
  /\ batchSize (mq w') = 10 /\ maxRetries (mq w') = 3
  /\ List.length (filter (@internal Data) tr) + List.length tr'
     <= 12 * List.length (enqueued tr)
  /\ Forall (fun c => List.length (pendingOf c) <= 10) (passes w')
  /\ List.length (queue (mq w')) <= List.length (enqueued tr)
  /\ (quiescent w' = true ->
      queue (mq w') = [] /\ processing (mq w') = false
      /\ Permutation (inserts w') (expectedInserts 3 (enqueued tr))
      /\ Permutation (console w') (expectedFailures 3 (enqueued tr))).
Proof.
  intros Htr He Htr' He'.
  destruct (loop_only tr' Htr') as [Hl [Hn Hlen]].
  pose proof (exec_app tr tr' _ _ _ He He') as Hrun.
  assert (Hall : withoutClear (tr ++ tr')) by (apply Forall_app; now split).
  pose proof (exec_idle _ _ _ (idle_initial) Hrun) as Hi.
  destruct (exec_bounds (tr ++ tr') initial w' idle_initial ltac:(cbn; lia) Hrun)
    as [Eb [Em [Hw [Hbat Hcnt]]]].
  destruct (exec_totals (tr ++ tr') initial w' idle_initial Hall Hrun) as [H1 H2].
  rewrite enqueued_app, Hn, app_nil_r in *.
  rewrite filter_app, length_app, Hlen in Hw.
  change (workLeft initial) with 0 in Hw.
  cbn in Eb, Em, Hw, Hcnt, H1, H2.
  split; [assumption |]. split; [assumption |]. split; [assumption |].
  split; [lia |].
  split; [rewrite Eb in Hbat; apply Hbat; constructor |].
  split; [lia |].
  intros Hq. destruct (quiescent_totals w' Hi Hq) as (E1 & E2 & _ & E4 & E5).
  rewrite <- E4, <- E5. repeat split; assumption.
Qed.

(** From every world of such a run the event loop can be run to the end. *)
Lemma run_completes (tr : list (Event Data)) (w : World Data) :
  exec tr initial = Some w ->
  exists tr' w',
    drain (workLeft w) w = Some w'
    /\ exec tr' w = Some w'
    /\ Forall (fun e => internal e = true) tr'
    /\ quiescent w' = true.
Proof.
  intros He.
  pose proof (exec_idle _ _ _ idle_initial He) as Hi.
  destruct (exec_bounds tr initial w idle_initial ltac:(cbn; lia) He) as [Eb _].
  apply drain_completes; [assumption | rewrite Eb; cbn; lia | lia].
Qed.

(** *** What is expected of items that always succeed or always fail *)

Lemma expected_succeeding (mr : nat) (items : list (Data * InsertFunction Data)) :
  (forall d f, In (d, f) items -> alwaysSucceeds d f) ->
  expectedInserts mr items = map (fun x => (fst x, 0)) items
  /\ expectedFailures mr items = [].
Proof.
  induction items as [| [d f] items IH]; intros H; [split; reflexivity |].
  destruct IH as [IH1 IH2]; [intros d' f' Hin; apply H; now right |].
  unfold expectedInserts, expectedFailures in *. cbn [flat_map map fst snd].
  rewrite IH1, IH2.
  pose proof (H d f (or_introl eq_refl) 0) as E.
  destruct mr; cbn; rewrite E; split; reflexivity.
Qed.

Lemma attemptsFrom_failing (d : Data) (f : InsertFunction Data) (budget k : nat) :
  alwaysFails d f ->
  attemptsFrom d f budget k = map (fun j => (d, j)) (seq k (S budget)).
Proof.
  intros H. revert k. induction budget as [| budget IH]; intros k.
  - cbn. destruct (f d k); reflexivity.
  - cbn [attemptsFrom]. specialize (H k).
    destruct (f d k) as [| error]; [congruence |].
    rewrite IH. reflexivity.
Qed.

Lemma failureFrom_failing
    (n : nat) (d : Data) (f : InsertFunction Data) (budget k : nat) :
  alwaysFails d f ->
  failureFrom n d f budget k
  = [FailedAfterRetries n d (errorOf (f d (k + budget)))].
Proof.
  intros H. revert k. induction budget as [| budget IH]; intros k.
  - cbn. rewrite Nat.add_0_r. specialize (H k).
    destruct (f d k) as [| error]; [congruence | reflexivity].
  - cbn [failureFrom]. specialize (H k).
    destruct (f d k) as [| error]; [congruence |].
    rewrite IH. now rewrite Nat.add_succ_r.
Qed.

Lemma expected_failing (mr : nat) (items : list (Data * InsertFunction Data)) :
  (forall d f, In (d, f) items -> alwaysFails d f) ->
  expectedInserts mr items = flat_map (fun x => initialPlusRetries (fst x) mr) items
  /\ expectedFailures mr items
     = map (fun x => FailedAfterRetries mr (fst x) (errorOf (snd x (fst x) mr))) items.
Proof.
  induction items as [| [d f] items IH]; intros H; [split; reflexivity |].
  destruct IH as [IH1 IH2]; [intros d' f' Hin; apply H; now right |].
  unfold expectedInserts, expectedFailures in *. cbn [flat_map map fst snd].
  rewrite IH1, IH2.
  rewrite (attemptsFrom_failing d f mr 0 (H d f (or_introl eq_refl))).
  rewrite (failureFrom_failing mr d f mr 0 (H d f (or_introl eq_refl))).
  split; reflexivity.
Qed.

(** *** The claims about the queue *)

(** C8: in every world the queue can reach by calls of [enqueue],
    [processQueue] and [clear] and by events of the event loop (promises
    settling, invocations resuming, timers firing), at most one invocation
    of [processQueue] is under way, and the flag [processing] is set exactly
    when one is.  A call of [processQueue] while the flag is set changes
    nothing; a call that starts a pass sets the flag first and dispatches
    the batch after; and the flag goes from set to cleared only in the step
    in which the invocation under way ends. *)
Theorem C8_single_processing_pass (tr : list (Event Data)) (w : World Data) :
  exec tr initial = Some w ->
  List.length (passes w) <= 1
  /\ (processing (mq w) = true <-> passes w <> [])
  /\ (processing (mq w) = true -> processQueue w = w)
  /\ (forall w0 : World Data,
        processQueue w0 = w0
        \/ (processing (mq w0) = false
            /\ processQueue w0 = dispatched (flagged true w0)))
  /\ (forall (e : Event Data) (w' : World Data),
        step e w = Some w' ->
        processing (mq w) = true -> processing (mq w') = false ->
        passes w' = [] /\ e = Resumes 0).
Proof.
  intros He. pose proof (exec_idle _ _ _ idle_initial He) as Hi.
  pose proof Hi as [Hsp _].
  split; [| split; [| split; [| split]]].
  - destruct (singlePass_cases w Hsp) as [[-> _] | [c [-> _]]]; cbn; lia.
  - destruct (singlePass_cases w Hsp) as [[Hps Hpr] | [c [Hps Hpr]]];
      rewrite Hps, Hpr; split; congruence.
  - intros Hpr. apply processQueue_guarded. now left.
  - intros w0. destruct (processing (mq w0)) eqn:Hpr.
    + left. apply processQueue_guarded. now left.
    + destruct (queue (mq w0)) as [| x q] eqn:Hq.
      * left. apply processQueue_guarded. now right.
      * right. split; [reflexivity |].
        rewrite processQueue_starts by congruence. reflexivity.
  - intros e w' Hs Hpr Hpr'.
    pose proof (step_transition e w w' Hi Hs) as Ht.
    destruct Ht as [w d f now Hps Hpr0 Hq | w d f now Hpr0 | w | w
                    | w pending i item Hps Hi' | w Hps Hq | w Hps Hq
                    | w c Hps Hc' Hq];
      try (cbn in Hpr'; congruence).
    + unfold settleItem in Hpr'.
      destruct (insertFunction _ _ _); [| destruct (_ <? _)];
        cbn in Hpr'; congruence.
    + split; reflexivity.
Qed.

(** C7: after any number N of items with an always-succeeding insert
    operation were enqueued (in any interleaving with calls of
    [processQueue] and with the events of the event loop, [clear()] aside),
    the event loop can be run to the end, and however it runs:
    it stops after at most 12 N events, no batch in flight has more than
    [batchSize] = 10 items, and when nothing is left to run the queue is
    empty, the flag is cleared, nothing was logged, and the insert
    operation was called exactly once for each of the N items. *)
Theorem C7_succeeding_items_inserted_once
    (tr : list (Event Data)) (w : World Data) :
  withoutClear tr ->
  (forall d f, In (d, f) (enqueued tr) -> alwaysSucceeds d f) ->
  exec tr initial = Some w ->
  (exists tr' w',
     drain (workLeft w) w = Some w'
     /\ exec tr' w = Some w'
     /\ Forall (fun e => internal e = true) tr'
     /\ quiescent w' = true)
  /\ (forall tr' w',
        Forall (fun e => internal e = true) tr' -> exec tr' w = Some w' ->
        List.length tr' <= 12 * List.length (enqueued tr)
        /\ batchSize (mq w') = 10
        /\ Forall (fun c => List.length (pendingOf c) <= 10) (passes w')
        /\ (quiescent w' = true ->
            queue (mq w') = []
            /\ processing (mq w') = false
            /\ console w' = []
            /\ Permutation (inserts w') (map (fun x => (fst x, 0)) (enqueued tr)))).
Proof.
  intros Htr Hok He. split; [now apply (run_completes tr) |].
  intros tr' w' Htr' He'.
  destruct (run_to_quiescence tr tr' w w' Htr He Htr' He')
    as (_ & Eb & _ & Hlen & Hbat & _ & Hfinal).
  destruct (expected_succeeding 3 (enqueued tr) Hok) as [E1 E2].
  rewrite E1, E2 in Hfinal.
  split; [lia |]. split; [assumption |]. split; [assumption |].
  intros Hq. destruct (Hfinal Hq) as (Hqe & Hpr & Hins & Hcon).
  repeat split; try assumption.
  apply Permutation_sym, Permutation_nil in Hcon. assumption.
Qed.

(** C3: an item whose insert operation fails is re-appended to the tail of
    the queue with its retry count increased while the count is below
    [maxRetries], and is dropped with a logged terminal failure otherwise.
    Along every run without [clear()], whatever else is enqueued, the queue
    never holds more items than were enqueued, the event loop can be run to the end, and when
    nothing is left to run the queue is empty and every item whose insert
    operation always fails has had its initial attempt followed by exactly
    [maxRetries] = 3 retries and exactly one logged terminal failure. *)
Theorem C3_failing_items_retried_then_dropped
    (tr : list (Event Data)) (w : World Data)
    (failing rest : list (Data * InsertFunction Data)) :
  withoutClear tr ->
  exec tr initial = Some w ->
  Permutation (enqueued tr) (failing ++ rest) ->
  (forall d f, In (d, f) failing -> alwaysFails d f) ->
  (forall (item : QueueItem Data) (w0 : World Data) (error : Error),
     insertFunction item (data item) (retries item) = Rejected error ->
     (retries item < maxRetries (mq w0) ->
      settleItem item w0
      = pushed (mkItem (data item) (insertFunction item) (S (retries item))
                  (timestamp item)) w0)
     /\ (~ retries item < maxRetries (mq w0) ->
         queue (mq (settleItem item w0)) = queue (mq w0)
         /\ console (settleItem item w0)
            = console w0
              ++ [FailedAfterRetries (maxRetries (mq w0)) (data item) error]))
  /\ maxRetries (mq w) = 3
  /\ List.length (queue (mq w)) <= List.length (enqueued tr)
  /\ (exists tr' w',
        drain (workLeft w) w = Some w'
        /\ exec tr' w = Some w'
        /\ Forall (fun e => internal e = true) tr'
        /\ quiescent w' = true)
  /\ (forall tr' w',
        Forall (fun e => internal e = true) tr' -> exec tr' w = Some w' ->
        quiescent w' = true ->
        queue (mq w') = []
        /\ Permutation (inserts w')
             (flat_map (fun x => initialPlusRetries (fst x) 3) failing
              ++ expectedInserts 3 rest)
        /\ Permutation (console w')
             (map (fun x => FailedAfterRetries 3 (fst x) (errorOf (snd x (fst x) 3)))
                  failing
              ++ expectedFailures 3 rest)).
Proof.
  intros Htr He Hsplit Hfail.
  split; [| split; [| split; [| split]]].
  - intros item w0 error Eo. unfold settleItem. rewrite Eo. split; intros Hlt.
    + apply Nat.ltb_lt in Hlt. now rewrite Hlt.
    + apply Nat.ltb_nlt in Hlt. rewrite Hlt. split; reflexivity.
  - now destruct (run_to_quiescence tr [] w w Htr He (Forall_nil _) eq_refl)
      as (_ & _ & Em & _).
  - now destruct (run_to_quiescence tr [] w w Htr He (Forall_nil _) eq_refl)
      as (_ & _ & _ & _ & _ & Hlen & _).
  - now apply (run_completes tr).
  - intros tr' w' Htr' He' Hq.
    destruct (run_to_quiescence tr tr' w w' Htr He Htr' He')
      as (_ & _ & _ & _ & _ & _ & Hfinal).
    destruct (Hfinal Hq) as (Hqe & _ & Hins & Hcon).
    destruct (expected_failing 3 failing Hfail) as [E1 E2].
    rewrite <- E1, <- E2, <- expectedInserts_app, <- expectedFailures_app.
    split; [assumption |]. split.
    + rewrite Hins. unfold expectedInserts. now apply Permutation_flat_map.
    + rewrite Hcon. unfold expectedFailures. now apply Permutation_flat_map.
Qed.

End WithData.

Lemma C8_single_processing_pass_witness :
  exists w : World nat,
    exec [Enqueue 1 accepts 0; Enqueue 2 accepts 1; CallProcessQueue;
          Settles 0 0; Resumes 0] initial = Some w
    /\ List.length (passes w) <= 1
    /\ (processing (mq w) = true <-> passes w <> []).
Proof.
  eexists. split; [reflexivity |].
  match goal with
  | |- List.length (passes ?w) <= 1 /\ _ =>
      pose proof (C8_single_processing_pass nat
                    [Enqueue 1 accepts 0; Enqueue 2 accepts 1; CallProcessQueue;
                     Settles 0 0; Resumes 0] w eq_refl) as H
  end.
  split; apply H.
Defined.

Lemma C7_succeeding_items_inserted_once_witness :
  let tr := [Enqueue 1 accepts 0; Enqueue 2 accepts 0; Enqueue 3 accepts 0] in
  let w := enqueue 3 accepts 0 (enqueue 2 accepts 0 (enqueue 1 accepts 0 initial)) in
  exists tr' w',
    drain (workLeft w) w = Some w'
    /\ exec tr' w = Some w'
    /\ queue (mq w') = []
    /\ Permutation (inserts w') [(1, 0); (2, 0); (3, 0)].
Proof.
  intros tr w.
  assert (Htr : withoutClear tr) by (repeat constructor).
  assert (Hok : forall d f, In (d, f) (enqueued tr) -> alwaysSucceeds d f).
  { intros d f [E | [E | [E | []]]]; injection E as <- <-; intros k; reflexivity. }
  destruct (C7_succeeding_items_inserted_once nat tr w Htr Hok eq_refl)
    as [(tr' & w' & Hd & Hx & Hall & Hq) Hany].
  exists tr', w'. split; [assumption |]. split; [assumption |].
  destruct (Hany tr' w' Hall Hx) as (_ & _ & _ & Hfinal).
  destruct (Hfinal Hq) as (Hqe & _ & _ & Hins).
  split; assumption.
Defined.

Lemma C3_failing_items_retried_then_dropped_witness :
  let tr := [Enqueue 7 refuses 0; Enqueue 8 accepts 0] in
  let w := enqueue 8 accepts 0 (enqueue 7 refuses 0 initial) in
  exists tr' w',
    drain (workLeft w) w = Some w'
    /\ exec tr' w = Some w'
    /\ queue (mq w') = []
    /\ Permutation (inserts w') [(7, 0); (7, 1); (7, 2); (7, 3); (8, 0)]
    /\ Permutation (console w') [FailedAfterRetries 3 7 "timeout"%string].
Proof.
  intros tr w.
  assert (Htr : withoutClear tr) by (repeat constructor).
  assert (Hfail : forall d f, In (d, f) [(7, refuses)] -> alwaysFails d f).
  { intros d f [E | []]; injection E as <- <-; intros k; discriminate. }
  destruct (C3_failing_items_retried_then_dropped nat tr w
              [(7, refuses)] [(8, accepts)] Htr eq_refl (Permutation_refl _) Hfail)
    as (_ & _ & _ & (tr' & w' & Hd & Hx & Hall & Hq) & Hany).
  exists tr', w'. split; [assumption |]. split; [assumption |].
  destruct (Hany tr' w' Hall Hx Hq) as (Hqe & Hins & Hcon).
  repeat split; assumption.
Defined.

End QueueProofs.

(* ===================================================================== *)
(** * Properties of the interaction-tracking endpoint *)
(* ===================================================================== *)

Module ControllerProofs.
Import Controller.

Local Open Scope string_scope.

Lemma validTypes_cases (t : string) :
  In t validTypes <-> t = "view" \/ t = "like" \/ t = "share" \/ t = "click".
Proof.
  unfold validTypes. cbn [In]. split.
  - intros [H | [H | [H | [H | []]]]]; subst; auto.
  - intros [H | [H | [H | H]]]; subst; auto.
Qed.

Lemma includes_In (l : list string) (t : string) :
  includes l (Some t) = true <-> In t l.
Proof.
  cbn [includes]. rewrite existsb_exists. split.
  - intros [x [Hin He]]. apply String.eqb_eq in He. now subst.
  - intros Hin. exists t. split; [assumption | apply String.eqb_refl].
Qed.

(** Every type the handler lets through is in the [enum] of the schema. *)
Lemma validTypes_in_schema (t : string) :
  In t validTypes -> In t schemaInteractionTypes.
Proof.
  rewrite validTypes_cases. unfold schemaInteractionTypes. cbn [In].
  intros [H | [H | [H | H]]]; subst; auto 6.
Qed.

Lemma invalid_rejected {Data : Type} :
  rejectedBeforeStore (@invalidInteractionType Data).
Proof. split; [eexists; reflexivity | reflexivity]. Qed.

Lemma valid_type_proceeds {Stored : Type}
    (store : Store Stored) (now : Date) (req : Request) (t : string) :
  body_interactionType req = Some t -> In t validTypes ->
  proceedsToCreate store req (trackInteraction store now req).
Proof.
  intros Hb Hin. unfold proceedsToCreate, trackInteraction. rewrite Hb.
  apply includes_In in Hin as Hinc. rewrite Hinc. cbn [negb].
  destruct (Movie_findById store (params_id req)) as [[m |] | e] eqn:Ef.
  - destruct (UserInteraction_create store _) as [i | e];
      [destruct (String.eqb t "like");
       [destruct (User_findByIdAndUpdate store _ _) |] |];
      cbn [fst snd];
      (split; [intros [_ Hs]; discriminate Hs |]);
      (split; [eexists; reflexivity |]);
      intros m' _; eexists; (split; [right; left; reflexivity | reflexivity]).
  - split; [intros [_ Hs]; discriminate Hs |].
    split; [eexists; reflexivity |]. intros m' Hm'. discriminate Hm'.
  - split; [intros [_ Hs]; discriminate Hs |].
    split; [eexists; reflexivity |]. intros m' Hm'. discriminate Hm'.
Qed.

Lemma other_type_rejected {Stored : Type}
    (store : Store Stored) (now : Date) (req : Request) :
  (forall t, body_interactionType req = Some t -> ~ In t validTypes) ->
  rejectedBeforeStore (trackInteraction store now req).
Proof.
  intros H. unfold trackInteraction.
  destruct (body_interactionType req) as [t |]; [| apply invalid_rejected].
  destruct (includes validTypes (Some t)) eqn:E.
  - apply includes_In in E. now destruct (H t eq_refl).
  - apply invalid_rejected.
Qed.

(** C4 (as the code has it): the handler accepts exactly the interaction
    types view, like, share and click.  However the store answers, a
    request with one of them proceeds to create the record: it passes the
    type check, the movie is looked up, and for a movie found the creation
    of the record is called with that type; a request with any other type,
    or without one, is rejected with the 400 validation error before any
    store is read or written.  "search" is among the rejected, although the
    schema lists it. *)
Theorem C4_accepts_view_like_share_click :
  acceptsExactly validTypes
  /\ validTypes = ["view"; "like"; "share"; "click"]
  /\ (forall t, In t validTypes -> In t schemaInteractionTypes)
  /\ In "search" schemaInteractionTypes
  /\ (forall (Stored : Type) (store : Store Stored) (now : Date) (req : Request),
        body_interactionType req = Some "search" ->
        rejectedBeforeStore (trackInteraction store now req)).
Proof.
  split; [| split; [reflexivity | split; [exact validTypes_in_schema | split]]].
  - intros Stored store now req. split.
    + intros t. apply valid_type_proceeds.
    + apply other_type_rejected.
  - unfold schemaInteractionTypes. cbn [In]. auto 6.
  - intros Stored store now req Hb. apply other_type_rejected.
    intros t Ht. rewrite Hb in Ht. injection Ht as <-.
    rewrite validTypes_cases. intros [H | [H | [H | H]]]; discriminate.
Qed.

(** C4 (as claimed) fails: "search" is one of the five claimed types, and a
    request with it for a movie the store holds is rejected by the type
    check instead of proceeding to create the record. *)
Lemma C4_search_is_rejected :
  let m := mkMovie "m1" "Heat" ["Crime"] "Michael Mann" 8 0%Z in
  let req := mkRequest "m1" (Some "search") None "u1" in
  let store := catalogStore [m] in
  In "search" schemaInteractionTypes
  /\ Movie_findById store (params_id req) = Resolves (Some m)
  /\ trackInteraction store 1000%Z req
     = (ApiError 400 "Invalid interaction type. Allowed: view, like, share, click", [])
  /\ ~ proceedsToCreate store req (trackInteraction store 1000%Z req)
  /\ ~ acceptsExactly schemaInteractionTypes.
Proof.
  intros m req store.
  assert (Hrej : rejectedBeforeStore (trackInteraction store 1000%Z req))
    by (split; [eexists; reflexivity | reflexivity]).
  assert (Hin : In "search" schemaInteractionTypes)
    by (unfold schemaInteractionTypes; cbn [In]; auto 6).
  split; [assumption |]. split; [reflexivity |]. split; [reflexivity |].
  split.
  - intros [Hn _]. now apply Hn.
  - intros Hacc. destruct (Hacc InteractionDoc store 1000%Z req) as [Hyes _].
    destruct (Hyes "search" eq_refl Hin) as [Hn _]. now apply Hn.
Qed.

End ControllerProofs.

(* ===================================================================== *)
(** * More on the scoring engine *)
(* ===================================================================== *)

Module EngineFacts.
Import JS Engine Feed EngineSpec EngineProofs FeedProofs.

Section AnyCalendar.

Context {calendar : Calendar}.

(** *** Letter case *)

Lemma existsb_lowered (x : string) (prefs : list string) :
  existsb (fun pref => String.eqb (toLowerCase pref) x) prefs
  = existsb (fun s => String.eqb s x) (map toLowerCase prefs).
Proof.
  induction prefs as [| p prefs IH]; [reflexivity |].
  cbn [existsb map]. now rewrite IH.
Qed.

Lemma matching_lowered (prefs genres : list string) :
  List.length
    (filter (fun g =>
               existsb (fun pref => String.eqb (toLowerCase pref) (toLowerCase g)) prefs)
            genres)
  = List.length
      (filter (fun x => existsb (fun s => String.eqb s x) (map toLowerCase prefs))
              (map toLowerCase genres)).
Proof.
  induction genres as [| g genres IH]; [reflexivity |].
  cbn [filter map]. rewrite existsb_lowered.
  destruct (existsb _ (map toLowerCase prefs)); cbn [List.length]; now rewrite IH.
Qed.

Lemma sameLowered_cases (a b : option (list string)) :
  sameLowered a b ->
  (a = None /\ b = None)
  \/ (exists x y, a = Some x /\ b = Some y
                  /\ map toLowerCase x = map toLowerCase y).
Proof.
  unfold sameLowered. destruct a as [x |], b as [y |]; cbn; intros E;
    try discriminate.
  - right. exists x, y. repeat split. congruence.
  - now left.
Qed.

(** X2: the genre weight and the director weight read the genres, the
    director and the preferences only through their lower-cased forms:
    changing the letter case of any of them changes neither weight, in any
    arithmetic. *)
Theorem X2_weights_ignore_letter_case
    {num : Type} `{Arith num}
    (genres genres' : list string) (d d' : string) (u u' : UserInteractions) :
  map toLowerCase genres = map toLowerCase genres' ->
  toLowerCase d = toLowerCase d' ->
  sameLowered (preferredGenres u) (preferredGenres u') ->
  sameLowered (preferredDirectors u) (preferredDirectors u') ->
  calculateGenreWeight genres u = calculateGenreWeight genres' u'
  /\ calculateDirectorWeight d u = calculateDirectorWeight d' u'.
Proof.
  intros Hg Hd Hpg Hpd. split.
  - unfold calculateGenreWeight.
    destruct (sameLowered_cases _ _ Hpg) as [[-> ->] | (x & y & -> & -> & E)];
      [reflexivity |].
    assert (El : List.length x = List.length y)
      by (rewrite <- (length_map toLowerCase x), E; apply length_map).
    assert (Eg : List.length genres = List.length genres')
      by (rewrite <- (length_map toLowerCase genres), Hg; apply length_map).
    rewrite El, Eg, !matching_lowered, E, Hg. reflexivity.
  - unfold calculateDirectorWeight.
    destruct (sameLowered_cases _ _ Hpd) as [[-> ->] | (x & y & -> & -> & E)];
      [reflexivity |].
    assert (El : List.length x = List.length y)
      by (rewrite <- (length_map toLowerCase x), E; apply length_map).
    now rewrite El, E, Hd.
Qed.

(** *** Exposure *)

Lemma interactionWeight_viewed {num : Type} `{Arith num}
    (id : ObjectId) (u : UserInteractions) :
  hasViewed u id -> calculateInteractionWeight id u = lit 0.1.
Proof.
  intros (vs & Ev & Hin). unfold calculateInteractionWeight. rewrite Ev.
  assert (E : existsb (fun v => String.eqb (viewedMovieId v) id) vs = true).
  { apply existsb_exists. apply in_map_iff in Hin as (v & Hv & Hin).
    exists v. split; [assumption |]. subst id. apply String.eqb_refl. }
  now rewrite E.
Qed.



(** *** Popularity *)

Lemma isRecentFor_countsFor (now : Date) (m : Movie) (i : Interaction) :
  isRecentFor now m i = true <-> countsFor (sevenDaysAgo now) m i.
Proof.
  unfold isRecentFor, timestampSince, countsFor, interactionTime.
  rewrite andb_true_iff, String.eqb_eq.
  destruct (metadata i) as [md |]; [destruct (timestamp md) as [t |] |].
  - rewrite Z.leb_le. split.
    + intros [E Ht]. split; [assumption |]. exists t. now split.
    + intros [E (t' & Et & Ht)]. injection Et as <-. now split.
  - split; [intros [_ E]; discriminate | intros [_ (t & E & _)]; discriminate].
  - split; [intros [_ E]; discriminate | intros [_ (t & E & _)]; discriminate].
Qed.

Lemma capped_ratio_le (n n' : nat) (d : Q) :
  0 < d -> (n <= n')%nat ->
  leb (min (div (ofNat n) (Fin d)) (Fin 1)) (min (div (ofNat n') (Fin d)) (Fin 1))
  = true.
Proof.
  intros Hd Hle.
  destruct (capped_ratio_fin n d Hd) as (q & -> & _ & Hq).
  destruct (capped_ratio_fin n' d Hd) as (q' & -> & _ & Hq').
  cbn [leb exact Exact.leb]. apply Qle_bool_iff. rewrite Hq, Hq'.
  apply Q.min_le_compat_r. apply Qmult_le_compat_r.
  - now apply inject_nat_le.
  - apply Qlt_le_weak, Qinv_lt_0_compat. assumption.
Qed.

(** X4: the popularity of a movie is [Math.min(count / 100, 1.0)], where
    count is the number of interactions on that movie whose timestamp is not
    before [sevenDaysAgo now], the instant the calendar of the host puts
    seven days before the clock reading (whatever that calendar is), and
    interactions on other movies, ones before that instant and ones without
    a timestamp do not change it: both in either arithmetic.  Over exact
    numbers it is the number min (count / 100, 1), it is 1 from 100 such
    interactions on, and more interactions never lower it. *)
Theorem X4_popularity_counts_recent_interactions
    {num : Type} `{Arith num}
    (now : Date) (m : Movie) (l l' : list Interaction) :
  let count := recentInteractionCount (sevenDaysAgo now) l m in
  calculatePopularity (num := num) now m l
  = min (div (ofNat count) (lit 100)) (lit 1)
  /\ ((forall i, In i l' -> ~ countsFor (sevenDaysAgo now) m i) ->
      calculatePopularity (num := num) now m (l ++ l')
      = calculatePopularity now m l)
  /\ calculatePopularity now m l
     =n Fin (Qmin (inject_Z (Z.of_nat count) / 100) 1)
  /\ ((100 <= count)%nat -> calculatePopularity now m l =n Fin 1)
  /\ leb (calculatePopularity (num := number) now m l)
         (calculatePopularity now m (l ++ l')) = true.
Proof.
  intros count. subst count.
  assert (Hf : calculatePopularity now m l
               =n Fin (Qmin (inject_Z (Z.of_nat (recentInteractionCount (sevenDaysAgo now) l m)) / 100) 1)).
  { unfold calculatePopularity. rewrite recent_length_count.
    destruct (capped_ratio_fin (recentInteractionCount (sevenDaysAgo now) l m) 100)
      as (q & E & _ & Hq); [lra |].
    exact_values. rewrite E. exact Hq. }
  split; [| split; [| split; [exact Hf | split]]].
  - unfold calculatePopularity. now rewrite recent_length_count.
  - intros Hno. unfold calculatePopularity. rewrite filter_app.
    assert (E : filter (isRecentFor now m) l' = []).
    { induction l' as [| i l' IH]; [reflexivity |]. cbn [filter].
      destruct (isRecentFor now m i) eqn:Ei.
      - apply isRecentFor_countsFor in Ei. destruct (Hno i (or_introl eq_refl) Ei).
      - apply IH. intros j Hj. apply Hno. now right. }
    now rewrite E, app_nil_r.
  - intros Hc. destruct (calculatePopularity now m l); try contradiction.
    cbn [eqn] in *. rewrite Hf. apply Q.min_r.
    apply Qle_shift_div_l; [lra |].
    change (1 * 100) with (inject_Z 100). rewrite <- Zle_Qle. lia.
  - unfold calculatePopularity. exact_values.
    apply (capped_ratio_le _ _ 100); [lra |].
    rewrite filter_app, length_app. lia.
Qed.

(** *** Recency *)

Lemma years_leb (now release : Date) (k : Z) :
  leb (div (sub (ofZ now) (ofZ release)) (ofZ (1000 * 60 * 60 * 24 * 365))) (Fin (inject_Z k))
  = (now - release <=? k * msPerYear)%Z.
Proof.
  exact_values. cbn [sub exact Exact.sub Exact.neg Exact.add].
  rewrite div_pos by (change 0 with (inject_Z 0); rewrite <- Zlt_Qlt; lia).
  cbn [leb exact Exact.leb].
  apply eq_true_iff_eq. rewrite Qle_bool_iff, Z.leb_le.
  assert (Hy : 0 < inject_Z (1000 * 60 * 60 * 24 * 365))
    by (change 0 with (inject_Z 0); rewrite <- Zlt_Qlt; lia).
  change (1000 * 60 * 60 * 24 * 365)%Z with msPerYear in *.
  assert (Eq1 : inject_Z now + - inject_Z release == inject_Z (now - release)).
  { unfold Z.sub. now rewrite inject_Z_plus, inject_Z_opp. }
  assert (Eq2 : inject_Z k * inject_Z msPerYear == inject_Z (k * msPerYear))
    by (now rewrite inject_Z_mult).
  split.
  - intros Hle. rewrite Zle_Qle, <- Eq1, <- Eq2.
    assert (Ex : inject_Z now + - inject_Z release
                 == inject_Z msPerYear
                    * ((inject_Z now + - inject_Z release) / inject_Z msPerYear))
      by (rewrite Qmult_div_r; [reflexivity | lra]).
    rewrite Ex.
    generalize dependent ((inject_Z now + - inject_Z release) / inject_Z msPerYear).
    intros a Ha _. nra.
  - intros Hle. apply Qle_shift_div_r; [assumption |].
    rewrite Eq1, Eq2. now rewrite <- Zle_Qle.
Qed.

(** X5: the recency weight depends on the age of the release counted in
    years of 365 days: 1.0 up to 5 such years (also for a release in the
    future), 0.7 up to 10, 0.5 up to 20 and 0.3 beyond; a newer release never
    gets a lower weight than an older one. *)
Theorem X5_recency_steps_by_age (now release release' : Date) :
  calculateRecency now release = Fin (recencyByAge (now - release))
  /\ ((now <= release)%Z -> calculateRecency now release = Fin 1)
  /\ ((release <= release')%Z ->
      recencyByAge (now - release) <= recencyByAge (now - release')).
Proof.
  assert (E : calculateRecency now release = Fin (recencyByAge (now - release))).
  { unfold calculateRecency, recencyByAge.
    change (lit 5) with (Fin (inject_Z 5)).
    change (lit 10) with (Fin (inject_Z 10)).
    change (lit 20) with (Fin (inject_Z 20)).
    rewrite !years_leb.
    destruct (now - release <=? 5 * msPerYear)%Z; [reflexivity |].
    destruct (now - release <=? 10 * msPerYear)%Z; [reflexivity |].
    destruct (now - release <=? 20 * msPerYear)%Z; reflexivity. }
  split; [exact E |]. split.
  - intros Hf. rewrite E. unfold recencyByAge.
    destruct (now - release <=? 5 * msPerYear)%Z eqn:E5; [reflexivity |].
    apply Z.leb_gt in E5. unfold msPerYear, msPerDay in E5. lia.
  - intros Hle. unfold recencyByAge.
    destruct (now - release <=? 5 * msPerYear)%Z eqn:A5;
      destruct (now - release <=? 10 * msPerYear)%Z eqn:A10;
      destruct (now - release <=? 20 * msPerYear)%Z eqn:A20;
      destruct (now - release' <=? 5 * msPerYear)%Z eqn:B5;
      destruct (now - release' <=? 10 * msPerYear)%Z eqn:B10;
      destruct (now - release' <=? 20 * msPerYear)%Z eqn:B20;
      try lra;
      repeat match goal with
             | H : (_ <=? _)%Z = true |- _ => apply Z.leb_le in H
             | H : (_ <=? _)%Z = false |- _ => apply Z.leb_gt in H
             end;
      unfold msPerYear, msPerDay in *; lia.
Qed.

Lemma exact_min_one (s : number) :
  min s (Fin 1) = NaN \/ leb (min s (Fin 1)) (Fin 1) = true.
Proof.
  destruct s as [p | | |]; cbn [min leb exact Exact.min Exact.leb]; auto.
  destruct (Qle_bool p 1) eqn:E; right; [exact E | reflexivity].
Qed.

Lemma binary64_min_one (s : spec_float) :
  Binary64.min s (Binary64.lit 1) = S754_nan
  \/ SFleb (Binary64.min s (Binary64.lit 1)) (Binary64.lit 1) = true.
Proof.
  assert (H1 : Binary64.lit 1 = S754_finite false 4503599627370496 (-52))
    by (vm_compute; reflexivity).
  rewrite H1. unfold Binary64.min.
  destruct s as [sg | sg | | sg mant e]; cbn [Binary64.isNaN orb]; auto;
    match goal with
    | |- context [SFltb ?a ?b] =>
        destruct (SFltb a b) eqn:E; right;
        [unfold SFltb in E; unfold SFleb;
         destruct (SFcompare a b) as [[| |] |]; try discriminate E; reflexivity
        | vm_compute; reflexivity]
    end.
Qed.

(** X27: the clamp.  For every movie, every user and every list of
    interactions, valid or not, the score is NaN or at most 1: over exact
    numbers and, bit for bit, in binary64. *)
Theorem X27_score_is_never_above_one
    (now : Date) (m : Movie) (u : UserInteractions) (l : list Interaction) :
  (calculateRecommendationScore (num := number) now m u l = NaN
   \/ leb (calculateRecommendationScore (num := number) now m u l) (Fin 1) = true)
  /\ (calculateRecommendationScore (num := spec_float) now m u l = S754_nan
      \/ SFleb (calculateRecommendationScore (num := spec_float) now m u l)
               (Binary64.lit 1) = true).
Proof.
  unfold calculateRecommendationScore. cbv zeta. split.
  - apply exact_min_one.
  - apply binary64_min_one.
Qed.

End AnyCalendar.

(** The examples are evaluated in a time zone without changes of the clock. *)
#[local] Existing Instance EngineSpec.noClockChange.

Lemma X2_weights_ignore_letter_case_witness :
  let u := mkPrefs (Some ["Action"%string]) (Some ["NOLAN"%string]) None in
  let u' := mkPrefs (Some ["action"%string]) (Some ["nolan"%string]) None in
  calculateGenreWeight (num := number) ["ACTION"%string; "Drama"%string] u
  = calculateGenreWeight ["action"%string; "DRAMA"%string] u'
  /\ calculateDirectorWeight (num := number) "Nolan"%string u
     = calculateDirectorWeight "nOLAN"%string u'.
Proof.
  intros u u'.
  apply (X2_weights_ignore_letter_case (num := number)); reflexivity.
Defined.


Lemma X4_popularity_counts_recent_interactions_witness :
  let m := mkMovie "m1"%string "Heat"%string ["Crime"%string] "Michael Mann"%string
             8 0%Z in
  let i := mkInteraction "u1"%string "m1"%string "view"%string
             (Some (mkMetadata (Some 700000000%Z))) in
  let old := mkInteraction "u1"%string "m1"%string "view"%string
               (Some (mkMetadata (Some 0%Z))) in
  calculatePopularity 1000000000%Z m (repeat i 120) =n Fin 1
  /\ calculatePopularity 1000000000%Z m (repeat i 120 ++ [old])
     = calculatePopularity (num := spec_float) 1000000000%Z m (repeat i 120).
Proof.
  intros m i old.
  destruct (X4_popularity_counts_recent_interactions (num := spec_float)
              1000000000%Z m (repeat i 120) [old]) as (_ & Hsame & _ & Hsat & _).
  split.
  - apply Hsat. vm_compute. lia.
  - apply Hsame. intros j [<- | []] [_ (t & Et & Ht)].
    injection Et as <-. vm_compute in Ht. now apply Ht.
Defined.

Lemma X5_recency_steps_by_age_witness :
  calculateRecency 1790000000000%Z 1600000000000%Z = Fin 0.7
  /\ calculateRecency 1790000000000%Z 1800000000000%Z = Fin 1.
Proof.
  destruct (X5_recency_steps_by_age 1790000000000%Z 1600000000000%Z 0%Z) as [E _].
  destruct (X5_recency_steps_by_age 1790000000000%Z 1800000000000%Z 0%Z)
    as [_ [F _]].
  split; [exact E | apply F; lia].
Defined.

End EngineFacts.

(* ===================================================================== *)
(** * More on the feed composer *)
(* ===================================================================== *)

Module FeedFacts.
Import JS Engine Feed EngineSpec EngineProofs FeedProofs.

Section AnyCalendar.

Context {calendar : Calendar}.

Lemma slice0_exact_length {A : Type} (l : list A) (limit : Z) :
  List.length (slice0 l limit)
  = if (limit <? 0)%Z then (List.length l - Z.to_nat (- limit))%nat
    else Nat.min (Z.to_nat limit) (List.length l).
Proof.
  unfold slice0. cbv zeta. rewrite length_firstn.
  destruct (limit <? 0)%Z eqn:E;
    [apply Z.ltb_lt in E | apply Z.ltb_ge in E]; lia.
Qed.

Lemma sort_length {A : Type} (f : A -> number) (l : list A) :
  List.length (sort (descending f) l) = List.length l.
Proof. apply Permutation_length, sort_perm. Qed.

Lemma slice0_slice0 {A : Type} (l : list A) (k k' : Z) :
  (0 <= k <= k')%Z ->
  slice0 l k = firstn (Z.to_nat k) (slice0 l k').
Proof.
  intros Hk. rewrite !slice0_firstn by lia.
  rewrite firstn_firstn. f_equal. lia.
Qed.

(** X9: raising the limit only appends to a feed: for 0 <= k <= k' the feed
    with limit k is the first k movies of the feed with limit k', for the
    personalized and for the trending feed. *)
Theorem X9_feed_with_smaller_limit_is_prefix
    (now : Date) (movies : list Movie) (u : UserInteractions)
    (l : list Interaction) (k k' : Z) :
  (0 <= k <= k')%Z ->
  getPersonalizedFeed (num := number) now movies u l (Some k)
  = firstn (Z.to_nat k) (getPersonalizedFeed (num := number) now movies u l (Some k'))
  /\ getTrendingMovies (num := number) now movies l (Some k)
     = firstn (Z.to_nat k) (getTrendingMovies (num := number) now movies l (Some k')).
Proof.
  intros Hk. rewrite !getPersonalizedFeed_ranked, !getTrendingMovies_ranked.
  cbn [defaultLimit]. split; now apply slice0_slice0.
Qed.

Section AnyArithmetic.

Context {num : Type} `{Arith num}.

Lemma insert_perm_any {A : Type} (cmp : A -> A -> num) (x : A) (l : list A) :
  Permutation (insert cmp x l) (x :: l).
Proof.
  induction l as [| y l IH]; [reflexivity |]. cbn [insert].
  destruct (ltb (lit 0) (cmp x y)); [| reflexivity].
  rewrite IH. apply perm_swap.
Qed.

Lemma sort_perm_any {A : Type} (cmp : A -> A -> num) (l : list A) :
  Permutation (sort cmp l) l.
Proof.
  induction l as [| x l IH]; [reflexivity |].
  cbn [sort]. rewrite insert_perm_any. now constructor.
Qed.

Lemma scored_feed_any (f : Movie -> num) (movies : list Movie) (limit : Z) :
  let out :=
    map movie (slice0 (sort byScoreDesc (map (fun m => mkScored m (f m)) movies))
                 limit) in
  (exists rest, Permutation movies (out ++ rest))
  /\ List.length out
     = if (limit <? 0)%Z then (List.length movies - Z.to_nat (- limit))%nat
       else Nat.min (Z.to_nat limit) (List.length movies).
Proof.
  intros out. subst out.
  set (scored := map (fun m => mkScored m (f m)) movies).
  split.
  - destruct (slice0_prefix (sort byScoreDesc scored) limit) as [n Hn].
    rewrite Hn. exists (map movie (skipn n (sort byScoreDesc scored))).
    rewrite <- map_app, firstn_skipn.
    rewrite (Permutation_map movie (sort_perm_any byScoreDesc scored)).
    unfold scored. rewrite map_map. cbn [movie]. now rewrite map_id.
  - rewrite length_map, slice0_exact_length.
    rewrite (Permutation_length (sort_perm_any byScoreDesc scored)).
    unfold scored. now rewrite length_map.
Qed.

(** X28: in either arithmetic, bit for bit in binary64 too, and whatever
    the scores are, both feeds are a rearrangement of the input cut at the
    limit: every movie of a feed is a movie of the input, no more often than
    there (so a catalog without duplicates gives a feed without), and the
    number of movies returned depends only on the limit and the size of the
    input. *)
Theorem X28_feeds_are_cut_rearrangements_in_any_arithmetic
    (now : Date) (movies : list Movie) (u : UserInteractions)
    (l : list Interaction) (limit : option Z) :
  let feed := getPersonalizedFeed (num := num) now movies u l limit in
  let trending := getTrendingMovies (num := num) now movies l limit in
  let n := if (defaultLimit limit <? 0)%Z
           then (List.length movies - Z.to_nat (- defaultLimit limit))%nat
           else Nat.min (Z.to_nat (defaultLimit limit)) (List.length movies) in
  (exists rest, Permutation movies (feed ++ rest))
  /\ (exists rest, Permutation movies (trending ++ rest))
  /\ List.length feed = n /\ List.length trending = n
  /\ (NoDup movies -> NoDup feed /\ NoDup trending).
Proof.
  intros feed trending n. subst feed trending n.
  unfold getPersonalizedFeed, getTrendingMovies. cbv zeta.
  pose proof (scored_feed_any
                (fun m => calculateRecommendationScore now m u l) movies
                (defaultLimit limit)) as Hf.
  pose proof (scored_feed_any (trendingScore now l) movies (defaultLimit limit))
    as Ht.
  cbv zeta in Hf, Ht.
  destruct Hf as ((rest & Hp) & Hl). destruct Ht as ((rest' & Hp') & Hl').
  split; [now exists rest |]. split; [now exists rest' |].
  split; [assumption |]. split; [assumption |].
  intros Hnd. split.
  - apply (Permutation_NoDup Hp) in Hnd. now apply NoDup_app_remove_r in Hnd.
  - apply (Permutation_NoDup Hp') in Hnd. now apply NoDup_app_remove_r in Hnd.
Qed.

End AnyArithmetic.

End AnyCalendar.

(** The examples are evaluated in a time zone without changes of the clock. *)
#[local] Existing Instance EngineSpec.noClockChange.

Lemma X9_feed_with_smaller_limit_is_prefix_witness :
  let a := mkMovie "a"%string "A"%string ["Drama"%string] "X"%string 5 0%Z in
  let c := mkMovie "c"%string "C"%string ["Action"%string] "X"%string 9 0%Z in
  getTrendingMovies (num := number) 1000%Z [a; c] [] (Some 1%Z)
  = firstn 1 (getTrendingMovies (num := number) 1000%Z [a; c] [] (Some 2%Z)).
Proof.
  intros a c.
  apply (X9_feed_with_smaller_limit_is_prefix 1000%Z [a; c]
           (mkPrefs None None None) [] 1%Z 2%Z).
  lia.
Defined.

End FeedFacts.

(* ===================================================================== *)
(** * More on the batch insert queue *)
(* ===================================================================== *)

Module QueueFacts.
Import Queue QueueProofs.

Local Open Scope nat_scope.

Section WithData.

Variable Data : Type.

Lemma reachable_config (tr : list (Event Data)) (w : World Data) :
  exec tr initial = Some w ->
  idle w /\ batchSize (mq w) = 10 /\ maxRetries (mq w) = 3.
Proof.
  intros He.
  pose proof (exec_idle Data _ _ _ (idle_initial Data) He) as Hi.
  destruct (exec_bounds Data tr initial w (idle_initial Data) ltac:(cbn; lia) He)
    as (Eb & Em & _).
  repeat split; try apply Hi; assumption.
Qed.

(** X10: in every world the queue can reach (calls of [enqueue],
    [processQueue] and [clear], events of the event loop) no timer of the
    [finally] block is pending, so the rescheduling after
    [processingInterval] never happens; a call of [processQueue] from
    outside changes nothing; and when [getStatus] reports no processing it
    reports an empty queue. *)
Theorem X10_backoff_timer_is_never_armed (tr : list (Event Data)) (w : World Data) :
  exec tr initial = Some w ->
  timers w = 0
  /\ step TimerFires w = None
  /\ processQueue w = w
  /\ (processing (mq w) = false -> getStatus w = (0, false, 10)).
Proof.
  intros He. destruct (reachable_config tr w He) as (Hi & Eb & _).
  pose proof Hi as (_ & Hq & Ht).
  split; [assumption |]. split; [cbn [step]; now rewrite Ht |].
  split; [now apply processQueue_idle |].
  intros Hp. unfold getStatus. now rewrite (Hq Hp), Hp, Eb.
Qed.

(** X11: every run ends, also with calls of [clear()]: along any trace
    the events of the event loop are at most 12 per enqueued item, the
    items queued or in flight are at most the items enqueued, and from the
    world reached the event loop runs to the end, where the queue is empty
    and the flag is cleared. *)
Theorem X11_every_run_terminates (tr : list (Event Data)) (w : World Data) :
  exec tr initial = Some w ->
  List.length (filter (@internal Data) tr) + workLeft w
  <= 12 * List.length (enqueued tr)
  /\ List.length (queue (mq w)) + List.length (inFlight w)
     <= List.length (enqueued tr)
  /\ exists tr' w',
       drain (workLeft w) w = Some w'
       /\ exec tr' w = Some w'
       /\ Forall (fun e => internal e = true) tr'
       /\ List.length tr' <= workLeft w
       /\ quiescent w' = true
       /\ getStatus w' = (0, false, 10).
Proof.
  intros He.
  destruct (exec_bounds Data tr initial w (idle_initial Data) ltac:(cbn; lia) He)
    as (_ & _ & Hwork & _ & Hcount).
  cbn in Hwork, Hcount.
  split; [lia |]. split; [lia |].
  destruct (run_completes Data tr w He) as (tr' & w' & Hd & Hx & Hint & Hq).
  exists tr', w'. repeat split; try assumption.
  - destruct (reachable_config tr w He) as (Hi & Eb & _).
    destruct (exec_bounds Data tr' w w' Hi ltac:(lia) Hx) as (_ & _ & Hw & _).
    destruct (loop_only Data tr' Hint) as (_ & E & El).
    rewrite E, El in Hw. cbn in Hw. lia.
  - pose proof (exec_app Data _ _ _ _ _ He Hx) as Hall.
    destruct (reachable_config _ _ Hall) as (Hi' & Eb' & _).
    destruct (quiescent_totals Data w' Hi' Hq) as (Eq & Ep & _).
    unfold getStatus. now rewrite Eq, Ep, Eb'.
Qed.

End WithData.

Lemma X10_backoff_timer_is_never_armed_witness :
  exists w : World nat,
    exec [Enqueue 1 refuses 0; Settles 0 0; Clear; Resumes 0] initial = Some w
    /\ timers w = 0 /\ processQueue w = w.
Proof.
  eexists. split; [reflexivity |].
  match goal with
  | |- timers ?w = 0 /\ _ =>
      pose proof (X10_backoff_timer_is_never_armed nat
                    [Enqueue 1 refuses 0; Settles 0 0; Clear; Resumes 0] w eq_refl)
        as H
  end.
  split; apply H.
Defined.

Lemma X11_every_run_terminates_witness :
  let tr := [Enqueue 1 refuses 0; Settles 0 0; Clear; Enqueue 2 accepts 4] in
  exists w tr' w' : _,
    exec tr (@initial nat) = Some w
    /\ drain (workLeft w) w = Some w'
    /\ exec tr' w = Some w'
    /\ getStatus w' = (0, false, 10).
Proof.
  intros tr. eexists.
  match goal with
  | |- exists tr' w', exec _ _ = Some ?w /\ _ =>
      destruct (X11_every_run_terminates nat tr w eq_refl)
        as (_ & _ & tr' & w' & Hd & Hx & _ & _ & _ & Hs)
  end.
  exists tr', w'. repeat split; assumption.
Defined.

Section Accounting.

Variable Data : Type.

Lemma attemptsFrom_length (d : Data) (f : InsertFunction Data) (budget k : nat) :
  List.length (attemptsFrom d f budget k) <= S budget.
Proof.
  revert k. induction budget as [| budget IH]; intros k; cbn [attemptsFrom].
  - destruct (f d k); cbn; lia.
  - destruct (f d k); cbn [List.length]; [lia |].
    specialize (IH (S k)). lia.
Qed.

Lemma failureFrom_length
    (n : nat) (d : Data) (f : InsertFunction Data) (budget k : nat) :
  List.length (failureFrom n d f budget k) <= 1.
Proof.
  revert k. induction budget as [| budget IH]; intros k; cbn [failureFrom].
  - destruct (f d k); cbn; lia.
  - destruct (f d k); [cbn; lia | apply IH].
Qed.

Lemma expected_length (mr : nat) (items : list (Data * InsertFunction Data)) :
  List.length (expectedInserts mr items) <= S mr * List.length items
  /\ List.length (expectedFailures mr items) <= List.length items.
Proof.
  induction items as [| [d f] items [IH1 IH2]]; [cbn; lia |].
  unfold expectedInserts, expectedFailures in *. cbn [flat_map fst snd List.length].
  rewrite !length_app.
  pose proof (attemptsFrom_length d f mr 0).
  pose proof (failureFrom_length mr d f mr 0).
  rewrite Nat.mul_succ_r. lia.
Qed.

Lemma totals_clear (w : World Data) :
  List.length (insertsTotal (clear w)) <= List.length (insertsTotal w)
  /\ List.length (failuresTotal (clear w)) <= List.length (failuresTotal w).
Proof.
  unfold insertsTotal, failuresTotal, inFlight, clear. cbn.
  rewrite !length_app, !flat_map_app, !length_app. lia.
Qed.

(** With calls of [clear()] the accounts can only shrink. *)
Lemma exec_budget (tr : list (Event Data)) (w w' : World Data) :
  idle w -> exec tr w = Some w' ->
  List.length (insertsTotal w')
  <= List.length (insertsTotal w)
     + List.length (expectedInserts (maxRetries (mq w)) (enqueued tr))
  /\ List.length (failuresTotal w')
     <= List.length (failuresTotal w)
        + List.length (expectedFailures (maxRetries (mq w)) (enqueued tr)).
Proof.
  revert w. induction tr as [| e tr IH]; intros w Hi He; cbn [exec] in He.
  - injection He as <-. cbn. lia.
  - destruct (step e w) as [w1 |] eqn:Es; [| discriminate].
    pose proof (step_transition Data e w w1 Hi Es) as Ht.
    pose proof (step_idle Data e w w1 Hi Es) as Hi1.
    destruct (transition_config Data _ _ _ Ht) as [_ Em].
    destruct (IH w1 Hi1 He) as [IH1 IH2]. rewrite Em in IH1, IH2.
    rewrite (enqueued_one Data e tr), expectedInserts_app, expectedFailures_app,
      !length_app.
    assert (Hstep :
      List.length (insertsTotal w1)
      <= List.length (insertsTotal w)
         + List.length (expectedInserts (maxRetries (mq w)) (enqueued [e]))
      /\ List.length (failuresTotal w1)
         <= List.length (failuresTotal w)
            + List.length (expectedFailures (maxRetries (mq w)) (enqueued [e]))).
    { destruct e as [d f now | | | | p i | p];
        try (destruct (transition_totals Data _ _ _ Ht ltac:(discriminate))
               as [P1 P2];
             apply Permutation_length in P1, P2;
             rewrite length_app in P1, P2; lia).
      cbn [step] in Es. injection Es as <-.
      destruct (totals_clear w) as [T1 T2].
      unfold expectedInserts, expectedFailures.
      cbn [enqueued flat_map List.length]. lia. }
    lia.
Qed.

(** X12: whatever the insert operations do and whatever is called, [clear()]
    included, the queue makes at most [maxRetries] + 1 = 4 calls of insert
    operations per enqueued item and logs at most one terminal failure per
    enqueued item. *)
Theorem X12_at_most_four_calls_per_item (tr : list (Event Data)) (w : World Data) :
  exec tr initial = Some w ->
  List.length (inserts w) <= 4 * List.length (enqueued tr)
  /\ List.length (console w) <= List.length (enqueued tr).
Proof.
  intros He.
  destruct (exec_budget tr initial w (idle_initial Data) He) as [H1 H2].
  destruct (expected_length 3 (enqueued tr)) as [L1 L2].
  cbn in H1, H2.
  unfold insertsTotal in H1. unfold failuresTotal in H2.
  rewrite !length_app in H1. rewrite length_app in H2.
  change (maxRetries (mq (@initial Data))) with 3 in *.
  split; lia.
Qed.

Lemma attemptsFrom_recovering
    (n : nat) (d : Data) (f : InsertFunction Data) (j budget k : nat) :
  (forall i, i < j -> f d (k + i) <> Fulfilled) -> f d (k + j) = Fulfilled ->
  j <= budget ->
  attemptsFrom d f budget k = map (fun i => (d, i)) (seq k (S j))
  /\ failureFrom n d f budget k = [].
Proof.
  revert budget k. induction j as [| j IH]; intros budget k Hfail Hok Hb.
  - rewrite Nat.add_0_r in Hok.
    destruct budget; cbn [attemptsFrom failureFrom]; rewrite Hok; split; reflexivity.
  - destruct budget as [| budget]; [lia |].
    pose proof (Hfail 0 ltac:(lia)) as H0. rewrite Nat.add_0_r in H0.
    cbn [attemptsFrom failureFrom].
    destruct (f d k) as [| error] eqn:E; [congruence |].
    destruct (IH budget (S k)) as [IH1 IH2].
    + intros i Hi. replace (S k + i) with (k + S i) by lia. apply Hfail. lia.
    + replace (S k + j) with (k + S j) by lia. assumption.
    + lia.
    + rewrite IH1, IH2. split; reflexivity.
Qed.

Lemma expected_recovering
    (mr : nat) (items : list (Data * InsertFunction Data * nat)) :
  Forall (fun x => snd x <= mr
                   /\ QueueSpec.succeedsAfter (fst (fst x)) (snd (fst x)) (snd x))
         items ->
  expectedInserts mr (map fst items)
  = flat_map (fun x => initialPlusRetries (fst (fst x)) (snd x)) items
  /\ expectedFailures mr (map fst items) = [].
Proof.
  induction 1 as [| [[d f] j] items [Hj [Hfail Hok]] _ [IH1 IH2]];
    [split; reflexivity |].
  unfold expectedInserts, expectedFailures in *.
  cbn [map flat_map fst snd] in *. rewrite IH1, IH2.
  destruct (attemptsFrom_recovering mr d f j mr 0) as [E1 E2];
    [intros i Hi; now apply Hfail | assumption | assumption |].
  rewrite E1, E2. split; reflexivity.
Qed.

(** X13: an item whose insert operation fails [j] <= 3 times and then
    succeeds is called [j] + 1 times, with retry counts 0 .. [j], and leaves
    no log entry: along every run without [clear()], whatever else is
    enqueued, when nothing is left to run. *)
Theorem X13_transient_failures_recover
    (tr tr' : list (Event Data)) (w w' : World Data)
    (recovering : list (Data * InsertFunction Data * nat))
    (rest : list (Data * InsertFunction Data)) :
  withoutClear tr ->
  exec tr initial = Some w ->
  Permutation (enqueued tr) (map fst recovering ++ rest) ->
  Forall (fun x => snd x <= 3
                   /\ QueueSpec.succeedsAfter (fst (fst x)) (snd (fst x)) (snd x))
         recovering ->
  Forall (fun e => internal e = true) tr' -> exec tr' w = Some w' ->
  quiescent w' = true ->
  Permutation (inserts w')
    (flat_map (fun x => initialPlusRetries (fst (fst x)) (snd x)) recovering
     ++ expectedInserts 3 rest)
  /\ Permutation (console w') (expectedFailures 3 rest)
  /\ (rest = [] -> console w' = []).
Proof.
  intros Htr He Hperm Hrec Htr' He' Hq.
  destruct (run_to_quiescence Data tr tr' w w' Htr He Htr' He')
    as (_ & _ & _ & _ & _ & _ & Hfinal).
  destruct (Hfinal Hq) as (_ & _ & Hins & Hcon).
  destruct (expected_recovering 3 recovering Hrec) as [E1 E2].
  assert (P1 : Permutation (expectedInserts 3 (enqueued tr))
                 (expectedInserts 3 (map fst recovering ++ rest)))
    by (unfold expectedInserts; now apply Permutation_flat_map).
  assert (P2 : Permutation (expectedFailures 3 (enqueued tr))
                 (expectedFailures 3 (map fst recovering ++ rest)))
    by (unfold expectedFailures; now apply Permutation_flat_map).
  rewrite expectedInserts_app, E1 in P1.
  rewrite expectedFailures_app, E2 in P2. cbn [app] in P2.
  split; [now rewrite Hins |]. split; [now rewrite Hcon |].
  intros ->. cbn in P2. rewrite P2 in Hcon.
  now apply Permutation_sym, Permutation_nil in Hcon.
Qed.

(** X14: [clear()] empties the queue but cancels nothing that is in flight:
    the batch under way stays, the flag stays set, and an item of the batch
    whose insert operation fails afterwards, with retries left, is queued
    again, so the queue is not empty after it was cleared. *)
Theorem X14_clear_keeps_items_in_flight
    (tr : list (Event Data)) (w : World Data)
    (pending : list (QueueItem Data)) (i : nat) (item : QueueItem Data)
    (error : Error) :
  exec tr initial = Some w ->
  passes w = [AwaitAllSettled pending] ->
  nth_error pending i = Some item ->
  insertFunction item (data item) (retries item) = Rejected error ->
  retries item < 3 ->
  getStatus (clear w) = (0, true, 10)
  /\ inFlight (clear w) = pending
  /\ exists w',
       exec [Clear; Settles 0 i] w = Some w'
       /\ queue (mq w')
          = [mkItem (data item) (insertFunction item) (S (retries item))
               (timestamp item)]
       /\ getStatus w' = (1, true, 10).
Proof.
  intros He Hps Hi Hrej Hlt.
  destruct (QueueFacts.reachable_config Data tr w He) as ((Hsp & _ & _) & Eb & Em).
  unfold singlePass in Hsp. rewrite Hps in Hsp.
  split; [unfold getStatus, clear; cbn; now rewrite Hsp, Eb |].
  split; [unfold inFlight, clear; cbn; rewrite Hps; cbn; now rewrite app_nil_r |].
  eexists. cbn [exec step]. unfold settle. cbn [clear passes].
  rewrite Hps. cbn [nth_error]. rewrite Hi. split; [reflexivity |].
  unfold settleItem. rewrite Hrej. cbn [with_passes clear mq maxRetries with_queue].
  rewrite Em. apply Nat.ltb_lt in Hlt. rewrite Hlt.
  unfold getStatus. cbn. now rewrite Hsp, Eb.
Qed.

End Accounting.

Lemma X12_at_most_four_calls_per_item_witness :
  exists w : World nat,
    exec [Enqueue 1 refuses 0; Settles 0 0; Clear; Resumes 0] initial = Some w
    /\ List.length (inserts w) <= 4.
Proof.
  eexists. split; [reflexivity |].
  match goal with
  | |- List.length (inserts ?w) <= 4 =>
      apply (X12_at_most_four_calls_per_item nat
               [Enqueue 1 refuses 0; Settles 0 0; Clear; Resumes 0] w eq_refl)
  end.
Defined.

Lemma X13_transient_failures_recover_witness :
  let tr := [Enqueue 5 QueueSpec.flaky 0] in
  let tr' := [Settles 0 0; Resumes 0; Resumes 0; Settles 0 0; Resumes 0;
              Resumes 0; Settles 0 0; Resumes 0] in
  exists w w' : World nat,
    exec tr initial = Some w /\ exec tr' w = Some w'
    /\ Permutation (inserts w') [(5, 0); (5, 1); (5, 2)]
    /\ console w' = [].
Proof.
  intros tr tr'. eexists. eexists.
  split; [vm_compute; reflexivity |]. split; [vm_compute; reflexivity |].
  match goal with
  | |- Permutation (inserts ?w') _ /\ _ =>
      destruct (X13_transient_failures_recover nat tr tr'
                  (enqueue 5 QueueSpec.flaky 0 initial) w'
                  [(5, QueueSpec.flaky, 2)] [])
        as (H1 & _ & H3)
  end.
  - repeat constructor.
  - vm_compute. reflexivity.
  - apply Permutation_refl.
  - repeat constructor. cbn. intros [| [| k]] Hk; cbn; try discriminate; lia.
  - repeat constructor.
  - vm_compute. reflexivity.
  - vm_compute. reflexivity.
  - split; [exact H1 | exact (H3 eq_refl)].
Defined.

Lemma X14_clear_keeps_items_in_flight_witness :
  exists w' : World nat,
    exec [Clear; Settles 0 0] (enqueue 1 refuses 0 initial) = Some w'
    /\ queue (mq w') = [mkItem 1 refuses 1 0].
Proof.
  destruct (X14_clear_keeps_items_in_flight nat [Enqueue 1 refuses 0]
              (enqueue 1 refuses 0 initial) [mkItem 1 refuses 0 0] 0
              (mkItem 1 refuses 0 0) "timeout"%string
              eq_refl eq_refl eq_refl eq_refl ltac:(cbn; lia))
    as (_ & _ & w' & Hx & Hq & _).
  exists w'. split; assumption.
Defined.

Section Order.

Variable Data : Type.

Lemma firstAttempts_app (l l' : list (Data * nat)) :
  QueueSpec.firstAttempts (l ++ l')
  = QueueSpec.firstAttempts l ++ QueueSpec.firstAttempts l'.
Proof. unfold QueueSpec.firstAttempts. now rewrite filter_app, map_app. Qed.

Lemma untried_app (q q' : list (QueueItem Data)) :
  QueueSpec.untried (q ++ q') = QueueSpec.untried q ++ QueueSpec.untried q'.
Proof. unfold QueueSpec.untried. now rewrite filter_app, map_app. Qed.

Lemma firstAttempts_calls (q : list (QueueItem Data)) :
  QueueSpec.firstAttempts (map (fun item => (data item, retries item)) q)
  = QueueSpec.untried q.
Proof.
  unfold QueueSpec.firstAttempts, QueueSpec.untried.
  induction q as [| item q IH]; [reflexivity |]. cbn [map filter snd].
  destruct (retries item =? 0); cbn [map fst]; now rewrite IH.
Qed.

Lemma inOrder_dispatched (w : World Data) :
  QueueSpec.inOrder (dispatched w) = QueueSpec.inOrder w.
Proof.
  unfold QueueSpec.inOrder, dispatched. cbn [inserts queue mq with_queue].
  rewrite firstAttempts_app, firstAttempts_calls, <- app_assoc, <- untried_app.
  now rewrite firstn_skipn.
Qed.

Lemma inOrder_settled (item : QueueItem Data) (w : World Data) :
  QueueSpec.inOrder (settleItem item w) = QueueSpec.inOrder w.
Proof.
  unfold settleItem.
  destruct (insertFunction item (data item) (retries item)); [reflexivity |].
  destruct (retries item <? maxRetries (mq w)); [| reflexivity].
  unfold QueueSpec.inOrder. cbn [inserts queue mq with_queue].
  rewrite untried_app. unfold QueueSpec.untried at 3. cbn. now rewrite app_nil_r.
Qed.

Lemma inOrder_pushed (item : QueueItem Data) (w : World Data) :
  retries item = 0 ->
  QueueSpec.inOrder (pushed item w) = QueueSpec.inOrder w ++ [data item].
Proof.
  intros Hr. unfold QueueSpec.inOrder. cbn [inserts queue mq pushed with_queue].
  rewrite untried_app, app_assoc. f_equal.
  unfold QueueSpec.untried. cbn [filter]. rewrite Hr. reflexivity.
Qed.

Lemma transition_order (w w' : World Data) (e : Event Data) :
  Transition w e w' -> e <> Clear ->
  QueueSpec.inOrder w' = QueueSpec.inOrder w ++ map fst (enqueued [e]).
Proof.
  intros H Hc.
  destruct H as [w d f now Hps Hpr Hq | w d f now Hpr | w | w
                 | w pending i item Hps Hi | w Hps Hq | w Hps Hq | w c Hps Hc' Hq];
    cbn [enqueued map fst]; rewrite ?app_nil_r; try reflexivity.
  - rewrite inOrder_dispatched. apply (inOrder_pushed (mkItem d f 0 now)).
    reflexivity.
  - apply (inOrder_pushed (mkItem d f 0 now)). reflexivity.
  - congruence.
  - now rewrite inOrder_settled.
  - now rewrite inOrder_dispatched.
Qed.

Lemma exec_order (tr : list (Event Data)) (w w' : World Data) :
  idle w -> withoutClear tr -> exec tr w = Some w' ->
  QueueSpec.inOrder w' = QueueSpec.inOrder w ++ map fst (enqueued tr).
Proof.
  revert w. induction tr as [| e tr IH]; intros w Hi Htr He; cbn [exec] in He.
  - injection He as <-. cbn. now rewrite app_nil_r.
  - destruct (step e w) as [w1 |] eqn:Es; [| discriminate].
    apply withoutClear_cons in Htr as [Hc Htr].
    pose proof (step_transition Data e w w1 Hi Es) as Ht.
    rewrite (IH w1 (step_idle Data e w w1 Hi Es) Htr He).
    rewrite (transition_order _ _ _ Ht Hc), (enqueued_one Data e tr), map_app.
    now rewrite app_assoc.
Qed.

(** X25: first come, first tried.  Along every run without [clear()],
    whatever the insert operations do and in whatever order their promises
    settle, the first attempts are made in the order of the calls of
    [enqueue]: at any time the payloads tried so far, followed by those of
    the queue not tried yet, are the payloads enqueued, in that order; and
    when nothing is left to run every item has been tried. *)
Theorem X25_first_attempts_in_enqueue_order
    (tr : list (Event Data)) (w : World Data) :
  withoutClear tr ->
  exec tr initial = Some w ->
  QueueSpec.firstAttempts (inserts w) ++ QueueSpec.untried (queue (mq w))
  = map fst (enqueued tr)
  /\ (exists rest,
        map fst (enqueued tr) = QueueSpec.firstAttempts (inserts w) ++ rest)
  /\ (quiescent w = true ->
      QueueSpec.firstAttempts (inserts w) = map fst (enqueued tr)).
Proof.
  intros Htr He.
  pose proof (exec_order tr initial w (idle_initial Data) Htr He) as H.
  unfold QueueSpec.inOrder in H. cbn [inserts queue mq initial new_MovieQueue app] in H.
  change (QueueSpec.firstAttempts (@nil (Data * nat))) with (@nil Data) in H.
  change (QueueSpec.untried (@nil (QueueItem Data))) with (@nil Data) in H.
  cbn [app] in H.
  split; [exact H |]. split; [eexists; symmetry; exact H |].
  intros Hq.
  destruct (quiescent_totals Data w (exec_idle Data _ _ _ (idle_initial Data) He) Hq)
    as (Eq & _).
  rewrite Eq in H. unfold QueueSpec.untried in H. cbn in H.
  now rewrite app_nil_r in H.
Qed.

End Order.

Lemma X25_first_attempts_in_enqueue_order_witness :
  exists w : World nat,
    exec [Enqueue 1 refuses 0; Enqueue 2 accepts 0; Enqueue 3 accepts 0;
          Settles 0 0; Resumes 0; Resumes 0] initial = Some w
    /\ QueueSpec.firstAttempts (inserts w) ++ QueueSpec.untried (queue (mq w))
       = [1; 2; 3].
Proof.
  eexists. split; [vm_compute; reflexivity |].
  apply (X25_first_attempts_in_enqueue_order nat
           [Enqueue 1 refuses 0; Enqueue 2 accepts 0; Enqueue 3 accepts 0;
            Settles 0 0; Resumes 0; Resumes 0]).
  - repeat constructor.
  - vm_compute. reflexivity.
Defined.

Section Dispatch.

Variable Data : Type.

Lemma settleItem_inserts (item : QueueItem Data) (w : World Data) :
  inserts (settleItem item w) = inserts w.
Proof.
  unfold settleItem.
  destruct (insertFunction item (data item) (retries item)); [reflexivity |].
  destruct (retries item <? maxRetries (mq w)); reflexivity.
Qed.

(** X29: batches never overlap, and only a delay or an enqueue on a queue
    at rest starts one.  In every state the queue can reach, a step in which
    insert operations are called finds nothing in flight, and it is either a
    call of [enqueue] while the flag is cleared, which calls the insert
    operation of the new item alone, or the resumption of the pass after the
    delay between batches, which calls the insert operations of the first
    [batchSize] = 10 items of the queue, in their order. *)
Theorem X29_batches_never_overlap
    (tr : list (Event Data)) (w w' : World Data) (e : Event Data) :
  exec tr initial = Some w ->
  step e w = Some w' ->
  inserts w' <> inserts w ->
  inFlight w = []
  /\ ((exists d f now,
         e = Enqueue d f now /\ processing (mq w) = false
         /\ inserts w' = inserts w ++ [(d, 0)])
      \/ (e = Resumes 0 /\ passes w = [AwaitDelay] /\ queue (mq w) <> []
          /\ inserts w'
             = inserts w
               ++ map (fun item => (data item, retries item))
                    (firstn 10 (queue (mq w))))).
Proof.
  intros He Hs Hne.
  destruct (reachable_config Data tr w He) as (Hi & Eb & _).
  pose proof (step_transition Data e w w' Hi Hs) as Ht.
  destruct Ht as [w d f now Hps Hpr Hq | w d f now Hpr | w | w
                  | w pending i item Hps Hi' | w Hps Hq | w Hps Hq | w c Hps Hc' Hq];
    try (exfalso; apply Hne; reflexivity).
  - split; [unfold inFlight; now rewrite Hps |]. left.
    exists d, f, now. split; [reflexivity |]. split; [assumption |].
    cbn. rewrite Hq, Eb. reflexivity.
  - exfalso. apply Hne. now rewrite settleItem_inserts.
  - split; [unfold inFlight; now rewrite Hps |]. right.
    split; [reflexivity |]. split; [assumption |]. split; [assumption |].
    cbn. now rewrite Eb.
Qed.

(** With insert operations that always succeed the calls are made exactly
    in the order of the calls of [enqueue]. *)
Lemma succeeding_in_order (tr : list (Event Data)) (w : World Data) :
  withoutClear tr ->
  (forall d f, In (d, f) (enqueued tr) -> alwaysSucceeds d f) ->
  exec tr initial = Some w ->
  quiescent w = true ->
  inserts w = map (fun x => (fst x, 0)) (enqueued tr)
  /\ console w = [] /\ queue (mq w) = [].
Proof.
  intros Htr Hok He Hq.
  destruct (run_to_quiescence Data tr [] w w Htr He (Forall_nil _) eq_refl)
    as (_ & _ & _ & _ & _ & _ & Hfinal).
  destruct (Hfinal Hq) as (Eq & _ & Hins & Hcon).
  destruct (expected_succeeding Data 3 (enqueued tr) Hok) as [E1 E2].
  rewrite E1 in Hins. rewrite E2 in Hcon.
  apply Permutation_sym, Permutation_nil in Hcon.
  split; [| split; assumption].
  pose proof (exec_order Data tr initial w (idle_initial Data) Htr He) as Ho.
  unfold QueueSpec.inOrder in Ho. rewrite Eq in Ho.
  cbn [inserts queue mq initial new_MovieQueue] in Ho.
  change (QueueSpec.firstAttempts (@nil (Data * nat))) with (@nil Data) in Ho.
  change (QueueSpec.untried (@nil (QueueItem Data))) with (@nil Data) in Ho.
  cbn [app] in Ho. rewrite app_nil_r in Ho.
  assert (Hzero : forall x, In x (inserts w) -> snd x = 0).
  { intros x Hx. apply (Permutation_in x Hins) in Hx.
    apply in_map_iff in Hx as (y & <- & _). reflexivity. }
  transitivity (map (fun d : Data => (d, 0)) (map fst (enqueued tr)));
    [| now rewrite map_map].
  rewrite <- Ho. unfold QueueSpec.firstAttempts.
  clear - Hzero. induction (inserts w) as [| [d k] l IH]; [reflexivity |].
  pose proof (Hzero (d, k) (or_introl eq_refl)) as Hk. cbn [snd] in Hk. subst k.
  cbn [filter map snd fst Nat.eqb].
  f_equal. apply IH. intros x Hx. apply Hzero. now right.
Qed.

End Dispatch.

Lemma X29_batches_never_overlap_witness :
  let w := enqueue 1 accepts 0 initial in
  inFlight (@initial nat) = [] /\ inserts w = [(1, 0)].
Proof.
  intros w.
  destruct (X29_batches_never_overlap nat [] initial w (Enqueue 1 accepts 0)
              eq_refl eq_refl ltac:(discriminate))
    as (Hfl & [(d & f & now & E & _ & Hins) | (E & _)]); [| discriminate E].
  injection E as <- _ _. split; [exact Hfl | exact Hins].
Defined.

End QueueFacts.

(* ===================================================================== *)
(** * The batch endpoint on the shared queue *)
(* ===================================================================== *)

Module BatchFacts.
Import Queue QueueProofs Batch.

Local Open Scope nat_scope.

Section WithData.

Variable Data : Type.

Lemma enqueue_busy
    (d : Payload Data) (f : InsertFunction (Payload Data)) (now : nat)
    (w : World (Payload Data)) :
  processing (mq w) = true -> enqueue d f now w = pushed (mkItem d f 0 now) w.
Proof. intros Hp. unfold enqueue. cbn. now rewrite Hp. Qed.

Lemma enqueueAll_busy
    (ms : list Data) (uid : ObjectId) (f : InsertFunction (Payload Data))
    (now : nat) (w : World (Payload Data)) :
  processing (mq w) = true ->
  let w' := enqueueAll ms uid f now w in
  queue (mq w') = queue (mq w) ++ map (fun d => mkItem (d, uid) f 0 now) ms
  /\ processing (mq w') = true
  /\ batchSize (mq w') = batchSize (mq w)
  /\ passes w' = passes w
  /\ inserts w' = inserts w.
Proof.
  revert w. induction ms as [| m ms IH]; intros w Hp; cbv zeta.
  - cbn [enqueueAll fold_left map]. rewrite app_nil_r. repeat split; assumption.
  - change (enqueueAll (m :: ms) uid f now w)
      with (enqueueAll ms uid f now (enqueue (m, uid) f now w)).
    rewrite (enqueue_busy _ _ _ _ Hp).
    pose proof (IH (pushed (mkItem (m, uid) f 0 now) w) Hp) as H.
    cbv zeta in H. destruct H as (Eq & Ep & Eb & Eps & Ei).
    split; [| repeat split; [exact Ep | exact Eb | exact Eps | exact Ei]].
    etransitivity; [exact Eq |]. cbn. now rewrite <- app_assoc.
Qed.

Lemma enqueue_starts
    (d : Payload Data) (f : InsertFunction (Payload Data)) (now : nat)
    (w : World (Payload Data)) :
  idle w -> processing (mq w) = false -> batchSize (mq w) = 10 ->
  let w' := enqueue d f now w in
  queue (mq w') = []
  /\ processing (mq w') = true
  /\ batchSize (mq w') = 10
  /\ passes w' = [AwaitAllSettled [mkItem d f 0 now]]
  /\ inserts w' = inserts w ++ [(d, 0)].
Proof.
  intros Hi Hp Eb w'. subst w'.
  pose proof Hi as (Hsp & Hq & _). specialize (Hq Hp).
  destruct (singlePass_cases _ w Hsp) as [[Hps _] | [c [_ Hpr]]]; [| congruence].
  unfold enqueue. cbn [mq processing with_queue]. rewrite Hp. cbn [negb].
  rewrite processQueue_starts.
  - cbn. rewrite Hq, Hps, Eb. cbn. repeat split.
  - assumption.
  - cbn. rewrite Hq. discriminate.
Qed.

Lemma exec_enqueueEvents
    (ms : list Data) (uid : ObjectId) (f : InsertFunction (Payload Data))
    (now : nat) (w : World (Payload Data)) :
  exec (enqueueEvents ms uid f now) w = Some (enqueueAll ms uid f now w).
Proof.
  revert w. induction ms as [| m ms IH]; intros w; [reflexivity |].
  cbn [enqueueEvents map exec step]. apply IH.
Qed.

(** X15: the batch endpoint on the shared queue, in any state the queue can
    be in.  Without an array, or with an empty one, it answers 400 and leaves
    the queue alone.  Otherwise every movie is enqueued and the answer is 202
    with a status that always says processing; when the queue was at rest
    the first movie is dispatched at once in a batch of its own (its insert
    operation is called before the answer is sent) and the status counts the
    other N - 1 movies; when a pass was under way nothing is dispatched and
    the status counts N movies more than before. *)
Theorem X15_batch_endpoint_dispatches_first_movie_alone
    (tr : list (Event (Payload Data))) (w : World (Payload Data))
    (m : Data) (ms : list Data) (uid : ObjectId)
    (create : InsertFunction (Payload Data)) (now : nat) :
  exec tr initial = Some w ->
  let r := createMoviesBatch (Some (m :: ms)) uid create now w in
  exec (tr ++ enqueueEvents (m :: ms) uid create now) initial = Some (snd r)
  /\ fst r
     = Accepted 202 (S (List.length ms))
         (if processing (mq w)
          then List.length (queue (mq w)) + S (List.length ms)
          else List.length ms,
          true, 10)
  /\ (processing (mq w) = false ->
      passes (snd r) = [AwaitAllSettled [mkItem (m, uid) create 0 now]]
      /\ inserts (snd r) = inserts w ++ [((m, uid), 0)])
  /\ (processing (mq w) = true ->
      passes (snd r) = passes w /\ inserts (snd r) = inserts w)
  /\ fst (createMoviesBatch None uid create now w)
     = ApiError 400 "Please provide an array of movies"
  /\ createMoviesBatch None uid create now w
     = createMoviesBatch (Some []) uid create now w
  /\ snd (createMoviesBatch None uid create now w) = w.
Proof.
  intros He r. subst r. cbn [createMoviesBatch fst snd List.length].
  pose proof (exec_idle _ _ _ _ (idle_initial _) He) as Hi.
  destruct (exec_bounds _ tr initial w (idle_initial _) ltac:(cbn; lia) He)
    as (Eb & _). cbn in Eb.
  split; [apply (exec_app _ _ _ _ _ _ He), exec_enqueueEvents |].
  assert (Hcases :
    getStatus (enqueueAll (m :: ms) uid create now w)
    = (if processing (mq w)
       then List.length (queue (mq w)) + S (List.length ms)
       else List.length ms, true, 10)
    /\ (processing (mq w) = false ->
        passes (enqueueAll (m :: ms) uid create now w)
        = [AwaitAllSettled [mkItem (m, uid) create 0 now]]
        /\ inserts (enqueueAll (m :: ms) uid create now w)
           = inserts w ++ [((m, uid), 0)])
    /\ (processing (mq w) = true ->
        passes (enqueueAll (m :: ms) uid create now w) = passes w
        /\ inserts (enqueueAll (m :: ms) uid create now w) = inserts w)).
  { destruct (processing (mq w)) eqn:Hp.
    - pose proof (enqueueAll_busy (m :: ms) uid create now w Hp) as H.
      cbv zeta in H. destruct H as (Eq & Ep & Eb' & Eps & Ei).
      unfold getStatus. rewrite Eq, Ep, Eb', Eb, length_app, length_map.
      cbn [List.length]. repeat split; try assumption; discriminate.
    - pose proof (enqueue_starts (m, uid) create now w Hi Hp Eb) as H.
      cbv zeta in H. destruct H as (Eq & Ep & Eb1 & Eps & Ei).
      pose proof (enqueueAll_busy ms uid create now
                    (enqueue (m, uid) create now w) Ep) as H.
      cbv zeta in H. destruct H as (Eq' & Ep' & Eb' & Eps' & Ei').
      change (enqueueAll (m :: ms) uid create now w)
        with (enqueueAll ms uid create now (enqueue (m, uid) create now w)).
      unfold Payload in *.
      unfold getStatus. rewrite Eq', Ep', Eb', Eb1, Eps', Ei', Eq, Eps, Ei.
      cbn [app]. rewrite length_map. repeat split; discriminate. }
  destruct Hcases as (Hs & Hrest & Hbusy).
  rewrite Hs. repeat split; try apply Hrest; try apply Hbusy; assumption.
Qed.

End WithData.

Lemma X15_batch_endpoint_dispatches_first_movie_alone_witness :
  let r := createMoviesBatch (Some [7; 8; 9]) "admin"%string
             (fun _ _ => Fulfilled) 0 initial in
  fst r = Accepted 202 3 (2, true, 10)
  /\ inserts (snd r) = [((7, "admin"%string), 0)].
Proof.
  intros r.
  destruct (X15_batch_endpoint_dispatches_first_movie_alone nat [] initial
              7 [8; 9] "admin"%string (fun _ _ => Fulfilled) 0 eq_refl)
    as (_ & Hr & Hrest & _).
  split; [exact Hr | exact (proj2 (Hrest eq_refl))].
Defined.

Section InOrder.

Variable Data : Type.

Lemma enqueueEvents_enqueued
    (ms : list Data) (uid : ObjectId) (f : InsertFunction (Payload Data)) (now : nat) :
  enqueued (enqueueEvents ms uid f now) = map (fun m => ((m, uid), f)) ms
  /\ withoutClear (enqueueEvents ms uid f now).
Proof.
  induction ms as [| m ms [IH1 IH2]]; [split; [reflexivity | constructor] |].
  split.
  - cbn [enqueueEvents map enqueued]. f_equal. exact IH1.
  - constructor; [reflexivity | exact IH2].
Qed.

(** X30: with insert operations that always succeed, the movies of a
    batch request are inserted exactly once each and in the order of the
    request array, after everything that was enqueued before: when nothing
    is left to run, the calls of insert operations are the payloads enqueued
    so far followed by the movies of the request, in that order, nothing is
    logged and the queue is at rest. *)
Theorem X30_batch_is_inserted_in_request_order
    (tr tr' : list (Event (Payload Data))) (w w' : World (Payload Data))
    (ms : list Data) (uid : ObjectId) (create : InsertFunction (Payload Data))
    (now : nat) :
  withoutClear tr ->
  exec tr initial = Some w ->
  (forall d f, In (d, f) (enqueued tr) -> alwaysSucceeds d f) ->
  (forall m, In m ms -> alwaysSucceeds (m, uid) create) ->
  Forall (fun e => internal e = true) tr' ->
  exec tr' (snd (createMoviesBatch (Some ms) uid create now w)) = Some w' ->
  quiescent w' = true ->
  inserts w'
  = map (fun x => (fst x, 0)) (enqueued tr) ++ map (fun m => ((m, uid), 0)) ms
  /\ console w' = []
  /\ getStatus w' = (0, false, 10).
Proof.
  intros Htr He Hok Hms Htr' He' Hq.
  assert (Es : snd (createMoviesBatch (Some ms) uid create now w)
               = enqueueAll ms uid create now w)
    by (destruct ms; reflexivity).
  rewrite Es in He'. clear Es.
  destruct (enqueueEvents_enqueued ms uid create now) as [Een Hnc].
  destruct (loop_only _ tr' Htr') as (Hnc' & Een' & _).
  pose proof (exec_app _ _ _ _ _ _
                (exec_app _ _ _ _ _ _ He (exec_enqueueEvents _ ms uid create now w))
                He') as Hall.
  assert (Hwc : withoutClear ((tr ++ enqueueEvents ms uid create now) ++ tr'))
    by (unfold withoutClear in *; rewrite !Forall_app; auto).
  assert (Eall : enqueued ((tr ++ enqueueEvents ms uid create now) ++ tr')
                 = enqueued tr ++ map (fun m => ((m, uid), create)) ms).
  { rewrite !enqueued_app, Een, Een'. now rewrite app_nil_r. }
  destruct (QueueFacts.succeeding_in_order _ _ w' Hwc) as (Hins & Hcon & Hqe);
    [| assumption | assumption |].
  - rewrite Eall. intros d f Hin. apply in_app_or in Hin as [Hin | Hin].
    + now apply Hok.
    + apply in_map_iff in Hin as (m & E & Hm). injection E as <- <-.
      now apply Hms.
  - split; [| split; [assumption |]].
    + rewrite Hins, Eall, map_app, map_map. reflexivity.
    + destruct (QueueFacts.reachable_config _ _ _ Hall) as (Hi & Eb & _).
      destruct (quiescent_totals _ w' Hi Hq) as (_ & Ep & _).
      unfold getStatus. now rewrite Hqe, Ep, Eb.
Qed.

End InOrder.

Lemma X30_batch_is_inserted_in_request_order_witness :
  let tr' := [Settles 0 0; Resumes 0; Resumes 0; Settles 0 0; Settles 0 0;
              Resumes 0] in
  exists w' : World (Payload nat),
    exec tr' (snd (createMoviesBatch (Some [7; 8; 9]) "admin"%string
                     (fun _ _ => Fulfilled) 0 initial)) = Some w'
    /\ inserts w' = [((7, "admin"%string), 0); ((8, "admin"%string), 0);
                     ((9, "admin"%string), 0)].
Proof.
  intros tr'. eexists. split; [vm_compute; reflexivity |].
  match goal with
  | |- inserts ?w' = _ =>
      apply (X30_batch_is_inserted_in_request_order nat [] tr' initial w'
               [7; 8; 9] "admin"%string (fun _ _ => Fulfilled) 0)
  end.
  - constructor.
  - reflexivity.
  - intros d f [].
  - intros m _ k. reflexivity.
  - repeat constructor.
  - vm_compute. reflexivity.
  - vm_compute. reflexivity.
Defined.

End BatchFacts.

(* ===================================================================== *)
(** * From the handlers to the scores: views and likes *)
(* ===================================================================== *)

Module PreferenceFacts.
Import JS Engine Feed EngineSpec Controller Preferences.
Import EngineProofs EngineFacts.

Lemma In_addToSet (l : list string) (x y : string) :
  In y (addToSet l x) <-> In y l \/ y = x.
Proof.
  unfold addToSet. destruct (existsb (String.eqb x) l) eqn:E.
  - apply existsb_exists in E as (z & Hz & He). apply String.eqb_eq in He. subst z.
    split; [now left | intros [H | ->]; assumption].
  - rewrite in_app_iff. cbn. split; intros [H | H]; auto.
    + destruct H as [<- | []]. now right.
Qed.

Lemma In_addEachToSet (l xs : list string) (y : string) :
  In y (addEachToSet l xs) <-> In y l \/ In y xs.
Proof.
  unfold addEachToSet. revert l. induction xs as [| x xs IH]; intros l; cbn [fold_left].
  - cbn. tauto.
  - rewrite IH, In_addToSet. cbn. split; intros H; intuition (subst; auto).
Qed.

Lemma addToSet_nonempty (l : list string) (x : string) : addToSet l x <> [].
Proof.
  intros E. assert (H : In x (addToSet l x)) by (apply In_addToSet; now right).
  rewrite E in H. exact H.
Qed.

Lemma addEachToSet_nonempty (l xs : list string) :
  xs <> [] -> addEachToSet l xs <> [].
Proof.
  intros Hne E. destruct xs as [| x xs]; [congruence |].
  assert (H : In x (addEachToSet l (x :: xs)))
    by (apply In_addEachToSet; right; now left).
  rewrite E in H. exact H.
Qed.

Lemma matchCount_all (prefs genres : list string) :
  (forall g, In g genres -> In (toLowerCase g) (map toLowerCase prefs)) ->
  matchCount prefs genres = List.length genres.
Proof.
  induction genres as [| g genres IH]; intros H; [reflexivity |].
  cbn [matchCount fold_right List.length].
  destruct (in_dec string_dec _ _) as [_ | Hn].
  - f_equal. apply IH. intros g' Hg'. apply H. now right.
  - destruct Hn. apply H. now left.
Qed.

Lemma matchCount_none (prefs genres : list string) :
  (forall g, In g genres -> ~ In (toLowerCase g) (map toLowerCase prefs)) ->
  matchCount prefs genres = 0%nat.
Proof.
  induction genres as [| g genres IH]; intros H; [reflexivity |].
  cbn [matchCount fold_right].
  destruct (in_dec string_dec _ _) as [Hin | _].
  - destruct (H g (or_introl eq_refl) Hin).
  - apply IH. intros g' Hg'. apply H. now right.
Qed.

Lemma nonempty_length {A : Type} (l : list A) :
  l <> [] -> (List.length l =? 0)%nat = false.
Proof. destruct l; [congruence | reflexivity]. Qed.

Section AnyArithmetic.

Context {num : Type} `{Arith num}.

(** With preferred genres the weight is the quotient the code computes from
    the number of matching genres. *)
Lemma genreWeight_counts (genres prefs : list string) (u : UserInteractions) :
  preferredGenres u = Some prefs -> prefs <> [] ->
  calculateGenreWeight genres u
  = min (div (ofNat (matchCount prefs genres)) (ofNat (List.length genres))) (lit 1).
Proof.
  intros Hp Hne. unfold calculateGenreWeight.
  rewrite Hp, (nonempty_length prefs Hne), matching_length_matchCount.
  reflexivity.
Qed.

Lemma directorWeight_cases (d : string) (prefs : list string) (u : UserInteractions) :
  preferredDirectors u = Some prefs -> prefs <> [] ->
  (In (toLowerCase d) (map toLowerCase prefs) ->
   calculateDirectorWeight d u = lit 1)
  /\ (~ In (toLowerCase d) (map toLowerCase prefs) ->
      calculateDirectorWeight d u = lit 0.3).
Proof.
  intros Hp Hne. unfold calculateDirectorWeight.
  rewrite Hp, (nonempty_length prefs Hne).
  destruct (existsb _ _) eqn:E.
  - split; [reflexivity |]. intros Hn. destruct Hn.
    apply existsb_exists in E as (z & Hz & He). apply String.eqb_eq in He.
    now rewrite He.
  - split; [| reflexivity]. intros Hin.
    assert (Ht : existsb (String.eqb (toLowerCase d)) (map toLowerCase prefs) = true).
    { apply existsb_exists. exists (toLowerCase d). split; [assumption |].
      apply String.eqb_refl. }
    congruence.
Qed.

(** What the update of a view or of a like does to the weights of the movie
    it was made on. *)
Lemma weights_after_update
    (genres : list string) (dir : string) (u : UserInteractions)
    (viewed : option (list ViewedMovie)) :
  let u' := addPreferences genres dir u viewed in
  let n := List.length genres in
  calculateDirectorWeight dir u' = lit 1
  /\ (genres <> [] ->
      calculateGenreWeight genres u' = min (div (ofNat n) (ofNat n)) (lit 1))
  /\ (genres = [] -> calculateGenreWeight genres u' = calculateGenreWeight genres u).
Proof.
  intros u' n. subst u' n. split; [| split].
  - apply (directorWeight_cases dir
             (addToSet (arrayOf (preferredDirectors u)) dir)
             (addPreferences genres dir u viewed) eq_refl (addToSet_nonempty _ _)).
    apply in_map. apply In_addToSet. now right.
  - intros Hg.
    rewrite (genreWeight_counts genres
               (addEachToSet (arrayOf (preferredGenres u)) genres)
               (addPreferences genres dir u viewed) eq_refl
               (addEachToSet_nonempty _ _ Hg)).
    rewrite matchCount_all; [reflexivity |].
    intros g Hin. apply in_map. apply In_addEachToSet. now right.
  - intros ->. unfold calculateGenreWeight. cbn [addPreferences preferredGenres].
    unfold addEachToSet. cbn [fold_left].
    destruct (preferredGenres u) as [prefs |]; reflexivity.
Qed.

(** What the first update does to the weights of another movie. *)
Lemma weights_of_unrelated
    (genres : list string) (dir : string) (u : UserInteractions)
    (viewed : option (list ViewedMovie)) (genres2 : list string) (dir2 : string) :
  let u' := addPreferences genres dir u viewed in
  (noHistory (preferredGenres u) -> genres <> [] ->
   noCommonGenre genres2 genres ->
   calculateGenreWeight genres2 u = lit 0.5
   /\ calculateGenreWeight genres2 u'
      = min (div (ofNat 0) (ofNat (List.length genres2))) (lit 1))
  /\ (noHistory (preferredDirectors u) ->
      toLowerCase dir2 <> toLowerCase dir ->
      calculateDirectorWeight dir2 u = lit 0.5
      /\ calculateDirectorWeight dir2 u' = lit 0.3).
Proof.
  intros u'. subst u'. split.
  - intros Hng Hg Hnone. split; [now apply genreWeight_no_history |].
    assert (Epg : arrayOf (preferredGenres u) = [])
      by (destruct Hng as [-> | ->]; reflexivity).
    rewrite (genreWeight_counts genres2
               (addEachToSet (arrayOf (preferredGenres u)) genres)
               (addPreferences genres dir u viewed) eq_refl
               (addEachToSet_nonempty _ _ Hg)).
    rewrite matchCount_none; [reflexivity |].
    intros g Hin Hmem. apply (Hnone g Hin).
    apply in_map_iff in Hmem as (x & Hx & Hxin). rewrite <- Hx.
    apply in_map. apply In_addEachToSet in Hxin as [Hxin | Hxin]; [| assumption].
    rewrite Epg in Hxin. destruct Hxin.
  - intros Hnd Hdir. split; [now apply directorWeight_no_history |].
    assert (Epd : arrayOf (preferredDirectors u) = [])
      by (destruct Hnd as [-> | ->]; reflexivity).
    apply (directorWeight_cases dir2
             (addToSet (arrayOf (preferredDirectors u)) dir)
             (addPreferences genres dir u viewed) eq_refl (addToSet_nonempty _ _)).
    intros Hmem. apply in_map_iff in Hmem as (x & Hx & Hxin).
    apply In_addToSet in Hxin as [Hxin | ->].
    + rewrite Epd in Hxin. destruct Hxin.
    + now apply Hdir.
Qed.

(** X16: a signed-in request for a movie that is answered with the movie
    has made three store accesses, in this order: the read of the movie, the
    creation of a view record, and the update that adds the movie to the
    viewed movies and its genres and director to the preferences of the
    user; an anonymous request makes the read alone.  Once the store has
    carried the update out, the movie has director weight 1.0 and exposure
    weight 0.1 for that user; if it has a genre, all its genres match the
    preferences (matching genres = number of genres n, so the genre weight
    is [Math.min(n / n, 1.0)]), and if it has none its genre weight is what
    it was before.  In either arithmetic. *)
Theorem X16_viewing_a_movie_makes_it_preferred_and_seen
    {Stored : Type} (store : Store Stored) (now viewedAt : Date) (id : string)
    (uid : ObjectId) (status : nat) (m : Movie) (u : UserInteractions) :
  fst (getMovieById store now viewedAt id (Some uid)) = Json status m ->
  let r := getMovieById store now viewedAt id (Some uid) in
  let u' := applyAccesses uid (snd r) u in
  let n := List.length (genre m) in
  status = 200%nat
  /\ Movie_findById store id = Resolves (Some m)
  /\ snd r
     = [MovieFindById id;
        UserInteractionCreate (mkDoc uid (_id m) "view" [] now);
        UserFindByIdAndUpdate uid
          (ViewUpdate (_id m) viewedAt (genre m) (director m))]
  /\ getMovieById store now viewedAt id None = (Json 200 m, [MovieFindById id])
  /\ calculateDirectorWeight (director m) u' = lit 1
  /\ calculateInteractionWeight (_id m) u' = lit 0.1
  /\ (genre m <> [] ->
      calculateGenreWeight (genre m) u' = min (div (ofNat n) (ofNat n)) (lit 1))
  /\ (genre m = [] ->
      calculateGenreWeight (genre m) u' = calculateGenreWeight (genre m) u).
Proof.
  intros Hr r u' n. subst r u' n. revert Hr. unfold getMovieById.
  destruct (Movie_findById store id) as [[movie |] | e]; try discriminate.
  destruct (UserInteraction_create store _) as [i | e]; try discriminate.
  destruct (User_findByIdAndUpdate store uid _) as [[] | e]; try discriminate.
  cbn [fst snd]. intros E. injection E as <- <-.
  split; [reflexivity |]. split; [reflexivity |]. split; [reflexivity |].
  split; [reflexivity |].
  cbn [applyAccesses fold_left applyAccess app]. rewrite String.eqb_refl.
  cbn [applyUpdate].
  destruct (weights_after_update (genre movie) (director movie) u
              (Some (arrayOf (viewedMovies u) ++ [mkViewed (_id movie) viewedAt])))
    as (Hd & Hg & Hg0).
  split; [exact Hd |]. split; [| split; assumption].
  apply interactionWeight_viewed.
  eexists. split; [reflexivity |]. rewrite map_app. apply in_or_app.
  right. now left.
Qed.

(** X17: a like that is answered with 201 has updated the user with the
    genres and the director of the movie the store returned.  Once the store
    has carried the update out, the viewed movies are what they were, the
    liked movie has director weight 1.0 and, if it has a genre, all its
    genres match the preferences.  For a user who had no preferred genres
    before, every movie that has, letter case aside, no genre in common with
    a liked movie that has one goes from the neutral genre weight 0.5 to
    [Math.min(0 / n2, 1.0)], n2 its number of genres (so to NaN when it has
    none); for a user who had no preferred directors before, every movie
    with another director (letter case aside) goes from the neutral director
    weight 0.5 to 0.3.  In either arithmetic. *)
Theorem X17_first_like_ends_the_neutral_weights
    {Stored : Type} (store : Store Stored) (now : Date) (req : Request)
    (status : nat) (stored : Stored) (u : UserInteractions) :
  body_interactionType req = Some "like"%string ->
  fst (trackInteraction store now req) = Json status stored ->
  let r := trackInteraction store now req in
  let u' := applyAccesses (user_id req) (snd r) u in
  exists m,
    Movie_findById store (params_id req) = Resolves (Some m)
    /\ In (UserFindByIdAndUpdate (user_id req)
             (LikeUpdate (params_id req) (genre m) (director m))) (snd r)
    /\ viewedMovies u' = viewedMovies u
    /\ calculateDirectorWeight (director m) u' = lit 1
    /\ (genre m <> [] ->
        calculateGenreWeight (genre m) u'
        = min (div (ofNat (List.length (genre m))) (ofNat (List.length (genre m))))
              (lit 1))
    /\ (forall m2,
          noHistory (preferredGenres u) -> genre m <> [] ->
          noCommonGenre (genre m2) (genre m) ->
          calculateGenreWeight (genre m2) u = lit 0.5
          /\ calculateGenreWeight (genre m2) u'
             = min (div (ofNat 0) (ofNat (List.length (genre m2)))) (lit 1))
    /\ (forall m2,
          noHistory (preferredDirectors u) ->
          toLowerCase (director m2) <> toLowerCase (director m) ->
          calculateDirectorWeight (director m2) u = lit 0.5
          /\ calculateDirectorWeight (director m2) u' = lit 0.3).
Proof.
  intros Hty Hr r u'. subst r u'. revert Hr. unfold trackInteraction.
  rewrite Hty. cbn [includes validTypes existsb negb].
  change (String.eqb "like" "view") with false.
  change (String.eqb "like" "like") with true.
  cbn [orb negb].
  destruct (Movie_findById store (params_id req)) as [[m |] | e]; try discriminate.
  destruct (UserInteraction_create store _) as [i | e]; try discriminate.
  destruct (User_findByIdAndUpdate store (user_id req) _) as [[] | e];
    try discriminate.
  cbn [fst snd]. intros _. exists m.
  split; [reflexivity |]. split; [right; right; left; reflexivity |].
  cbn [applyAccesses fold_left applyAccess app]. rewrite String.eqb_refl.
  cbn [applyUpdate].
  destruct (weights_after_update (genre m) (director m) u (viewedMovies u))
    as (Hd & Hg & _).
  split; [reflexivity |]. split; [exact Hd |]. split; [exact Hg |].
  split; intros m2.
  - apply (weights_of_unrelated (genre m) (director m) u (viewedMovies u)
             (genre m2) (director m2)).
  - apply (weights_of_unrelated (genre m) (director m) u (viewedMovies u)
             (genre m2) (director m2)).
Qed.

End AnyArithmetic.

Lemma X16_viewing_a_movie_makes_it_preferred_and_seen_witness :
  let m := mkMovie "m1"%string "Heat"%string ["Crime"%string]
             "Michael Mann"%string 8 0%Z in
  let store := catalogStore [m] in
  let u' := applyAccesses "u1"%string
              (snd (getMovieById store 1000%Z 1005%Z "m1"%string
                     (Some "u1"%string)))
              (mkPrefs None None None) in
  calculateDirectorWeight (num := spec_float) "Michael Mann"%string u' = lit 1
  /\ calculateInteractionWeight (num := spec_float) "m1"%string u' = lit 0.1.
Proof.
  intros m store u'.
  destruct (X16_viewing_a_movie_makes_it_preferred_and_seen (num := spec_float)
              store 1000%Z 1005%Z "m1"%string "u1"%string 200%nat m
              (mkPrefs None None None) eq_refl)
    as (_ & _ & _ & _ & Hd & Hi & _).
  split; [exact Hd | exact Hi].
Defined.

Lemma X17_first_like_ends_the_neutral_weights_witness :
  let m := mkMovie "m1"%string "Heat"%string ["Crime"%string]
             "Michael Mann"%string 8 0%Z in
  let m2 := mkMovie "m2"%string "Up"%string ["Animation"%string]
              "Pete Docter"%string 8 0%Z in
  let store := catalogStore [m; m2] in
  let req := mkRequest "m1"%string (Some "like"%string) None "u1"%string in
  let u' := applyAccesses "u1"%string (snd (trackInteraction store 1000%Z req))
              (mkPrefs None None None) in
  calculateDirectorWeight (num := spec_float) (director m) u' = lit 1
  /\ calculateDirectorWeight (num := spec_float) (director m2) u' = lit 0.3.
Proof.
  intros m m2 store req u'.
  destruct (X17_first_like_ends_the_neutral_weights (num := spec_float)
              store 1000%Z req 201%nat
              (mkDoc "u1"%string "m1"%string "like"%string [] 1000%Z)
              (mkPrefs None None None) eq_refl eq_refl)
    as (m0 & Ef & _ & _ & Hd & _ & _ & Hd2).
  injection Ef as <-.
  split; [exact Hd |].
  apply (Hd2 m2); [now left | vm_compute; discriminate].
Defined.

End PreferenceFacts.

(* ===================================================================== *)
(** * More on the interaction handler *)
(* ===================================================================== *)

Module HandlerFacts.
Import Controller ControllerProofs.

Local Open Scope string_scope.

(** X18: the ways the interaction handler ends, for every store.  It throws
    400 exactly when it has made no store access, and exactly when the type
    of the request is none of view, like, share and click.  It throws 404
    only after the read of the movie resolved with nothing, and that read is
    its one access.  It passes a rejection of the store on as it is: of the
    read (a CastError of a malformed id and the like; one access), of the
    creation (a ValidationError of the metadata and the like; two accesses,
    no update of the user), or of the update of the user after a like (three
    accesses).
    It answers with no status other than 201, and then with the record the
    creation resolved with, after the read, the creation and, exactly for a
    like, the update of the user with the genres and the director of the
    movie read.  Every record it asks the store to create carries the user,
    the id of the path, a type of the four (so a type of the schema), the
    current time as timestamp, and the properties spread from the metadata
    of the request other than timestamp. *)
Theorem X18_interaction_handler_outcomes
    {Stored : Type} (store : Store Stored) (now : Date) (req : Request) :
  let r := trackInteraction store now req in
  let id := params_id req in
  let sent t :=
    {| doc_userId := user_id req;
       doc_movieId := id;
       doc_interactionType := t;
       doc_metadata :=
         filter (fun p => negb (String.eqb (fst p) "timestamp"))
                (spread (body_metadata req));
       doc_timestamp := now |} in
  ((exists msg, fst r = ApiError 400 msg) <-> snd r = [])
  /\ (snd r = [] <-> ~ includes validTypes (body_interactionType req) = true)
  /\ (forall code msg, fst r = ApiError code msg ->
      (code = 400%nat /\ snd r = [])
      \/ (code = 404%nat /\ msg = "Movie not found"
          /\ Movie_findById store id = Resolves None
          /\ snd r = [MovieFindById id]))
  /\ (forall e, fst r = StoreRejection e ->
      (Movie_findById store id = Rejects e /\ snd r = [MovieFindById id])
      \/ (exists m t,
            Movie_findById store id = Resolves (Some m)
            /\ body_interactionType req = Some t
            /\ ((UserInteraction_create store (sent t) = Rejects e
                 /\ snd r = [MovieFindById id; UserInteractionCreate (sent t)])
                \/ (t = "like"
                    /\ User_findByIdAndUpdate store (user_id req)
                         (LikeUpdate id (genre m) (director m)) = Rejects e
                    /\ snd r
                       = [MovieFindById id; UserInteractionCreate (sent t);
                          UserFindByIdAndUpdate (user_id req)
                            (LikeUpdate id (genre m) (director m))]))))
  /\ (forall status stored, fst r = Json status stored ->
      status = 201%nat
      /\ exists m t,
           Movie_findById store id = Resolves (Some m)
           /\ body_interactionType req = Some t
           /\ UserInteraction_create store (sent t) = Resolves stored
           /\ snd r
              = ([MovieFindById id; UserInteractionCreate (sent t)]
                 ++ (if String.eqb t "like"
                     then [UserFindByIdAndUpdate (user_id req)
                             (LikeUpdate id (genre m) (director m))]
                     else []))%list)
  /\ (forall doc, In (UserInteractionCreate doc) (snd r) ->
      doc = sent (doc_interactionType doc)
      /\ body_interactionType req = Some (doc_interactionType doc)
      /\ In (doc_interactionType doc) validTypes
      /\ In (doc_interactionType doc) schemaInteractionTypes
      /\ forall p, In p (doc_metadata doc) -> fst p <> "timestamp")
  /\ (forall uid update, In (UserFindByIdAndUpdate uid update) (snd r) ->
      body_interactionType req = Some "like"
      /\ uid = user_id req
      /\ exists m, Movie_findById store id = Resolves (Some m)
                   /\ update = LikeUpdate id (genre m) (director m)).
Proof.
  intros r id sent. subst r id.
  assert (Hmeta : forall t p, In p (doc_metadata (sent t)) -> fst p <> "timestamp").
  { intros t p Hin. subst sent. cbn [doc_metadata] in Hin.
    apply filter_In in Hin as [_ Hp]. intros E. rewrite E in Hp. discriminate Hp. }
  unfold trackInteraction.
  destruct (body_interactionType req) as [t |] eqn:Hb;
    [destruct (includes validTypes (Some t)) eqn:Hinc; cbn [negb] |].
  - (* a type of the four *)
    apply includes_In in Hinc as Hin.
    destruct (Movie_findById store (params_id req)) as [[m |] | e] eqn:Hf.
    + fold (sent t).
      destruct (UserInteraction_create store (sent t)) as [i | e] eqn:Hc.
      * destruct (String.eqb t "like") eqn:Hl.
        -- apply String.eqb_eq in Hl as Ht.
           destruct (User_findByIdAndUpdate store (user_id req) _)
             as [[] | e] eqn:Hu; cbn [fst snd app].
           ++ split; [split; [intros [msg E]; discriminate E | discriminate] |].
              split; [split; [discriminate | intros Hn; now destruct Hn] |].
              split; [discriminate |]. split; [discriminate |].
              split.
              { intros status stored E. injection E as <- <-.
                split; [reflexivity |]. exists m, t. rewrite Hl. auto. }
              split.
              { intros doc [E | [E | [E | []]]]; try discriminate E.
                injection E as <-. cbn [doc_interactionType].
                repeat split; auto using validTypes_in_schema. apply Hmeta. }
              intros uid update [E | [E | [E | []]]]; try discriminate E.
              injection E as <- <-. subst t. repeat split. now exists m.
           ++ split; [split; [intros [msg E]; discriminate E | discriminate] |].
              split; [split; [discriminate | intros Hn; now destruct Hn] |].
              split; [discriminate |].
              split.
              { intros e' E. injection E as <-. right. exists m, t.
                split; [reflexivity |]. split; [reflexivity |]. right.
                rewrite <- Ht at 1. auto. }
              split; [discriminate |].
              split.
              { intros doc [E | [E | [E | []]]]; try discriminate E.
                injection E as <-. cbn [doc_interactionType].
                repeat split; auto using validTypes_in_schema. apply Hmeta. }
              intros uid update [E | [E | [E | []]]]; try discriminate E.
              injection E as <- <-. subst t. repeat split. now exists m.
        -- cbn [fst snd].
           split; [split; [intros [msg E]; discriminate E | discriminate] |].
           split; [split; [discriminate | intros Hn; now destruct Hn] |].
           split; [discriminate |]. split; [discriminate |].
           split.
           { intros status stored E. injection E as <- <-.
             split; [reflexivity |]. exists m, t. rewrite Hl. auto. }
           split.
           { intros doc [E | [E | []]]; try discriminate E.
             injection E as <-. cbn [doc_interactionType].
             repeat split; auto using validTypes_in_schema. apply Hmeta. }
           intros uid update [E | [E | []]]; discriminate E.
      * cbn [fst snd].
        split; [split; [intros [msg E]; discriminate E | discriminate] |].
        split; [split; [discriminate | intros Hn; now destruct Hn] |].
        split; [discriminate |].
        split.
        { intros e' E. injection E as <-. right. exists m, t. auto. }
        split; [discriminate |].
        split.
        { intros doc [E | [E | []]]; try discriminate E.
          injection E as <-. cbn [doc_interactionType].
          repeat split; auto using validTypes_in_schema. apply Hmeta. }
        intros uid update [E | [E | []]]; discriminate E.
    + cbn [fst snd].
      split; [split; [intros [msg E]; discriminate E | discriminate] |].
      split; [split; [discriminate | intros Hn; now destruct Hn] |].
      split.
      { intros code msg E. injection E as <- <-. right. auto. }
      split; [discriminate |]. split; [discriminate |].
      split; [intros doc [E | []]; discriminate E |].
      intros uid update [E | []]; discriminate E.
    + cbn [fst snd].
      split; [split; [intros [msg E]; discriminate E | discriminate] |].
      split; [split; [discriminate | intros Hn; now destruct Hn] |].
      split; [discriminate |].
      split.
      { intros e' E. injection E as <-. left. auto. }
      split; [discriminate |].
      split; [intros doc [E | []]; discriminate E |].
      intros uid update [E | []]; discriminate E.
  - (* another type *)
    unfold invalidInteractionType. cbn [fst snd].
    split; [split; [reflexivity | intros _; eexists; reflexivity] |].
    split; [split; [intros _; congruence | reflexivity] |].
    split; [intros code msg E; injection E as <- _; left; auto |].
    split; [discriminate |]. split; [discriminate |].
    split; [intros doc [] |]. intros uid update [].
  - (* no type *)
    unfold invalidInteractionType. cbn [fst snd includes].
    split; [split; [reflexivity | intros _; eexists; reflexivity] |].
    split; [split; [intros _; discriminate | reflexivity] |].
    split; [intros code msg E; injection E as <- _; left; auto |].
    split; [discriminate |]. split; [discriminate |].
    split; [intros doc [] |]. intros uid update [].
Qed.

End HandlerFacts.

(* ===================================================================== *)
(** * The route table *)
(* ===================================================================== *)

Module RouteFacts.
Import JS Routes.

Local Open Scope string_scope.

Lemma feed_matches_id (s : string) :
  String.eqb (toLowerCase s) (toLowerCase "feed") = true ->
  negb (String.eqb s "") = true.
Proof.
  intros H. destruct s; [discriminate H | reflexivity].
Qed.

Ltac route_cases :=
  repeat match goal with
         | H : context [if ?b then _ else _] |- _ => destruct b eqn:?
         | H : Some _ = Some _ |- _ => injection H as <-
         | H : None = Some _ |- _ => discriminate H
         end.

Lemma dispatch_never_feed (m : Method) (segs : list string) (r : Route) :
  dispatch m segs = Some r -> ~ In getMovieFeed (handlers r).
Proof.
  unfold dispatch, movieRoutes. intros H.
  destruct m; destruct segs as [| s [| s2 [| s3 rest]]];
    cbn [find method path method_eqb matchPath matchSegment andb] in H;
    rewrite ?andb_true_r, ?andb_false_r in H;
    cbn [andb] in H;
    route_cases;
    cbn [handlers In];
    try (intuition discriminate).
  all: match goal with
       | Hf : String.eqb (toLowerCase ?s) (toLowerCase "feed") = true,
         Hn : negb (String.eqb ?s "") = false |- _ =>
           rewrite (feed_matches_id s Hf) in Hn; discriminate Hn
       end.
Qed.

(** X19: the route of the personalized feed is dead.  [GET /:id] is
    registered before [GET /feed] and matches every path of one segment, so a
    request for [/feed] runs [getMovieById] with the id "feed" behind
    [optionalAuth]; no request, whatever its method and path, reaches
    [getMovieFeed].  Every other route of the table is reached by some
    request. *)
Theorem X19_feed_route_is_shadowed :
  (forall (m : Method) (segs : list string) (r : Route),
     dispatch m segs = Some r -> ~ In getMovieFeed (handlers r))
  /\ (forall s : string,
        toLowerCase s = "feed" ->
        dispatch GET [s] = Some (mkRoute GET [Param "id"] [optionalAuth; getMovieById]))
  /\ (forall r : Route,
        In r movieRoutes ->
        ((exists m segs, dispatch m segs = Some r)
         <-> ~ In getMovieFeed (handlers r))).
Proof.
  split; [exact dispatch_never_feed |]. split.
  - intros s Hs. unfold dispatch, movieRoutes.
    cbn [find method path method_eqb matchPath matchSegment andb].
    rewrite !andb_true_r, Hs.
    assert (Hne : negb (String.eqb s "") = true)
      by (apply feed_matches_id; rewrite Hs; reflexivity).
    rewrite Hne. reflexivity.
  - intros r Hin. split.
    + intros (m & segs & H). exact (dispatch_never_feed m segs r H).
    + intros Hno. unfold movieRoutes in Hin. cbn [In] in Hin.
      repeat (destruct Hin as [<- | Hin];
              [first [ exfalso; apply Hno; cbn; tauto
                     | exists GET, []; reflexivity
                     | exists GET, ["trending"]; reflexivity
                     | exists GET, ["sorted"]; reflexivity
                     | exists GET, ["search"]; reflexivity
                     | exists GET, ["42"]; reflexivity
                     | exists POST, ["42"; "interaction"]; reflexivity
                     | exists POST, []; reflexivity
                     | exists POST, ["batch"]; reflexivity
                     | exists PUT, ["42"]; reflexivity
                     | exists DELETE, ["42"]; reflexivity ] |]).
      destruct Hin.
Qed.

End RouteFacts.

(* ===================================================================== *)
(** * Authentication middleware and the origin check *)
(* ===================================================================== *)

Module AuthFacts.
Import Auth.

Local Open Scope string_scope.

Lemma split_noSpace (s : string) :
  noSpace s = true -> split " "%char s = [s].
Proof.
  induction s as [| c s IH]; intros H; [reflexivity |].
  cbn [noSpace] in H. apply andb_true_iff in H as [Hc Hs].
  apply negb_true_iff in Hc. cbn [split]. rewrite Hc, (IH Hs). reflexivity.
Qed.

Lemma split_app (s t : string) :
  noSpace s = true -> split " "%char (s ++ " " ++ t) = s :: split " "%char t.
Proof.
  induction s as [| c s IH]; intros H; [reflexivity |].
  cbn [noSpace] in H. apply andb_true_iff in H as [Hc Hs].
  apply negb_true_iff in Hc.
  change ((String c s) ++ " " ++ t) with (String c (s ++ " " ++ t)).
  cbn [split]. rewrite Hc, (IH Hs). reflexivity.
Qed.

Lemma prefix_app (p s t : string) :
  String.prefix p s = true -> String.prefix p (s ++ t) = true.
Proof.
  revert s. induction p as [| c p IH]; intros s H;
    [destruct s; [destruct t |]; reflexivity |].
  destruct s as [| c' s]; [discriminate H |].
  cbn [String.prefix append] in *.
  destruct (ascii_dec c c'); [now apply IH | discriminate H].
Qed.

(** X20: the token is the second of the words of the header, and of the
    scheme only its beginning is checked: for every header whose first word
    starts with Bearer and whose second word is not empty the token is that
    second word, whatever follows after another space; a header of one word,
    or with two spaces after the first, carries no token. *)
Theorem X20_bearer_token_is_second_word (scheme token rest : string) :
  String.prefix "Bearer" scheme = true ->
  noSpace scheme = true -> noSpace token = true -> token <> "" ->
  bearerToken (Some (scheme ++ " " ++ token)) = Some token
  /\ bearerToken (Some (scheme ++ " " ++ token ++ " " ++ rest)) = Some token
  /\ bearerToken (Some scheme) = None
  /\ bearerToken (Some (scheme ++ " " ++ " " ++ token)) = None.
Proof.
  intros Hp Hs Ht Hne. unfold bearerToken.
  rewrite !(prefix_app _ _ _ Hp), Hp.
  rewrite !(split_app scheme) by assumption.
  rewrite (split_noSpace scheme Hs), (split_noSpace token Ht).
  rewrite (split_app token) by assumption.
  cbn [nth_error].
  change (split " "%char (" " ++ token)) with (EmptyString :: split " "%char token).
  destruct token as [| c token]; [congruence |]. repeat split.
Qed.

Lemma X20_bearer_token_is_second_word_witness :
  bearerToken (Some "BearerX abc.def.ghi") = Some "abc.def.ghi"
  /\ bearerToken (Some "BearerX") = None.
Proof.
  destruct (X20_bearer_token_is_second_word "BearerX" "abc.def.ghi" ""
              eq_refl eq_refl eq_refl ltac:(discriminate))
    as (H1 & _ & H3 & _).
  split; assumption.
Defined.

Section WithStore.

Variable verify : string -> option ObjectId.
Variable findById : ObjectId -> option User.

(** X21: [protect] lets a request pass exactly when the header carries a
    token that verifies and names a user of the store, and then with that
    user; it never passes a request without a user on, and all its failures
    are 401.  [optionalAuth] never fails, and sets a user exactly when
    [protect] would pass with that user.  The chain of the admin routes
    passes exactly the requests that [protect] passes with a user of role
    admin; its failures are 401, or 403 for a user of another role. *)
Theorem X21_protect_and_admin_chain (authorization : option string) :
  (forall u,
     protect verify findById authorization = Next (Some u)
     <-> exists token uid,
           bearerToken authorization = Some token
           /\ verify token = Some uid /\ findById uid = Some u)
  /\ protect verify findById authorization <> Next None
  /\ (forall code msg,
        protect verify findById authorization = Fails code msg -> code = 401%nat)
  /\ (exists o,
        optionalAuth verify findById authorization = Next o
        /\ forall u, o = Some u
                     <-> protect verify findById authorization = Next (Some u))
  /\ (forall u,
        adminOnly verify findById authorization = Next (Some u)
        <-> protect verify findById authorization = Next (Some u)
            /\ role u = "admin")
  /\ (forall code msg,
        adminOnly verify findById authorization = Fails code msg ->
        code = 401%nat
        \/ (code = 403%nat
            /\ exists u, protect verify findById authorization = Next (Some u)
                         /\ role u <> "admin")).
Proof.
  unfold adminOnly, protect, optionalAuth, authorize.
  destruct (bearerToken authorization) as [token |];
    [destruct (verify token) as [uid |] eqn:Ev;
     [destruct (findById uid) as [user |] eqn:Ef |] |].
  - (* a user *)
    cbn [existsb]. rewrite orb_false_r.
    split; [| split; [discriminate | split; [discriminate | split; [| split]]]].
    + intros u. split.
      * intros E. injection E as <-. exists token, uid. auto.
      * intros (t & i & Et & Hv & Hf). injection Et as <-.
        rewrite Ev in Hv. injection Hv as <-. rewrite Ef in Hf. now rewrite Hf.
    + exists (Some user). split; [reflexivity |].
      intros u. split; intros E; injection E as <-; reflexivity.
    + intros u. destruct (String.eqb (role user) "admin") eqn:Er.
      * apply String.eqb_eq in Er. split.
        -- intros E. injection E as <-. split; [reflexivity | assumption].
        -- intros [E _]. exact E.
      * apply String.eqb_neq in Er. split; [discriminate |].
        intros [E Hr]. injection E as <-. contradiction.
    + intros code msg. destruct (String.eqb (role user) "admin") eqn:Er;
        [discriminate |].
      apply String.eqb_neq in Er. intros E. injection E as <- _. right.
      split; [reflexivity |]. exists user. split; [reflexivity | assumption].
  - (* a token of a user who is not in the store *)
    split; [| split; [discriminate | split; [| split; [| split]]]].
    + intros u. split; [discriminate |].
      intros (t & i & Et & Hv & Hf). injection Et as <-.
      rewrite Ev in Hv. injection Hv as <-. congruence.
    + intros code msg E. now injection E as <- _.
    + exists None. split; [reflexivity |]. intros u. split; discriminate.
    + intros u. split; [discriminate | intros [E _]; discriminate E].
    + intros code msg E. injection E as <- _. now left.
  - (* a token that does not verify *)
    split; [| split; [discriminate | split; [| split; [| split]]]].
    + intros u. split; [discriminate |].
      intros (t & i & Et & Hv & Hf). injection Et as <-. congruence.
    + intros code msg E. now injection E as <- _.
    + exists None. split; [reflexivity |]. intros u. split; discriminate.
    + intros u. split; [discriminate | intros [E _]; discriminate E].
    + intros code msg E. injection E as <- _. now left.
  - (* no token *)
    split; [| split; [discriminate | split; [| split; [| split]]]].
    + intros u. split; [discriminate |].
      intros (t & i & Et & _). discriminate Et.
    + intros code msg E. now injection E as <- _.
    + exists None. split; [reflexivity |]. intros u. split; discriminate.
    + intros u. split; [discriminate | intros [E _]; discriminate E].
    + intros code msg E. injection E as <- _. now left.
Qed.

End WithStore.

End AuthFacts.

Module CorsFacts.
Import Cors.

Local Open Scope string_scope.

Lemma truthy_cases (s : option string) :
  truthy s = true <-> exists x, s = Some x /\ x <> "".
Proof.
  destruct s as [[| c s] |]; cbn [truthy]; split; try discriminate.
  - intros (x & E & Hne). injection E as <-. congruence.
  - intros _. eexists. split; [reflexivity | discriminate].
  - reflexivity.
  - intros (x & E & _). discriminate E.
Qed.

Lemma listed_cases (frontendUrl : option string) (o : string) :
  listed frontendUrl o = true <-> frontendUrl = Some o \/ In o localOrigins.
Proof.
  unfold listed. rewrite orb_true_iff, existsb_exists. split.
  - intros [H | (x & Hin & He)].
    + destruct frontendUrl as [url |]; [| discriminate].
      apply String.eqb_eq in H. left. now subst.
    + apply String.eqb_eq in He. right. now subst.
  - intros [-> | Hin].
    + left. apply String.eqb_refl.
    + right. exists o. split; [assumption | apply String.eqb_refl].
Qed.

(** X22: the origin check blocks a request exactly when FRONTEND_URL is
    set to a non-empty string and the request has a non-empty origin that is
    neither that URL nor one of the eight local origins.  So without
    FRONTEND_URL nothing is blocked, a request without origin is never
    blocked, and the local origins are allowed under every configuration. *)
Theorem X22_origin_check_needs_frontend_url
    (frontendUrl requestOrigin : option string) :
  (origin frontendUrl requestOrigin = false
   <-> truthy frontendUrl = true
       /\ exists o, requestOrigin = Some o /\ o <> ""
                    /\ frontendUrl <> Some o /\ ~ In o localOrigins)
  /\ (truthy frontendUrl = false -> origin frontendUrl requestOrigin = true)
  /\ (truthy requestOrigin = false -> origin frontendUrl requestOrigin = true)
  /\ (forall o, In o localOrigins -> origin frontendUrl (Some o) = true).
Proof.
  assert (Hmain :
    origin frontendUrl requestOrigin = false
    <-> truthy frontendUrl = true
        /\ exists o, requestOrigin = Some o /\ o <> ""
                     /\ frontendUrl <> Some o /\ ~ In o localOrigins).
  { unfold origin. destruct (truthy requestOrigin) eqn:Ht; cbn [negb].
    - apply truthy_cases in Ht as (o & -> & Hne).
      rewrite orb_false_iff, negb_false_iff. split.
      + intros [Hl Hf]. split; [assumption |]. exists o.
        assert (Hn : ~ (frontendUrl = Some o \/ In o localOrigins))
          by (rewrite <- listed_cases; congruence).
        repeat split; auto.
      + intros (Hf & o' & E & _ & Hu & Hin). injection E as <-.
        split; [| assumption].
        destruct (listed frontendUrl o) eqn:El; [| reflexivity].
        apply listed_cases in El as [El | El]; contradiction.
    - split; [discriminate |].
      intros (_ & o & -> & Hne & _).
      assert (H : truthy (Some o) = true)
        by (apply truthy_cases; exists o; auto).
      congruence. }
  split; [exact Hmain |]. split; [| split].
  - intros Hf. apply not_false_iff_true. intros E.
    apply Hmain in E as [E _]. congruence.
  - intros Ho. unfold origin. now rewrite Ho.
  - intros o Hin. unfold origin.
    destruct (truthy (Some o)); cbn [negb]; [| reflexivity].
    apply orb_true_iff. left. apply listed_cases. now right.
Qed.

End CorsFacts.

(* ===================================================================== *)
(** * The feed handlers *)
(* ===================================================================== *)

Module FeedHandlerFacts.
Import JS Engine Feed FeedHandlers FeedProofs FeedFacts.

Section AnyCalendar.

Context {calendar : Calendar}.

Lemma recent_in_window (now since : Date) (m : Movie) (i : Interaction) :
  (since <= sevenDaysAgo now)%Z ->
  isRecentFor now m i = true -> timestampSince since i = true.
Proof.
  intros Hle H. unfold isRecentFor in H. apply andb_true_iff in H as [_ H].
  unfold timestampSince in *.
  destruct (metadata i) as [md |]; [| discriminate].
  destruct (timestamp md) as [t |]; [| discriminate].
  apply Z.leb_le in H. apply Z.leb_le. lia.
Qed.

Lemma recent_of_window (now since : Date) (m : Movie) (store : list Interaction) :
  (since <= sevenDaysAgo now)%Z ->
  filter (isRecentFor now m) (findSince store since)
  = filter (isRecentFor now m) store.
Proof.
  intros Hle. unfold findSince.
  induction store as [| i store IH]; [reflexivity |]. cbn [filter].
  destruct (timestampSince since i) eqn:Ew; cbn [filter].
  - now rewrite IH.
  - destruct (isRecentFor now m i) eqn:Er; [| assumption].
    rewrite (recent_in_window now since m i Hle Er) in Ew. discriminate.
Qed.

Section AnyArithmetic.

Context {num : Type} `{Arith num}.

Lemma score_of_window
    (now since : Date) (m : Movie) (u : UserInteractions) (store : list Interaction) :
  (since <= sevenDaysAgo now)%Z ->
  calculateRecommendationScore (num := num) now m u (findSince store since)
  = calculateRecommendationScore now m u store.
Proof.
  intros Hle. unfold calculateRecommendationScore, calculatePopularity.
  now rewrite recent_of_window.
Qed.

Lemma trendingScore_of_window
    (now since : Date) (m : Movie) (store : list Interaction) :
  (since <= sevenDaysAgo now)%Z ->
  trendingScore (num := num) now (findSince store since) m
  = trendingScore now store m.
Proof.
  intros Hle. unfold trendingScore. now rewrite recent_of_window.
Qed.

(** X23: when the windows of the store queries do not matter.  The
    scoring counts the interactions since [sevenDaysAgo], the day seven
    calendar days before it reads the clock.  If the window of the feed
    query (the 30 * 24 hours before the query reads the clock) starts no
    later than that day, the personalized feed of the handler is the feed
    computed from the whole store; if the window of the trending query
    (7 * 24 hours) starts no later than that day, the trending feed is the
    feed computed from the whole store.  And the personalized feed computed
    from the whole store is the feed computed from the records since
    [sevenDaysAgo] alone.  For every calendar and in either arithmetic. *)
Theorem X23_query_windows_do_not_matter
    (queryTime now : Date) (catalog : list Movie) (store : list Interaction)
    (history : option UserInteractions) (queryLimit : option Z) :
  let u := match history with Some h => h | None => emptyHistory end in
  let limit := Some (orDefault queryLimit 20) in
  ((queryTime - 30 * 24 * 60 * 60 * 1000 <= sevenDaysAgo now)%Z ->
   snd (getMovieFeed (num := num) queryTime now catalog store history queryLimit)
   = getPersonalizedFeed now catalog u store limit)
  /\ ((queryTime - 7 * 24 * 60 * 60 * 1000 <= sevenDaysAgo now)%Z ->
      snd (getTrending (num := num) queryTime now catalog store queryLimit)
      = getTrendingMovies now catalog store limit)
  /\ getPersonalizedFeed (num := num) now catalog u store limit
     = getPersonalizedFeed now catalog u (findSince store (sevenDaysAgo now)) limit.
Proof.
  intros u limit. subst u limit.
  unfold getMovieFeed, getTrending, getPersonalizedFeed, getTrendingMovies.
  cbn [snd].
  split; [| split]; [intros H30 | intros H7 |];
    do 3 f_equal; apply map_ext; intros m; f_equal.
  - now apply score_of_window.
  - now apply trendingScore_of_window.
  - symmetry. apply score_of_window. lia.
Qed.

End AnyArithmetic.

(** X24: the [limit] of the query string.  A limit that is missing, not a
    number, or 0 is replaced by 20, so the feed handlers never answer with
    an empty list on purpose: for a limit of 0 the answer holds
    min (20, n) movies of a catalog of n.  A positive limit k gives
    min (k, n) movies, a negative limit -k gives n - k of them (none when
    k >= n), and [count] is the number of movies returned. *)
Theorem X24_feed_handlers_limit
    (queryTime now : Date) (catalog : list Movie) (store : list Interaction)
    (history : option UserInteractions) (queryLimit : option Z) :
  let feed := getMovieFeed (num := number) queryTime now catalog store history
                queryLimit in
  let trending := getTrending (num := number) queryTime now catalog store
                    queryLimit in
  fst feed = List.length (snd feed)
  /\ fst trending = List.length (snd trending)
  /\ fst feed = fst trending
  /\ (queryLimit = None \/ queryLimit = Some 0%Z ->
      fst feed = Nat.min 20 (List.length catalog))
  /\ (forall k, queryLimit = Some k -> (0 < k)%Z ->
      fst feed = Nat.min (Z.to_nat k) (List.length catalog))
  /\ (forall k, queryLimit = Some k -> (k < 0)%Z ->
      fst feed = (List.length catalog - Z.to_nat (- k))%nat).
Proof.
  intros feed trending. subst feed trending.
  unfold getMovieFeed, getTrending. cbn [fst snd].
  rewrite getPersonalizedFeed_ranked, getTrendingMovies_ranked.
  rewrite !slice0_exact_length, !sort_length. cbn [defaultLimit].
  split; [reflexivity |]. split; [reflexivity |]. split; [reflexivity |].
  split; [| split].
  - intros [-> | ->]; reflexivity.
  - intros k -> Hk. destruct k as [| p | p]; try lia. reflexivity.
  - intros k -> Hk. destruct k as [| p | p]; try lia. reflexivity.
Qed.

End AnyCalendar.

(** The examples are evaluated in a time zone without changes of the clock. *)
#[local] Existing Instance EngineSpec.noClockChange.

Lemma X23_query_windows_do_not_matter_witness :
  let m := mkMovie "m1"%string "Heat"%string ["Crime"%string]
             "Michael Mann"%string 8 0%Z in
  let old := mkInteraction "u1"%string "m1"%string "view"%string
               (Some (mkMetadata (Some 0%Z))) in
  snd (getTrending (num := spec_float) 5000000000%Z 5000000001%Z [m] [old] None)
  = getTrendingMovies 5000000001%Z [m] [old] (Some 20%Z).
Proof.
  intros m old.
  destruct (X23_query_windows_do_not_matter (num := spec_float)
              5000000000%Z 5000000001%Z [m] [old] None None) as (_ & H7 & _).
  apply H7. vm_compute. discriminate.
Defined.

End FeedHandlerFacts.
